(** * Outline extraction of [Challenge_1a/process_pdfs.py]

    A shallow embedding of the title and outline inference of
    [process_pdfs.py] and the proofs of its specified properties.

    Conventions of the embedding.
    - Text ([str] in Python) is a list of 8-bit characters: the strings
      covered are those of the code points 0 to 255 (Latin-1).  On them
      the character classes [\s], [\d], [\w], [[A-Z]], [[a-z]] of [re],
      [str.strip] and [str.lower] are exactly Python's.
    - Numbers coming from the PDF library (font sizes, coordinates) are
      rationals [Q], of which the floats are a subset; Python's [==] on
      them is [Qeq_bool], its [<] is [Qlt_bool].  The float literal [1.1]
      is the double next to 11/10 and the product [avg_font_size * 1.1] is
      rounded as IEEE 754 does, to the nearest number of 53 significant
      bits, ties to even ([Float.mul]); exponents are not bounded, so
      overflow and subnormal numbers are out of the model.  The sum and the
      quotient behind the average are exact.
    - A glyph is the dictionary that pdfplumber returns for a character:
      the key ['text'] is always there, the keys ['size'], ['x0'] and
      ['y0'] are read with [dict.get] and may be absent.
    - A call into a PDF library that may raise has an [outcome]; the
      [try]/[except] blocks of the code turn [Raised] into their fallback.
    - The order in which Python iterates over a set of numbers is a
      parameter [set_iter] of the code that builds one; the properties hold
      for every order that lists the distinct elements once
      ([set_order]), and [CPython.set_iter] is the order of CPython.
      [Page.extract_text] of pdfplumber is the parameter [extract_text]. *)

From Stdlib Require Import Ascii String DecimalString.
From Stdlib Require Import Bool Arith ZArith QArith Qround Qpower Qminmax.
From Stdlib Require Import Lia Lqa.
From Stdlib Require Import List SetoidList Permutation Sorted.
Import ListNotations.

Local Open Scope list_scope.

(** ** Python strings *)

Module PyStr.

Definition str := list ascii.

Definition lit (s : string) : str := list_ascii_of_string s.

Definition code (c : ascii) : nat := nat_of_ascii c.

Definition between (lo hi : nat) (c : ascii) : bool :=
  (lo <=? code c)%nat && (code c <=? hi)%nat.

(** [str.isspace] / the class [\s]: TAB, LF, VT, FF, CR, FS, GS, RS, US,
    the blank, NEL (U+0085) and the no-break space (U+00A0). *)
Definition is_space (c : ascii) : bool :=
  between 9 13 c || between 28 32 c || (code c =? 133)%nat ||
  (code c =? 160)%nat.

(** The class [\d]. *)
Definition is_digit (c : ascii) : bool := between 48 57 c.

(** The class [[A-Z]]. *)
Definition is_upper (c : ascii) : bool := between 65 90 c.

(** The class [[a-z]]. *)
Definition is_lower (c : ascii) : bool := between 97 122 c.

(** The class [\w]: the underscore and what [str.isalnum] accepts, which
    above U+007F are the ordinal indicators, the superscript digits, the
    micro sign, the fractions and the letters (all of U+00C0 to U+00FF but
    the multiplication and the division sign). *)
Definition is_word (c : ascii) : bool :=
  is_upper c || is_lower c || is_digit c || (code c =? 95)%nat ||
  (code c =? 170)%nat || between 178 179 c || (code c =? 181)%nat ||
  between 185 186 c || between 188 190 c || between 192 214 c ||
  between 216 246 c || between 248 255 c.

(** The class [[A-Z\s]]. *)
Definition is_upper_or_space (c : ascii) : bool := is_upper c || is_space c.

Definition is_char (d c : ascii) : bool := Ascii.eqb d c.

Definition newline : ascii := ascii_of_nat 10.

Fixpoint lstrip (s : str) : str :=
  match s with
  | c :: s' => if is_space c then lstrip s' else s
  | [] => []
  end.

Definition rstrip (s : str) : str := rev (lstrip (rev s)).

(** [s.strip()] *)
Definition strip (s : str) : str := rstrip (lstrip s).

(** The characters that [str.lower] changes: A to Z, and the capitals
    U+00C0 to U+00DE but the multiplication sign; the small letter is 32
    code points further. *)
Definition has_lower (c : ascii) : bool :=
  between 65 90 c || between 192 214 c || between 216 222 c.

Definition lower_char (c : ascii) : ascii :=
  if has_lower c then ascii_of_nat (code c + 32) else c.

(** [s.lower()] *)
Definition lower (s : str) : str := map lower_char s.

(** [s.endswith((c,))] *)
Definition endswith (c : ascii) (s : str) : bool :=
  match rev s with
  | d :: _ => Ascii.eqb d c
  | [] => false
  end.

(** [s.split('\n')]: the pieces between the line feeds; there is always
    at least one piece. *)
Fixpoint split_lines (s : str) : list str :=
  match s with
  | [] => [[]]
  | c :: s' =>
      if Ascii.eqb c newline then [] :: split_lines s'
      else match split_lines s' with
           | l :: ls => (c :: l) :: ls
           | [] => [[c]]
           end
  end.

(** [''.join(parts)] *)
Definition join (parts : list str) : str := concat parts.

(** Equality of two strings, [s == t]. *)
Fixpoint str_eqb (s t : str) : bool :=
  match s, t with
  | [], [] => true
  | c :: s', d :: t' => Ascii.eqb c d && str_eqb s' t'
  | _, _ => false
  end.

End PyStr.

Import PyStr.

(** ** The regular expressions of the classifier

    The four patterns of [is_potential_heading] are sequences of
    character classes under the quantifiers [?], [+] and [*], with an
    optional closing [$].  [re.match] anchors the match at the start of the
    text and accepts when some prefix matches. *)

Module Re.

Inductive piece :=
| One (p : ascii -> bool)
| Opt (p : ascii -> bool)
| Plus (p : ascii -> bool)
| Star (p : ascii -> bool).

Record regex := { pieces : list piece; dollar : bool }.

(** [$] matches at the end of the text and before a closing line feed. *)
Definition at_end (s : str) : bool :=
  match s with
  | [] => true
  | [c] => Ascii.eqb c newline
  | _ => false
  end.

Definition step (p : ascii -> bool) (k : str -> bool) (s : str) : bool :=
  match s with
  | c :: s' => p c && k s'
  | [] => false
  end.

(** Greedy repetition with backtracking: take one more character of the
    class when that leads to a match, else go on with the rest. *)
Fixpoint star (p : ascii -> bool) (k : str -> bool) (s : str) : bool :=
  match s with
  | c :: s' => (p c && star p k s') || k s
  | [] => k s
  end.

Fixpoint run (ps : list piece) (k : str -> bool) : str -> bool :=
  match ps with
  | [] => k
  | One p :: ps' => step p (run ps' k)
  | Opt p :: ps' => fun s => step p (run ps' k) s || run ps' k s
  | Plus p :: ps' => step p (star p (run ps' k))
  | Star p :: ps' => star p (run ps' k)
  end.

(** [re.match(r, s)] as a truth value. *)
Definition re_match (r : regex) (s : str) : bool :=
  run (pieces r) (if dollar r then at_end else fun _ => true) s.

(** The words of one piece. *)
Inductive piece_lang : piece -> str -> Prop :=
| L_one p c : p c = true -> piece_lang (One p) [c]
| L_opt_none p : piece_lang (Opt p) []
| L_opt_some p c : p c = true -> piece_lang (Opt p) [c]
| L_plus p c w : p c = true -> forallb p w = true -> piece_lang (Plus p) (c :: w)
| L_star p w : forallb p w = true -> piece_lang (Star p) w.

(** A text matches when it splits into one word per piece followed by a
    rest, which a closing [$] restricts to nothing or one line feed. *)
Definition Matches (r : regex) (s : str) : Prop :=
  exists words rest,
    Forall2 piece_lang (pieces r) words /\
    s = concat words ++ rest /\
    (dollar r = true -> rest = [] \/ rest = [newline]).

End Re.

(** ** Floating-point product

    [x * y] on Python floats is the exact product rounded to the nearest
    number with a significand of 53 bits, a tie going to the even
    significand. *)

Module Float.

Local Open Scope Q_scope.

(** The exponent [e] of the last place: [2^52 * 2^e <= x < 2^53 * 2^e]. *)
Definition ulp_exponent (x : Q) : Z :=
  let a := (Z.log2 (Qnum x) - Z.log2 (Zpos (Qden x)))%Z in
  if Qle_bool (2 ^ a) x then (a - 52)%Z else (a - 53)%Z.

(** The integer next to [r], the even one of the two when [r] is half way. *)
Definition nearest_even (r : Q) : Z :=
  let f := Qfloor r in
  match Qcompare (r - inject_Z f) (1 # 2) with
  | Lt => f
  | Gt => (f + 1)%Z
  | Eq => if Z.even f then f else (f + 1)%Z
  end.

Definition round_pos (x : Q) : Q :=
  let e := ulp_exponent x in
  inject_Z (nearest_even (x / 2 ^ e)) * 2 ^ e.

Definition round (x : Q) : Q :=
  match Qcompare x 0 with
  | Eq => 0
  | Gt => round_pos x
  | Lt => - round_pos (- x)
  end.

(** [x * y] *)
Definition mul (x y : Q) : Q := round (x * y).

(** The literal [1.1]: the double [0x1.199999999999ap+0]. *)
Definition one_point_one : Q := 2476979795053773 # 2251799813685248.

End Float.

(** ** Heading Classifier *)

Definition Qlt_bool (x y : Q) : bool := negb (Qle_bool y x).

(** [r'^\d+\.?\s+'] *)
Definition pat_numbered : Re.regex :=
  {| Re.pieces := [Re.Plus is_digit; Re.Opt (is_char "."); Re.Plus is_space];
     Re.dollar := false |}.

(** [r'^[A-Z][a-z]*\s+[A-Z]'] *)
Definition pat_title_case : Re.regex :=
  {| Re.pieces := [Re.One is_upper; Re.Star is_lower; Re.Plus is_space;
                   Re.One is_upper];
     Re.dollar := false |}.

(** [r'^[A-Z\s]+$'] *)
Definition pat_all_caps : Re.regex :=
  {| Re.pieces := [Re.Plus is_upper_or_space]; Re.dollar := true |}.

(** [r'^\w+\.\d+'] *)
Definition pat_dotted : Re.regex :=
  {| Re.pieces := [Re.Plus is_word; Re.One (is_char "."); Re.Plus is_digit];
     Re.dollar := false |}.

Definition heading_patterns : list Re.regex :=
  [pat_numbered; pat_title_case; pat_all_caps; pat_dotted].

Definition is_potential_heading
    (text : str) (font_size avg_font_size page_width : Q) : bool :=
  let text := strip text in
  if (length text <? 3)%nat || (150 <? length text)%nat then false
  else if (100 <? length text)%nat && negb (endswith ":" text) then false
  else if existsb (fun pattern => Re.re_match pattern text) heading_patterns
  then true
  else if Qlt_bool (Float.mul avg_font_size Float.one_point_one) font_size
  then true
  else false.

(** ** Python built-ins used by the pipeline *)

Inductive outcome (A : Type) : Type :=
| Ok (a : A)
| Raised.

Arguments Ok {A} a.
Arguments Raised {A}.

Definition bind {A B : Type} (m : outcome A) (f : A -> outcome B) : outcome B :=
  match m with
  | Ok a => f a
  | Raised => Raised
  end.

Notation "x <- m ;; k" := (bind m (fun x => k))
  (at level 61, m at next level, right associativity).

(** A [for] loop whose body may raise. *)
Fixpoint for_each {A S : Type} (body : A -> S -> outcome S) (l : list A) (s : S)
  : outcome S :=
  match l with
  | [] => Ok s
  | x :: l' => s' <- body x s ;; for_each body l' s'
  end.

Module Py.

(** [d.get(key, default)] on an optional field. *)
Definition get (field : option Q) (default : Q) : Q :=
  match field with
  | Some v => v
  | None => default
  end.

(** [sum(l)]: the additions are done from the left, starting at [0]. *)
Definition sum (l : list Q) : Q := fold_left Qplus l 0.

(** [l.count(x)] *)
Definition count (x : Q) (l : list Q) : nat :=
  List.length (filter (fun y => Qeq_bool y x) l).

(** [l.index(x)]; [None] stands for the [ValueError]. *)
Fixpoint index (x : Q) (l : list Q) : option nat :=
  match l with
  | [] => None
  | y :: l' => if Qeq_bool y x then Some 0%nat else option_map S (index x l')
  end.

(** [max(l, key=key)]: the first of the maximal elements; [None] stands
    for the [ValueError] on an empty argument. *)
Definition max_key {A : Type} (key : A -> nat) (l : list A) : option A :=
  match l with
  | [] => None
  | x :: l' =>
      Some (fold_left (fun best y => if (key best <? key y)%nat then y else best)
                      l' x)
  end.

(** [max(l)] on numbers. *)
Definition max (l : list Q) : option Q :=
  match l with
  | [] => None
  | x :: l' =>
      Some (fold_left (fun best y => if Qlt_bool best y then y else best) l' x)
  end.

(** [sorted]: the sort is stable.  [before a b] says that [a] has to come
    strictly before [b]: [key a < key b] for [sorted(l, key=key)], and the
    converse for [reverse=True]. *)
Fixpoint insert {A : Type} (before : A -> A -> bool) (x : A) (l : list A)
  : list A :=
  match l with
  | [] => [x]
  | y :: l' => if before y x then y :: insert before x l' else x :: l
  end.

Definition sorted {A : Type} (before : A -> A -> bool) (l : list A) : list A :=
  fold_right (insert before) [] l.

(** f-string rendering of a natural number. *)
Definition fmt (n : nat) : str := lit (NilZero.string_of_uint (Nat.to_uint n)).

End Py.

(** A dictionary from numbers to lists, in insertion order. *)
Module Dict.

Definition dict (A : Type) := list (Q * list A).

(** [if k not in d: d[k] = []] followed by [d[k].append(v)] *)
Fixpoint append {A : Type} (k : Q) (v : A) (d : dict A) : dict A :=
  match d with
  | [] => [(k, [v])]
  | (k', vs) :: d' =>
      if Qeq_bool k' k then (k', vs ++ [v]) :: d'
      else (k', vs) :: append k v d'
  end.

Definition keys {A : Type} (d : dict A) : list Q := map fst d.

(** [d[k]]; [None] stands for the [KeyError]. *)
Fixpoint item {A : Type} (k : Q) (d : dict A) : option (list A) :=
  match d with
  | [] => None
  | (k', vs) :: d' => if Qeq_bool k' k then Some vs else item k d'
  end.

(** The loop that files every element under its key. *)
Definition group {A : Type} (key : A -> Q) (l : list A) : dict A :=
  fold_left (fun d c => append (key c) c d) l [].

End Dict.

(** ** Data *)

Module Char.
Record char := { text : str; size : option Q; x0 : option Q; y0 : option Q }.
End Char.
Abbreviation char := Char.char.

Module Page.
Record page := { width : Q; chars : list char }.
End Page.
Abbreviation page := Page.page.

(** The entries of [potential_headings]. *)
Module Heading.
Record heading := { text : str; page : nat; font_size : Q }.
End Heading.
Abbreviation heading := Heading.heading.

(** The entries of the outline. *)
Module Entry.
Record entry := { level : str; text : str; page : nat }.
End Entry.
Abbreviation entry := Entry.entry.

(** What [reader.get_destination_page_number(bookmark_item)] does: it
    returns the 0-based index of the page, it returns [-1] for a page that
    is not one of the document (pypdf 3), or the call, or the addition of
    [1] to a result [None] (later versions of pypdf), raises. *)
Inductive page_number :=
| Page_index (index : nat)
| Not_found
| Lookup_raised.

(** The attribute [children] of a bookmark object: a bound method, which
    is what it is on the [Destination] objects of pypdf (they inherit
    [TreeObject.children]), or a sequence of bookmarks. *)
Inductive children_attr (A : Type) : Type :=
| Bound_method
| Sequence (items : list A).

Arguments Bound_method {A}.
Arguments Sequence {A} items.

(** What the code reads of a bookmark: a Python list of bookmarks, or an
    object with a title, possibly an attribute [page] and possibly an
    attribute [children].  The outline of pypdf is a list of
    [Destination] objects and of lists, the list after an object holding
    the bookmarks below it. *)
#[warnings="-register-all"]
Inductive bookmark :=
| Items (items : list bookmark)
| Destination (title : str) (page : option page_number)
              (children : option (children_attr bookmark)).

(** What the two PDF readers deliver for a file: [PdfReader(..).metadata]
    with its ['/Title'], [PdfReader(..).outline], and the pages of
    [pdfplumber.open(..)]; each of them may raise. *)
Record pdf := {
  metadata : outcome (option (option str));
  outline : outcome (list bookmark);
  pages : outcome (list page)
}.

(** ** Font-Size Hierarchy Mapper *)

Section Code.

(** The order in which Python iterates over [set(l)]. *)
Variable set_iter : list Q -> list Q.

(** [Page.extract_text] of pdfplumber, a function of the characters of
    the page. *)
Variable extract_text : list char -> str.

(** [sorted(set(font_size_hierarchy), reverse=True)] *)
Definition sorted_sizes (font_size_hierarchy : list Q) : list Q :=
  Py.sorted (fun a b => Qlt_bool b a) (set_iter font_size_hierarchy).

(** The three ways through [get_heading_level]. *)
Inductive level_path :=
| Single_size
| Indexed (index : nat)
| Value_error.

Definition heading_level_path (font_size : Q) (font_size_hierarchy : list Q)
  : level_path :=
  let sorted_sizes := sorted_sizes font_size_hierarchy in
  if (List.length sorted_sizes <=? 1)%nat then Single_size
  else match Py.index font_size sorted_sizes with
       | Some index => Indexed index
       | None => Value_error
       end.

Definition H (n : nat) : str := lit "H" ++ Py.fmt n.

Definition get_heading_level (font_size : Q) (font_size_hierarchy : list Q)
  : str :=
  match heading_level_path font_size font_size_hierarchy with
  | Single_size => lit "H1"
  | Indexed index => H (Nat.min (index + 1) 3)
  | Value_error => lit "H3"
  end.

(** ** Bookmark Tree Flattener *)

(** [page_num]: 1, unless the bookmark has a page and the look-up
    returns, and then the number returned plus one. *)
Definition bookmark_page (page : option page_number) : nat :=
  match page with
  | Some (Page_index index) => index + 1
  | Some Not_found => 0
  | Some Lookup_raised => 1
  | None => 1
  end.

(** [process_bookmark]; the list [outline] it appends to is passed in and
    handed back.  A bound method is true and cannot be iterated over: the
    [for] over it raises [TypeError]. *)
Fixpoint process_bookmark (bookmark_item : bookmark) (level : nat)
    (outline : list entry) : outcome (list entry) :=
  match bookmark_item with
  | Items items =>
      for_each (fun item outline => process_bookmark item level outline)
               items outline
  | Destination title page children =>
      let title := strip title in
      let outline :=
        if negb (List.length title =? 0)%nat && (2 <? List.length title)%nat
        then outline ++ [{| Entry.level := H (Nat.min level 3);
                            Entry.text := title;
                            Entry.page := bookmark_page page |}]
        else outline in
      match children with
      | Some Bound_method => Raised
      | Some (Sequence ((_ :: _) as children)) =>
          for_each (fun child outline => process_bookmark child (level + 1) outline)
                   children outline
      | Some (Sequence []) => Ok outline
      | None => Ok outline
      end
  end.

(** The [try] around the whole function turns an exception of
    [process_bookmark] into the result [[]]. *)
Definition extract_outline_from_bookmarks (d : pdf) : list entry :=
  match outline d with
  | Ok ((_ :: _) as items) =>
      match process_bookmark (Items items) 1 [] with
      | Ok outline => outline
      | Raised => []
      end
  | _ => []
  end.

(** ** Content pipeline *)

(** First pass: the sizes that are present and positive, in page and
    glyph order. *)
Definition all_font_sizes (pages : list page) : list Q :=
  flat_map
    (fun page =>
       flat_map
         (fun char =>
            let size := Py.get (Char.size char) 0 in
            if Qlt_bool 0 size then [size] else [])
         (Page.chars page))
    pages.

Definition avg_font_size (all_font_sizes : list Q) : Q :=
  Py.sum all_font_sizes / inject_Z (Z.of_nat (List.length all_font_sizes)).

(** [max(set(font_sizes), key=font_sizes.count)] *)
Definition dominant_font_size (avg_font_size : Q) (line_chars : list char)
  : option Q :=
  let font_sizes := map (fun char => Py.get (Char.size char) avg_font_size)
                        line_chars in
  Py.max_key (fun s => Py.count s font_sizes) (set_iter font_sizes).

Definition is_empty {A : Type} (l : list A) : bool :=
  match l with
  | [] => true
  | _ => false
  end.

(** The body of the loop over the lines of a page; [chars_at_y] is
    [lines[y_pos]]. *)
Definition process_line (avg_font_size : Q) (page_num : nat) (page_width : Q)
    (chars_at_y : list char) (potential_headings : list heading)
  : outcome (list heading) :=
  let line_chars :=
    Py.sorted (fun a b => Qlt_bool (Py.get (Char.x0 a) 0) (Py.get (Char.x0 b) 0))
              chars_at_y in
  let line_text := strip (join (map Char.text line_chars)) in
  if is_empty line_text then Ok potential_headings
  else
    match dominant_font_size avg_font_size line_chars with
    | None => Raised
    | Some dominant_font_size =>
        if is_potential_heading line_text dominant_font_size avg_font_size
                                page_width
        then Ok (potential_headings ++
                 [{| Heading.text := line_text;
                     Heading.page := page_num + 1;
                     Heading.font_size := dominant_font_size |}])
        else Ok potential_headings
    end.

(** The body of the second pass for one page. *)
Definition process_page (avg_font_size : Q) (page_num : nat) (page : page)
    (potential_headings : list heading) : outcome (list heading) :=
  let chars := Page.chars page in
  if is_empty chars then Ok potential_headings
  else
    let lines := Dict.group (fun char => Py.get (Char.y0 char) 0) chars in
    for_each
      (fun y_pos potential_headings =>
         match Dict.item y_pos lines with
         | None => Raised
         | Some chars_at_y =>
             process_line avg_font_size page_num (Page.width page) chars_at_y
                          potential_headings
         end)
      (Py.sorted (fun a b => Qlt_bool b a) (Dict.keys lines))
      potential_headings.

(** The second pass over [enumerate(pdf.pages)], from index [page_num]. *)
Fixpoint second_pass (avg_font_size : Q) (page_num : nat) (pages : list page)
    (potential_headings : list heading) : outcome (list heading) :=
  match pages with
  | [] => Ok potential_headings
  | page :: rest =>
      potential_headings <-
        process_page avg_font_size page_num page potential_headings ;;
      second_pass avg_font_size (S page_num) rest potential_headings
  end.

Definition text_key (h : heading) : str :=
  strip (lower (Heading.text h)).

(** [text_key not in seen_texts] *)
Definition seen (text_key : str) (seen_texts : list str) : bool :=
  existsb (str_eqb text_key) seen_texts.

(** The loop that removes the duplicates, on the state
    [(seen_texts, unique_headings)]. *)
Definition dedup_step (state : list str * list heading) (h : heading)
  : list str * list heading :=
  let (seen_texts, unique_headings) := state in
  let text_key := text_key h in
  if negb (seen text_key seen_texts) && (2 <? List.length text_key)%nat
  then (text_key :: seen_texts, unique_headings ++ [h])
  else (seen_texts, unique_headings).

Definition unique_headings (potential_headings : list heading) : list heading :=
  snd (fold_left dedup_step potential_headings ([], [])).

(** The sort key [(x["page"], -x["font_size"])] and the order of tuples. *)
Definition sort_key (x : heading) : nat * Q :=
  (Heading.page x, - Heading.font_size x).

Definition tuple_lt (a b : nat * Q) : bool :=
  if (fst a =? fst b)%nat then Qlt_bool (snd a) (snd b)
  else (fst a <? fst b)%nat.

Definition sort_headings (unique_headings : list heading) : list heading :=
  Py.sorted (fun a b => tuple_lt (sort_key a) (sort_key b)) unique_headings.

(** The last loop: one entry per heading, its level taken from the list
    of all the font sizes. *)
Definition final_outline (unique_headings : list heading) : list entry :=
  let font_size_hierarchy := map Heading.font_size unique_headings in
  map (fun h =>
         {| Entry.level :=
              get_heading_level (Heading.font_size h) font_size_hierarchy;
            Entry.text := Heading.text h;
            Entry.page := Heading.page h |})
      unique_headings.

(** [extract_outline_from_content] on the pages of an opened file. *)
Definition outline_from_pages (pages : list page) : list entry :=
  let all_font_sizes := all_font_sizes pages in
  if is_empty all_font_sizes then []
  else
    let avg_font_size := avg_font_size all_font_sizes in
    match second_pass avg_font_size 0 pages [] with
    | Raised => []
    | Ok potential_headings =>
        final_outline (sort_headings (unique_headings potential_headings))
    end.

Definition extract_outline_from_content (d : pdf) : list entry :=
  match pages d with
  | Ok pages => outline_from_pages pages
  | Raised => []
  end.

Definition extract_outline (d : pdf) : list entry :=
  match extract_outline_from_bookmarks d with
  | (_ :: _) as outline => outline
  | [] => extract_outline_from_content d
  end.

(** ** Title Resolver *)

Definition extract_title_from_metadata (d : pdf) : option str :=
  match metadata d with
  | Ok (Some field) =>
      let title := strip (match field with Some t => t | None => [] end) in
      if is_empty title then None else Some title
  | Ok None => None
  | Raised => None
  end.

(** The two loops [for line in ...: line = line.strip(); if ...: return line]. *)
Fixpoint first_title_line (lines : list str) : option str :=
  match lines with
  | [] => None
  | line :: rest =>
      let line := strip line in
      if (5 <? List.length line)%nat && (List.length line <? 150)%nat
      then Some line
      else first_title_line rest
  end.

(** The block under [if font_sizes:]; [Ok None] when it falls through. *)
Definition title_from_largest_font (chars : list char) : outcome (option str) :=
  let font_sizes := Dict.group (fun char => Py.get (Char.size char) 0) chars in
  if is_empty font_sizes then Ok None
  else
    match Py.max (Dict.keys font_sizes) with
    | None => Raised
    | Some largest_font =>
        match Dict.item largest_font font_sizes with
        | None => Raised
        | Some title_chars =>
            let title_text := strip (join (map Char.text title_chars)) in
            Ok (first_title_line (split_lines title_text))
        end
    end.

Definition title_from_text (first_page : page) : option str :=
  let text := extract_text (Page.chars first_page) in
  if is_empty text then None else first_title_line (split_lines text).

Definition extract_title_from_content (d : pdf) : option str :=
  match pages d with
  | Ok (first_page :: _) =>
      let chars := Page.chars first_page in
      if is_empty chars then None
      else
        match title_from_largest_font chars with
        | Raised => None
        | Ok (Some line) => Some line
        | Ok None => title_from_text first_page
        end
  | Ok [] => None
  | Raised => None
  end.

Definition truthy (title : option str) : bool :=
  match title with
  | Some (_ :: _) => true
  | _ => false
  end.

Definition extract_title (d : pdf) : str :=
  let title := extract_title_from_metadata d in
  if truthy title then match title with Some t => t | None => [] end
  else
    let title := extract_title_from_content d in
    if truthy title then match title with Some t => t | None => [] end
    else lit "Untitled Document".

End Code.

(** ** The iteration order of a CPython set of numbers

    [set(l)] inserts the elements of [l] one after the other into an open
    addressing hash table (CPython 3, [Objects/setobject.c]) and iterating
    over the set walks the table from its first slot.  The hash of a
    number is the one the language reference gives for rationals. *)

Module CPython.

Local Open Scope Z_scope.

Definition modulus : Z := 2 ^ 61 - 1.

Definition hash_inf : Z := 314159.

Fixpoint pow_mod (b : Z) (e : positive) (m : Z) : Z :=
  match e with
  | xH => b mod m
  | xO e' => let r := pow_mod b e' m in (r * r) mod m
  | xI e' => let r := pow_mod b e' m in ((r * r) mod m * b) mod m
  end.

(** [hash(x)] for a number [x]. *)
Definition hash (x : Q) : Z :=
  let r := Qred x in
  let m := Qnum r in
  let n := Zpos (Qden r) in
  let hash_value :=
    if (n mod modulus =? 0)%Z then hash_inf
    else ((Z.abs m mod modulus) * pow_mod n (Z.to_pos (modulus - 2)) modulus)
           mod modulus in
  let hash_value := if (m <? 0)%Z then (- hash_value)%Z else hash_value in
  if (hash_value =? -1)%Z then (-2)%Z else hash_value.

(** A table of slots, each one unused or holding a hash and its key;
    every slot that was filled stays filled, so [fill] is [used]. *)
Record set := { table : list (option (Z * Q)); fill : Z }.

Definition mask (table : list (option (Z * Q))) : Z :=
  Z.of_nat (List.length table) - 1.

Definition slot (table : list (option (Z * Q))) (i : Z) : option (Z * Q) :=
  nth (Z.to_nat i) table None.

Definition store (table : list (option (Z * Q))) (i : Z) (e : Z * Q)
  : list (option (Z * Q)) :=
  firstn (Z.to_nat i) table ++ [Some e] ++ skipn (S (Z.to_nat i)) table.

Inductive found :=
| Found_unused (i : Z)
| Found_active.

(** The inner loop: the slots [i], [i+1], ..., [i+probes]. *)
Fixpoint linear_probes (table : list (option (Z * Q))) (hash : Z) (key : Q)
    (i : Z) (probes : nat) : option found :=
  match slot table i with
  | None => Some (Found_unused i)
  | Some (h, k) =>
      if (h =? hash)%Z && Qeq_bool k key then Some Found_active
      else match probes with
           | O => None
           | S probes' => linear_probes table hash key (i + 1) probes'
           end
  end.

(** The outer loop of [set_add_entry], bounded by [fuel] rounds. *)
Fixpoint look (fuel : nat) (table : list (option (Z * Q))) (hash : Z) (key : Q)
    (i perturb : Z) : option found :=
  match fuel with
  | O => None
  | S fuel' =>
      let probes := if (i + 9 <=? mask table)%Z then 9%nat else 0%nat in
      match linear_probes table hash key i probes with
      | Some r => Some r
      | None =>
          let perturb := Z.shiftr perturb 5 in
          look fuel' table hash key (Z.land (i * 5 + 1 + perturb) (mask table))
               perturb
      end
  end.

Definition rounds (table : list (option (Z * Q))) : nat :=
  (List.length table + 16)%nat.

Definition find_slot (table : list (option (Z * Q))) (hash : Z) (key : Q)
  : option found :=
  look (rounds table) table hash key (Z.land hash (mask table))
       (hash mod 2 ^ 64)%Z.

(** [set_insert_clean] *)
Definition insert_clean (table : list (option (Z * Q))) (e : Z * Q)
  : list (option (Z * Q)) :=
  match find_slot table (fst e) (snd e) with
  | Some (Found_unused i) => store table i e
  | _ => table
  end.

Fixpoint new_size (fuel : nat) (newsize minused : Z) : Z :=
  match fuel with
  | O => newsize
  | S fuel' =>
      if (newsize <=? minused)%Z then new_size fuel' (2 * newsize) minused
      else newsize
  end.

(** [set_table_resize] *)
Definition table_resize (s : set) (minused : Z) : set :=
  let newsize := new_size 64 8 minused in
  let entries :=
    flat_map (fun e => match e with Some e => [e] | None => [] end) (table s) in
  {| table := fold_left insert_clean entries (repeat None (Z.to_nat newsize));
     fill := fill s |}.

(** [set_add_entry] *)
Definition add_entry (s : set) (key : Q) : set :=
  let hash := hash key in
  match find_slot (table s) hash key with
  | Some (Found_unused i) =>
      let s' := {| table := store (table s) i (hash, key);
                   fill := fill s + 1 |} in
      if (fill s' * 5 <? mask (table s') * 3)%Z then s'
      else table_resize s' (if (50000 <? fill s')%Z then fill s' * 2
                            else fill s' * 4)
  | _ => s
  end.

Definition empty : set := {| table := repeat None 8; fill := 0 |}.

(** [list(set(l))] *)
Definition set_iter (l : list Q) : list Q :=
  flat_map (fun e => match e with Some (_, k) => [k] | None => [] end)
           (table (fold_left add_entry l empty)).

End CPython.

(** ** Definitions of the specification *)

(** *** Rounding to a float

    [x] lies in the binade of exponent [e] when its significand of 53
    bits counts units of [2^e]. *)
Definition in_binade (x : Q) (e : Z) : Prop :=
  2 ^ 52 * 2 ^ e <= x /\ x < 2 ^ 53 * 2 ^ e.

(** [m] is an integer next to [r], and even when [r] is half way between
    two integers. *)
Definition nearest_integer_even (r : Q) (m : Z) : Prop :=
  inject_Z m - (1 # 2) <= r /\ r <= inject_Z m + (1 # 2) /\
  (r == inject_Z m - (1 # 2) \/ r == inject_Z m + (1 # 2) -> Z.even m = true).

Definition rounds_pos_to (x p : Q) : Prop :=
  exists e m,
    in_binade x e /\ nearest_integer_even (x / 2 ^ e) m /\
    p == inject_Z m * 2 ^ e.

(** [p] is the float that [x] rounds to (round to nearest, ties to even,
    53 bits). *)
Definition rounds_to (x p : Q) : Prop :=
  (x == 0 /\ p == 0) \/
  (0 < x /\ rounds_pos_to x p) \/
  (x < 0 /\ exists p', rounds_pos_to (- x) p' /\ p == - p').

(** *** Characters

    The classes of the classifier by their code points. *)
Definition White_space (c : ascii) : Prop :=
  In (code c) [9; 10; 11; 12; 13; 28; 29; 30; 31; 32; 133; 160]%nat.

Definition Decimal_digit (c : ascii) : Prop := (48 <= code c <= 57)%nat.

Definition Capital (c : ascii) : Prop := (65 <= code c <= 90)%nat.

Definition Small (c : ascii) : Prop := (97 <= code c <= 122)%nat.

Definition Word_character (c : ascii) : Prop :=
  Decimal_digit c \/ Capital c \/ Small c \/ code c = 95%nat \/
  In (code c) [170; 178; 179; 181; 185; 186; 188; 189; 190]%nat \/
  ((192 <= code c <= 255)%nat /\ code c <> 215%nat /\ code c <> 247%nat).

(** [t] is [text] without the white space at its two ends. *)
Definition Trimmed_of (text t : str) : Prop :=
  exists before after,
    text = before ++ t ++ after /\
    Forall White_space before /\ Forall White_space after /\
    (forall c t', t = c :: t' -> ~ White_space c) /\
    (forall c t', t = t' ++ [c] -> ~ White_space c).

(** *** The four lexical patterns

    Digits, possibly a dot, then white space. *)
Definition Numbered_section (t : str) : Prop :=
  exists digits dot spaces rest,
    t = digits ++ dot ++ spaces ++ rest /\
    digits <> [] /\ Forall Decimal_digit digits /\
    (dot = [] \/ dot = ["."%char]) /\
    spaces <> [] /\ Forall White_space spaces.

(** A capital, small letters if any, white space, a capital. *)
Definition Title_case_start (t : str) : Prop :=
  exists a small spaces b rest,
    t = a :: small ++ spaces ++ b :: rest /\
    Capital a /\ Forall Small small /\
    spaces <> [] /\ Forall White_space spaces /\ Capital b.

(** The whole text is made of capitals and white space. *)
Definition All_capitals (t : str) : Prop :=
  t <> [] /\ Forall (fun c => Capital c \/ White_space c) t.

(** Word characters, a dot, digits. *)
Definition Dotted_section (t : str) : Prop :=
  exists word digits rest,
    t = word ++ "."%char :: digits ++ rest /\
    word <> [] /\ Forall Word_character word /\
    digits <> [] /\ Forall Decimal_digit digits.

(** [s > a * 1.1] on floats: the literal is the float next to 11/10, the
    product is rounded, the comparison is exact. *)
Definition Larger_than_average (s a : Q) : Prop :=
  exists c p, rounds_to (11 # 10) c /\ rounds_to (a * c) p /\ p < s.

(** *** The order of a set *)

(** What is known of the iteration order of [set(l)]: it lists elements
    of [l], every element of [l] is equal to a listed one, and no two of
    the listed ones are equal. *)
Definition set_order (set_iter : list Q -> list Q) : Prop :=
  forall l,
    (forall x, In x (set_iter l) -> In x l) /\
    (forall x, In x l -> InA Qeq x (set_iter l)) /\
    NoDupA Qeq (set_iter l).

(** The distinct elements in the order in which they are first seen. *)
Fixpoint first_seen (l : list Q) : list Q :=
  match l with
  | [] => []
  | x :: l' => x :: filter (fun y => negb (Qeq_bool y x)) (first_seen l')
  end.

(** *** Bookmark Tree Flattener *)

(** The visited nodes of a bookmark in pre-order, each with its depth;
    the members of a list are at the depth of the list, the children of a
    node one deeper than the node. *)
Fixpoint preorder (depth : nat) (b : bookmark) : list (nat * bookmark) :=
  match b with
  | Items items => flat_map (preorder depth) items
  | Destination _ _ children =>
      (depth, b) ::
      match children with
      | Some (Sequence children) => flat_map (preorder (depth + 1)) children
      | _ => []
      end
  end.

(** The page of a node: the resolved destination, counted from one, or
    one when there is none. *)
Definition resolved_page (page : option page_number) : nat :=
  match page with
  | Some (Page_index index) => S index
  | _ => 1
  end.

(** The entry of a visited node, if its trimmed title has more than two
    characters. *)
Definition node_entry (visit : nat * bookmark) : list entry :=
  match snd visit with
  | Destination title page _ =>
      if (2 <? List.length (strip title))%nat
      then [{| Entry.level := lit "H" ++ Py.fmt (Nat.min (fst visit) 3);
               Entry.text := strip title;
               Entry.page := resolved_page page |}]
      else []
  | Items _ => []
  end.

(** The entry that the code makes of a visited node. *)
Definition visited_entry (visit : nat * bookmark) : list entry :=
  match snd visit with
  | Destination title page _ =>
      if (2 <? List.length (strip title))%nat
      then [{| Entry.level := lit "H" ++ Py.fmt (Nat.min (fst visit) 3);
               Entry.text := strip title;
               Entry.page := bookmark_page page |}]
      else []
  | Items _ => []
  end.

(** Some [children] in the bookmark is a method. *)
Fixpoint iterates_method (b : bookmark) : bool :=
  match b with
  | Items items => existsb iterates_method items
  | Destination _ _ children =>
      match children with
      | Some Bound_method => true
      | Some (Sequence items) => existsb iterates_method items
      | None => false
      end
  end.

(** Some page of the bookmark is not one of the document. *)
Fixpoint misses_page (b : bookmark) : bool :=
  match b with
  | Items items => existsb misses_page items
  | Destination _ page children =>
      match page with
      | Some Not_found => true
      | _ => false
      end ||
      match children with
      | Some (Sequence items) => existsb misses_page items
      | _ => false
      end
  end.

(** The bookmarks that pypdf delivers: lists, and [Destination] objects,
    which have a page and the method [children]. *)
Fixpoint from_pypdf (b : bookmark) : bool :=
  match b with
  | Items items => forallb from_pypdf items
  | Destination _ page children =>
      match page, children with
      | Some _, Some Bound_method => true
      | _, _ => false
      end
  end.

(** The outline of the document, if reading it does not fail, is one of
    pypdf. *)
Definition read_by_pypdf (d : pdf) : bool :=
  match outline d with
  | Ok forest => forallb from_pypdf forest
  | Raised => true
  end.

Definition flatten_forest (forest : list bookmark) : list entry :=
  flat_map node_entry (flat_map (preorder 1) forest).

(** *** Font-Size Hierarchy Mapper *)

(** [ds] lists the distinct sizes of [l] in descending order. *)
Definition distinct_descending (l ds : list Q) : Prop :=
  StronglySorted (fun a b => b < a) ds /\
  (forall x, InA Qeq x ds <-> InA Qeq x l).

(** [x] is at the 0-based index [i] of [ds]. *)
Definition at_index (ds : list Q) (i : nat) (x : Q) : Prop :=
  exists y, nth_error ds i = Some y /\ y == x.

(** The number of the level that [get_heading_level] returns. *)
Definition level_number (set_iter : list Q -> list Q) (font_size : Q)
    (font_size_hierarchy : list Q) : nat :=
  match heading_level_path set_iter font_size font_size_hierarchy with
  | Single_size => 1
  | Indexed index => Nat.min (index + 1) 3
  | Value_error => 3
  end.

(** *** Deduplication and order *)

(** [l1] is [l2] with some elements left out. *)
Inductive subseq {A : Type} : list A -> list A -> Prop :=
| subseq_nil : subseq [] []
| subseq_keep x l1 l2 : subseq l1 l2 -> subseq (x :: l1) (x :: l2)
| subseq_drop x l1 l2 : subseq l1 l2 -> subseq l1 (x :: l2).

(** [h] occurs in [l] with no earlier heading of the same key. *)
Definition first_occurrence (h : heading) (l : list heading) : Prop :=
  exists before after,
    l = before ++ h :: after /\
    forall h', In h' before -> text_key h' <> text_key h.

(** The headings that the loop keeps, by recursion on the list: a heading
    is kept when its key has more than two characters and was not seen. *)
Fixpoint kept (seen_texts : list str) (l : list heading) : list heading :=
  match l with
  | [] => []
  | h :: l' =>
      if negb (seen (text_key h) seen_texts) &&
         (2 <? List.length (text_key h))%nat
      then h :: kept (text_key h :: seen_texts) l'
      else kept seen_texts l'
  end.

(** Page ascending and, on one page, font size descending. *)
Definition outline_order (a b : heading) : Prop :=
  (Heading.page a < Heading.page b)%nat \/
  (Heading.page a = Heading.page b /\
   Heading.font_size b <= Heading.font_size a).

(** *** Average and dominant font size *)

(** A glyph with the given text and size and no coordinates, for the
    examples. *)
Definition sized (t : string) (s : Q) : char :=
  {| Char.text := lit t; Char.size := Some s; Char.x0 := None;
     Char.y0 := None |}.

(** One glyph of size [s] per character of [t]. *)
Definition glyphs (t : string) (s : Q) : list char :=
  map (fun c => {| Char.text := [c]; Char.size := Some s; Char.x0 := None;
                   Char.y0 := None |})
      (lit t).

(** The glyphs of a line of text of size [s] on the baseline [y], one
    per character, the [i]-th at [x0 = i]. *)
Definition typeset (t : string) (s y : Q) : list char :=
  map (fun ic => {| Char.text := [snd ic]; Char.size := Some s;
                    Char.x0 := Some (inject_Z (Z.of_nat (fst ic)));
                    Char.y0 := Some y |})
      (combine (seq 0 (List.length (lit t))) (lit t)).

(** The text of a page as the characters of its glyphs, for the
    examples. *)
Definition plain_text (chars : list char) : str := join (map Char.text chars).

(** A glyph without a size at the position [(x, y)]. *)
Definition sizeless (t : string) (x y : Q) : char :=
  {| Char.text := lit t; Char.size := None; Char.x0 := Some x;
     Char.y0 := Some y |}.

(** The sizes of the glyphs that have one. *)
Definition glyph_sizes (pages : list page) : list Q :=
  flat_map
    (fun c => match Char.size c with Some s => [s] | None => [] end)
    (flat_map Page.chars pages).

(** The sizes of the glyphs whose size is present and positive. *)
Definition positive_sizes (pages : list page) : list Q :=
  filter (fun s => Qlt_bool 0 s) (glyph_sizes pages).

Fixpoint total (l : list Q) : Q :=
  match l with
  | [] => 0
  | x :: l' => x + total l'
  end.

(** [m] is the arithmetic mean of the non-empty list [l]. *)
Definition mean_of (l : list Q) (m : Q) : Prop :=
  l <> [] /\ m * inject_Z (Z.of_nat (List.length l)) == total l.

(** [x] occurs most often in [l] and is the first of [l] to do so. *)
Definition most_frequent_first_seen (l : list Q) (x : Q) : Prop :=
  exists before after,
    l = before ++ x :: after /\
    (forall y, In y l -> (Py.count y l <= Py.count x l)%nat) /\
    (forall y, In y before -> (Py.count y l < Py.count x l)%nat).

(** [x] occurs most often in [l] and is the first of [order] to do so. *)
Definition most_frequent_in_order (order l : list Q) (x : Q) : Prop :=
  exists before after,
    order = before ++ x :: after /\
    In x l /\
    (forall y, In y l -> (Py.count y l <= Py.count x l)%nat) /\
    (forall y, In y before -> (Py.count y l < Py.count x l)%nat).

(** *** Title Resolver *)

(** The lines put together again, with [sep] between one and the next. *)
Fixpoint joined_by (sep : ascii) (lines : list str) : str :=
  match lines with
  | [] => []
  | [line] => line
  | line :: rest => line ++ sep :: joined_by sep rest
  end.

(** [lines] are the lines of [text]: the pieces between its line feeds,
    of which there is one more than there are line feeds. *)
Definition Lines_of (text : str) (lines : list str) : Prop :=
  lines <> [] /\
  Forall (fun line => ~ In newline line) lines /\
  text = joined_by newline lines.

Definition trimmed_length_ok (line : str) : bool :=
  (6 <=? List.length (strip line))%nat && (List.length (strip line) <=? 149)%nat.

(** The first line whose trimmed length is in [6,149], trimmed. *)
Definition first_line_ok (lines : list str) : option str :=
  option_map strip (find trimmed_length_ok lines).

(** Step 1: the title of the metadata, trimmed, if it is not empty. *)
Definition title_step_metadata (d : pdf) : option str :=
  match metadata d with
  | Ok (Some (Some t)) => if is_empty (strip t) then None else Some (strip t)
  | _ => None
  end.

Definition size_or_zero (c : char) : Q :=
  match Char.size c with
  | Some s => s
  | None => 0
  end.

(** Step 2: on the first page, the glyphs of the largest size, their
    characters joined and split into lines. *)
Definition title_step_largest_font (d : pdf) : option str :=
  match pages d with
  | Ok (first_page :: _) =>
      let chars := Page.chars first_page in
      match chars with
      | [] => None
      | c :: _ =>
          let largest := fold_right Qmax (size_or_zero c) (map size_or_zero chars) in
          let group := filter (fun c => Qeq_bool (size_or_zero c) largest) chars in
          first_line_ok (split_lines (strip (join (map Char.text group))))
      end
  | _ => None
  end.

(** Step 3: the text of the first page, split into lines. *)
Definition title_step_text (extract_text : list char -> str) (d : pdf)
  : option str :=
  match pages d with
  | Ok (first_page :: _) =>
      first_line_ok (split_lines (extract_text (Page.chars first_page)))
  | _ => None
  end.

(** The first success of a chain of steps. *)
Fixpoint first_success {A : Type} (steps : list (option A)) (fallback : A) : A :=
  match steps with
  | [] => fallback
  | Some a :: _ => a
  | None :: rest => first_success rest fallback
  end.

Definition title_chain (extract_text : list char -> str) (d : pdf) : str :=
  first_success
    [title_step_metadata d; title_step_largest_font d;
     title_step_text extract_text d]
    (lit "Untitled Document").

(** ** The record of a document *)

Module Result.
Record result := { title : str; outline : list entry }.
End Result.
Abbreviation result := Result.result.

(** [process_single_pdf]: the two extractions under one [try]; the
    handler returns the minimal record. *)
Definition process_single_pdf (set_iter : list Q -> list Q)
    (extract_text : list char -> str) (d : pdf) : result :=
  match (title <- Ok (extract_title extract_text d) ;;
         outline <- Ok (extract_outline set_iter d) ;;
         Ok {| Result.title := title; Result.outline := outline |}) with
  | Ok r => r
  | Raised => {| Result.title := lit "Document"; Result.outline := [] |}
  end.

(** ** Further definitions of properties *)

(** The glyphs of the page on the baseline [y_pos], from left to right. *)
Definition line_chars_at (p : page) (y_pos : Q) : list char :=
  Py.sorted (fun a b => Qlt_bool (Py.get (Char.x0 a) 0) (Py.get (Char.x0 b) 0))
    (filter (fun c => Qeq_bool (Py.get (Char.y0 c) 0) y_pos) (Page.chars p)).

(** The characters that have a small letter: A to Z and the capitals
    of U+00C0 to U+00DE. *)
Definition Cased_capital (c : ascii) : Prop :=
  (65 <= code c <= 90)%nat \/
  ((192 <= code c <= 222)%nat /\ code c <> 215%nat).

(** [low] is [text] in lower case: a small letter in the place of every
    capital, 32 code points further, and the other characters as they
    are. *)
Definition Lower_case_of (text low : str) : Prop :=
  Forall2 (fun c d => (Cased_capital c /\ code d = (code c + 32)%nat) \/
                      (~ Cased_capital c /\ d = c))
          text low.

(** The key of a text under which duplicates are found: the text in
    lower case, trimmed. *)
Definition Key_of (text key : str) : Prop :=
  exists low, Lower_case_of text low /\ Trimmed_of low key.

(** [ys] are the baselines of the glyphs of the page from the top of the
    page to its bottom ([y0] is the distance from the bottom). *)
Definition top_to_bottom (p : page) (ys : list Q) : Prop :=
  StronglySorted (fun upper lower => lower < upper) ys /\
  forall y,
    InA Qeq y ys <->
    exists c, In c (Page.chars p) /\ Py.get (Char.y0 c) 0 == y.

(** The candidate of the line of page [p] on the baseline [y]: the
    trimmed text of the glyphs from left to right with the dominant size,
    if the text is not empty and the classifier accepts it; [page_num] is
    the index of the page. *)
Definition line_heading (set_iter : list Q -> list Q) (avg : Q)
    (page_num : nat) (p : page) (y : Q) : list heading :=
  let text := strip (join (map Char.text (line_chars_at p y))) in
  match text, dominant_font_size set_iter avg (line_chars_at p y) with
  | _ :: _, Some d =>
      if is_potential_heading text d avg (Page.width p)
      then [{| Heading.text := text; Heading.page := page_num + 1;
               Heading.font_size := d |}]
      else []
  | _, _ => []
  end.

(** The candidates of the pages, page after page, and on a page line
    after line in the order of [lines]. *)
Fixpoint in_document_order (set_iter : list Q -> list Q) (avg : Q)
    (page_num : nat) (pages : list page) (lines : list (list Q))
  : list heading :=
  match pages, lines with
  | p :: pages', ys :: lines' =>
      flat_map (line_heading set_iter avg page_num p) ys ++
      in_document_order set_iter avg (S page_num) pages' lines'
  | _, _ => []
  end.

(** [h] is the heading that the second pass makes of the line of page
    [p] on some baseline, [number] being the number of the page. *)
Definition heading_of_line (set_iter : list Q -> list Q) (avg : Q)
    (p : page) (number : nat) (h : heading) : Prop :=
  exists y_pos,
    Heading.page h = number /\
    line_chars_at p y_pos <> [] /\
    Heading.text h = strip (join (map Char.text (line_chars_at p y_pos))) /\
    dominant_font_size set_iter avg (line_chars_at p y_pos) =
      Some (Heading.font_size h) /\
    is_potential_heading (Heading.text h) (Heading.font_size h) avg
                         (Page.width p) = true.

(** [h] is the heading of a line of a page: the page is the [n]-th one,
    counted from one; the text is the trimmed text of the glyphs of one
    baseline; the size is the dominant one of these glyphs; and the
    classifier accepts the line. *)
Definition line_candidate (set_iter : list Q -> list Q) (avg : Q)
    (pages : list page) (h : heading) : Prop :=
  exists n p y_pos,
    nth_error pages n = Some p /\
    Heading.page h = S n /\
    line_chars_at p y_pos <> [] /\
    Heading.text h = strip (join (map Char.text (line_chars_at p y_pos))) /\
    dominant_font_size set_iter avg (line_chars_at p y_pos) =
      Some (Heading.font_size h) /\
    is_potential_heading (Heading.text h) (Heading.font_size h) avg
                         (Page.width p) = true.

(** An entry as the output format wants it. *)
Definition well_formed_entry (e : entry) : Prop :=
  In (Entry.level e) [lit "H1"; lit "H2"; lit "H3"] /\
  (1 <= Entry.page e)%nat /\
  (2 < List.length (Entry.text e))%nat /\
  strip (Entry.text e) = Entry.text e.

(** What holds of an entry whatever its page number: a level among the
    three and a trimmed text of at least three characters. *)
Definition labelled_entry (e : entry) : Prop :=
  In (Entry.level e) [lit "H1"; lit "H2"; lit "H3"] /\
  (2 < List.length (Entry.text e))%nat /\
  strip (Entry.text e) = Entry.text e.

(** The headings of page [p] with a font size equal to [s]. *)
Definition same_page_and_size (p : nat) (s : Q) (h : heading) : bool :=
  (Heading.page h =? p)%nat && Qeq_bool (Heading.font_size h) s.

(** One of the four patterns matches the text. *)
Definition matches_a_pattern (t : str) : Prop :=
  Re.Matches pat_numbered t \/ Re.Matches pat_title_case t \/
  Re.Matches pat_all_caps t \/ Re.Matches pat_dotted t.

(** * Proofs *)

(** ** Regular expressions *)

Lemma at_end_spec (s : str) :
  Re.at_end s = true <-> s = [] \/ s = [newline].
Proof.
  destruct s as [|c [|d s]]; simpl.
  - intuition.
  - rewrite Ascii.eqb_eq. split.
    + intros ->. now right.
    + intros [H|H]; [discriminate | now inversion H].
  - split; [discriminate | intros [H|H]; discriminate].
Qed.

Lemma step_spec (p : ascii -> bool) (k : str -> bool) (s : str) :
  Re.step p k s = true <->
  exists c rest, s = c :: rest /\ p c = true /\ k rest = true.
Proof.
  destruct s as [|c s]; simpl.
  - split; [discriminate | intros (c & rest & H & _); discriminate].
  - rewrite andb_true_iff. split.
    + intros [Hp Hk]. now exists c, s.
    + intros (c' & rest & H & Hp & Hk). inversion H; subst. now split.
Qed.

Lemma star_spec (p : ascii -> bool) (k : str -> bool) (s : str) :
  Re.star p k s = true <->
  exists w rest, s = w ++ rest /\ forallb p w = true /\ k rest = true.
Proof.
  induction s as [|c s IH]; simpl.
  - split.
    + intros Hk. now exists [], [].
    + intros (w & rest & H & _ & Hk).
      symmetry in H. apply app_eq_nil in H as [-> ->]. exact Hk.
  - rewrite orb_true_iff, andb_true_iff, IH. split.
    + intros [[Hp (w & rest & -> & Hw & Hk)] | Hk].
      * exists (c :: w), rest. simpl. now rewrite Hp, Hw.
      * now exists [], (c :: s).
    + intros ([|d w] & rest & H & Hw & Hk); simpl in *.
      * right. now subst rest.
      * inversion H; subst. apply andb_true_iff in Hw as [Hp Hw].
        left. split; [exact Hp|]. now exists w, rest.
Qed.

Lemma run_spec (ps : list Re.piece) (k : str -> bool) :
  forall s,
    Re.run ps k s = true <->
    exists words rest,
      Forall2 Re.piece_lang ps words /\ s = concat words ++ rest /\
      k rest = true.
Proof.
  induction ps as [|piece ps IH]; intros s.
  - simpl. split.
    + intros Hk. exists [], s. repeat split; [constructor | exact Hk].
    + intros (words & rest & HF & -> & Hk). inversion HF; subst. exact Hk.
  - destruct piece as [p|p|p|p]; simpl.
    + rewrite step_spec. split.
      * intros (c & r & -> & Hp & Hr). apply IH in Hr as (ws & rest & HF & -> & Hk).
        exists ([c] :: ws), rest. repeat split; auto.
        constructor; [now constructor | exact HF].
      * intros (words & rest & HF & -> & Hk). inversion HF as [|? w ? ws Hw HF']; subst.
        inversion Hw; subst. simpl. exists c, (concat ws ++ rest).
        repeat split; auto. apply IH. now exists ws, rest.
    + rewrite orb_true_iff, step_spec. split.
      * intros [(c & r & -> & Hp & Hr) | Hr];
          apply IH in Hr as (ws & rest & HF & Hs & Hk).
        -- subst r. exists ([c] :: ws), rest. repeat split; auto.
           constructor; [now constructor | exact HF].
        -- subst s. exists ([] :: ws), rest. repeat split; auto.
           constructor; [constructor | exact HF].
      * intros (words & rest & HF & -> & Hk). inversion HF as [|? w ? ws Hw HF']; subst.
        inversion Hw; subst; simpl.
        -- right. apply IH. now exists ws, rest.
        -- left. exists c, (concat ws ++ rest). repeat split; auto.
           apply IH. now exists ws, rest.
    + rewrite step_spec. split.
      * intros (c & r & -> & Hp & Hr).
        apply star_spec in Hr as (w & r' & -> & Hw & Hr).
        apply IH in Hr as (ws & rest & HF & -> & Hk).
        exists ((c :: w) :: ws), rest. repeat split; auto.
        -- constructor; [now constructor | exact HF].
        -- simpl. now rewrite <- app_assoc.
      * intros (words & rest & HF & -> & Hk). inversion HF as [|? w ? ws Hw HF']; subst.
        inversion Hw as [| | |? c w' Hp Hw'|]; subst. simpl.
        exists c, (w' ++ concat ws ++ rest). repeat split; auto.
        -- now rewrite <- app_assoc.
        -- apply star_spec. exists w', (concat ws ++ rest). repeat split; auto.
           apply IH. now exists ws, rest.
    + rewrite star_spec. split.
      * intros (w & r & -> & Hw & Hr).
        apply IH in Hr as (ws & rest & HF & -> & Hk).
        exists (w :: ws), rest. repeat split; auto.
        -- constructor; [now constructor | exact HF].
        -- simpl. now rewrite <- app_assoc.
      * intros (words & rest & HF & -> & Hk). inversion HF as [|? w ? ws Hw HF']; subst.
        inversion Hw; subst. simpl.
        exists w, (concat ws ++ rest). repeat split; auto.
        -- now rewrite <- app_assoc.
        -- apply IH. now exists ws, rest.
Qed.

Lemma re_match_spec (r : Re.regex) (s : str) :
  Re.re_match r s = true <-> Re.Matches r s.
Proof.
  unfold Re.re_match, Re.Matches. rewrite run_spec.
  split; intros (words & rest & HF & Hs & Hk); exists words, rest;
    repeat split; auto.
  - intros Hd. rewrite Hd in Hk. now apply at_end_spec.
  - destruct (Re.dollar r); [|reflexivity]. apply at_end_spec. now apply Hk.
Qed.

(** ** Trimming *)

Lemma lstrip_spec (s : str) :
  exists pre,
    s = pre ++ lstrip s /\ forallb is_space pre = true /\
    match lstrip s with
    | c :: _ => is_space c = false
    | [] => True
    end.
Proof.
  induction s as [|c s (pre & Hs & Hpre & Hhead)]; simpl.
  - now exists [].
  - destruct (is_space c) eqn:E.
    + exists (c :: pre). simpl. rewrite E, Hpre. repeat split; auto.
      now rewrite <- Hs.
    + exists []. now repeat split.
Qed.

Lemma forallb_rev {A : Type} (f : A -> bool) (l : list A) :
  forallb f (rev l) = forallb f l.
Proof.
  induction l as [|x l IH]; simpl; [reflexivity|].
  rewrite forallb_app, IH. simpl. rewrite andb_true_r. apply andb_comm.
Qed.

(** [strip] removes white space at both ends and nothing else. *)
Lemma strip_spec (s : str) :
  exists pre post,
    s = pre ++ strip s ++ post /\
    forallb is_space pre = true /\ forallb is_space post = true /\
    match strip s with
    | c :: _ => is_space c = false
    | [] => True
    end /\
    match rev (strip s) with
    | c :: _ => is_space c = false
    | [] => True
    end.
Proof.
  unfold strip, rstrip.
  destruct (lstrip_spec s) as (pre & Hs & Hpre & Hhead).
  destruct (lstrip_spec (rev (lstrip s))) as (post & Hr & Hpost & Hlast).
  exists pre, (rev post).
  assert (Hl : lstrip s = rev (lstrip (rev (lstrip s))) ++ rev post).
  { rewrite <- rev_app_distr, <- Hr. now rewrite rev_involutive. }
  split; [now rewrite <- Hl|]. split; [exact Hpre|].
  split; [now rewrite forallb_rev|]. split.
  - destruct (lstrip (rev (lstrip s))) as [|c r] eqn:E; [exact I|].
    destruct (rev (c :: r)) as [|c' r'] eqn:E'; [exact I|].
    rewrite Hl in Hhead. simpl in Hhead. exact Hhead.
  - now rewrite rev_involutive.
Qed.

Lemma endswith_spec (c : ascii) (s : str) :
  endswith c s = true <-> exists s', s = s' ++ [c].
Proof.
  unfold endswith. destruct (rev s) as [|d t] eqn:E.
  - apply (f_equal (@rev ascii)) in E. rewrite rev_involutive in E. simpl in E.
    subst s. split; [discriminate|]. intros (s' & H). now destruct s'.
  - apply (f_equal (@rev ascii)) in E. rewrite rev_involutive in E. simpl in E.
    subst s. rewrite Ascii.eqb_eq. split.
    + intros ->. now exists (rev t).
    + intros (s' & H). apply app_inj_tail in H. now destruct H.
Qed.

Lemma lstrip_fixed (s : str) :
  match s with
  | c :: _ => is_space c = false
  | [] => True
  end ->
  lstrip s = s.
Proof. destruct s as [|c s]; simpl; [reflexivity|]. now intros ->. Qed.

Lemma rstrip_fixed (s : str) :
  match rev s with
  | c :: _ => is_space c = false
  | [] => True
  end ->
  rstrip s = s.
Proof.
  intros H. unfold rstrip. rewrite (lstrip_fixed _ H). apply rev_involutive.
Qed.

Lemma strip_idem (s : str) : strip (strip s) = strip s.
Proof.
  destruct (strip_spec s) as (pre & post & _ & _ & _ & Hhead & Hlast).
  unfold strip at 1. rewrite (lstrip_fixed _ Hhead). now apply rstrip_fixed.
Qed.

Lemma lstrip_spaces (pre s : str) :
  forallb is_space pre = true -> lstrip (pre ++ s) = lstrip s.
Proof.
  induction pre as [|c pre IH]; simpl; [reflexivity|].
  intros H. apply andb_true_iff in H as [Hc Hpre]. rewrite Hc. now apply IH.
Qed.

Lemma rstrip_spaces (s post : str) :
  forallb is_space post = true -> rstrip (s ++ post) = rstrip s.
Proof.
  intros H. unfold rstrip. rewrite rev_app_distr, lstrip_spaces; [reflexivity|].
  now rewrite forallb_rev.
Qed.

Lemma lstrip_app (s u : str) :
  lstrip s <> [] -> lstrip (s ++ u) = lstrip s ++ u.
Proof.
  induction s as [|c s IH]; simpl; [congruence|].
  destruct (is_space c); [exact IH | reflexivity].
Qed.

Lemma lstrip_nil (s : str) : lstrip s = [] -> forallb is_space s = true.
Proof.
  induction s as [|c s IH]; simpl; [reflexivity|].
  destruct (is_space c); [exact IH | discriminate].
Qed.

Lemma strip_spaces (s : str) : forallb is_space s = true -> strip s = [].
Proof.
  intros H. unfold strip. rewrite <- (app_nil_r s), lstrip_spaces by exact H.
  reflexivity.
Qed.

Lemma strip_padding (pre s post : str) :
  forallb is_space pre = true -> forallb is_space post = true ->
  strip (pre ++ s ++ post) = strip s.
Proof.
  intros Hpre Hpost. unfold strip. rewrite lstrip_spaces by exact Hpre.
  destruct (lstrip s) as [|c r] eqn:E.
  - apply lstrip_nil in E.
    assert (Hall : forallb is_space (s ++ post) = true)
      by now rewrite forallb_app, E, Hpost.
    rewrite <- (app_nil_r (s ++ post)), lstrip_spaces by exact Hall.
    reflexivity.
  - rewrite lstrip_app by (rewrite E; discriminate).
    rewrite E. now apply rstrip_spaces.
Qed.

(** ** The lines of a text *)

Lemma split_lines_line (line : str) :
  ~ In newline line -> split_lines line = [line].
Proof.
  induction line as [|c line IH]; intros Hn; simpl; [reflexivity|].
  destruct (Ascii.eqb c newline) eqn:E.
  - apply Ascii.eqb_eq in E. elim Hn. now left.
  - rewrite IH; [reflexivity|]. intros H. apply Hn. now right.
Qed.

Lemma split_lines_cons (line rest : str) :
  ~ In newline line ->
  split_lines (line ++ newline :: rest) = line :: split_lines rest.
Proof.
  induction line as [|c line IH]; intros Hn; cbn [app split_lines].
  - now rewrite Ascii.eqb_refl.
  - destruct (Ascii.eqb c newline) eqn:E.
    + apply Ascii.eqb_eq in E. elim Hn. now left.
    + rewrite IH; [reflexivity|]. intros H. apply Hn. now right.
Qed.

(** [split_lines] gives the lines of the text, and nothing else is. *)
Lemma split_lines_spec (text : str) : Lines_of text (split_lines text).
Proof.
  induction text as [|c text (Hne & Hall & Htext)].
  - split; [discriminate|]. split; [|reflexivity].
    constructor; [intros [] | constructor].
  - cbn [split_lines]. destruct (Ascii.eqb c newline) eqn:E.
    + apply Ascii.eqb_eq in E. subst c. split; [discriminate|]. split.
      * constructor; [intros [] | exact Hall].
      * destruct (split_lines text) as [|l ls]; [congruence|].
        change (joined_by newline ([] :: l :: ls))
          with (newline :: joined_by newline (l :: ls)).
        now rewrite <- Htext.
    + destruct (split_lines text) as [|l ls]; [congruence|].
      split; [discriminate|]. inversion Hall as [|? ? Hl Hls]; subst. split.
      * constructor; [|exact Hls]. intros [H|H]; [|now apply Hl].
        subst c. now rewrite Ascii.eqb_refl in E.
      * destruct ls; reflexivity.
Qed.

Lemma lines_of_split (text : str) (lines : list str) :
  Lines_of text lines -> lines = split_lines text.
Proof.
  intros (Hne & Hall & ->). revert Hne.
  induction Hall as [|l ls Hl Hls IH]; intros Hne; [now elim Hne|].
  destruct ls as [|l' ls'].
  - simpl. symmetry. now apply split_lines_line.
  - change (joined_by newline (l :: l' :: ls'))
      with (l ++ newline :: joined_by newline (l' :: ls')).
    rewrite split_lines_cons by exact Hl. f_equal. apply IH. discriminate.
Qed.

Lemma Qlt_bool_iff (x y : Q) : Qlt_bool x y = true <-> x < y.
Proof.
  unfold Qlt_bool. rewrite negb_true_iff. split.
  - intros H. apply Qnot_le_lt. intros Hle. apply Qle_bool_iff in Hle. congruence.
  - intros H. destruct (Qle_bool y x) eqn:E; [|reflexivity].
    apply Qle_bool_iff in E. exfalso. exact (Qlt_not_le _ _ H E).
Qed.

(** ** Rounding *)

Local Open Scope Q_scope.

Lemma pow2_pos (e : Z) : 0 < 2 ^ e.
Proof. apply Qpower_0_lt. reflexivity. Qed.

Lemma pow2_plus (a b : Z) : 2 ^ (a + b) == 2 ^ a * 2 ^ b.
Proof. apply Qpower_plus. discriminate. Qed.

Lemma pow2_le (a b : Z) : (a <= b)%Z -> 2 ^ a <= 2 ^ b.
Proof. intros H. apply Qpower_le_compat_l; [exact H|]. discriminate. Qed.

Lemma pow2_Z (n : Z) : (0 <= n)%Z -> inject_Z (2 ^ n) == 2 ^ n.
Proof. intros H. now rewrite Zpower_Qpower. Qed.

(** The two logarithms locate a positive rational within a factor of 4. *)
Lemma pos_bounds (x : Q) :
  0 < x ->
  let a := (Z.log2 (Qnum x) - Z.log2 (Zpos (Qden x)))%Z in
  2 ^ (a - 1) <= x /\ x < 2 ^ (a + 1).
Proof.
  destruct x as [n d]. cbn [Qnum Qden]. cbv zeta. intros Hx.
  set (a := (Z.log2 n - Z.log2 (Z.pos d))%Z).
  assert (Hn : (0 < n)%Z) by (unfold Qlt in Hx; simpl in Hx; lia).
  pose proof (Z.log2_spec n Hn) as [Hn1 Hn2].
  pose proof (Z.log2_spec (Zpos d) (Pos2Z.is_pos d)) as [Hd1 Hd2].
  pose proof (Z.log2_nonneg n) as Hln. pose proof (Z.log2_nonneg (Zpos d)) as Hld.
  set (k := Z.log2 n) in *. set (l := Z.log2 (Zpos d)) in *.
  assert (HD : 0 < inject_Z (Zpos d)) by reflexivity.
  assert (Hnd : n # d == inject_Z n / inject_Z (Zpos d)) by apply Qmake_Qdiv.
  rewrite Hnd. split.
  - apply Qle_shift_div_l; [exact HD|].
    apply Qle_trans with (2 ^ (a - 1) * 2 ^ (l + 1)).
    + apply Qmult_le_l; [apply pow2_pos|].
      rewrite <- pow2_Z by lia. rewrite <- Zle_Qle.
      replace (l + 1)%Z with (Z.succ l) by lia. now apply Z.lt_le_incl.
    + rewrite <- pow2_plus. replace (a - 1 + (l + 1))%Z with k by (subst a; lia).
      rewrite <- pow2_Z by lia. now rewrite <- Zle_Qle.
  - apply Qlt_shift_div_r; [exact HD|].
    apply Qlt_le_trans with (2 ^ (k + 1)).
    + rewrite <- pow2_Z by lia. rewrite <- Zlt_Qlt.
      replace (k + 1)%Z with (Z.succ k) by lia. exact Hn2.
    + replace (k + 1)%Z with (a + 1 + l)%Z by (subst a; lia).
      rewrite pow2_plus. apply Qmult_le_l; [apply pow2_pos|].
      rewrite <- pow2_Z by lia. now rewrite <- Zle_Qle.
Qed.

Lemma ulp_exponent_binade (x : Q) : 0 < x -> in_binade x (Float.ulp_exponent x).
Proof.
  intros Hx. pose proof (pos_bounds x Hx) as [Hlo Hhi]. cbv zeta in Hlo, Hhi.
  unfold Float.ulp_exponent.
  set (a := (Z.log2 (Qnum x) - Z.log2 (Zpos (Qden x)))%Z) in *.
  unfold in_binade. rewrite <- !pow2_plus.
  destruct (Qle_bool (2 ^ a) x) eqn:E.
  - apply Qle_bool_iff in E.
    replace (52 + (a - 52))%Z with a by lia.
    replace (53 + (a - 52))%Z with (a + 1)%Z by lia. now split.
  - replace (52 + (a - 53))%Z with (a - 1)%Z by lia.
    replace (53 + (a - 53))%Z with a by lia. split; [exact Hlo|].
    apply Qnot_le_lt. intros H. apply Qle_bool_iff in H. congruence.
Qed.

Lemma nearest_even_spec (r : Q) : nearest_integer_even r (Float.nearest_even r).
Proof.
  unfold Float.nearest_even, nearest_integer_even.
  pose proof (Qfloor_le r) as Hlo. pose proof (Qlt_floor r) as Hhi.
  rewrite inject_Z_plus in Hhi. change (inject_Z 1) with 1 in Hhi.
  set (f := Qfloor r) in *.
  destruct (Qcompare (r - inject_Z f) (1 # 2)) eqn:E.
  - apply Qeq_alt in E.
    assert (Er : r == inject_Z f + (1 # 2)) by (rewrite <- E; ring).
    destruct (Z.even f) eqn:Ev.
    + split; [lra|]. split; [lra|]. intros _. exact Ev.
    + rewrite inject_Z_plus. change (inject_Z 1) with 1.
      split; [lra|]. split; [lra|]. intros _.
      rewrite Z.even_add, Ev. reflexivity.
  - apply Qlt_alt in E. split; [lra|]. split; [lra|].
    intros [H|H]; lra.
  - apply Qgt_alt in E. rewrite inject_Z_plus. change (inject_Z 1) with 1.
    split; [lra|]. split; [lra|]. intros [H|H]; lra.
Qed.

Lemma round_pos_spec (x : Q) : 0 < x -> rounds_pos_to x (Float.round_pos x).
Proof.
  intros Hx. exists (Float.ulp_exponent x), (Float.nearest_even (x / 2 ^ Float.ulp_exponent x)).
  split; [now apply ulp_exponent_binade|]. split; [apply nearest_even_spec|].
  reflexivity.
Qed.

(** [Float.round] rounds to the nearest float, ties to even. *)
Lemma round_spec (x : Q) : rounds_to x (Float.round x).
Proof.
  unfold Float.round, rounds_to. destruct (Qcompare x 0) eqn:E.
  - apply Qeq_alt in E. left. split; [exact E | reflexivity].
  - apply Qlt_alt in E. right. right. split; [exact E|].
    exists (Float.round_pos (- x)). split; [|reflexivity].
    apply round_pos_spec. lra.
  - apply Qgt_alt in E. right. left. split; [exact E|]. now apply round_pos_spec.
Qed.

Lemma pow2_52 : 2 ^ 52 == 4503599627370496.
Proof. reflexivity. Qed.

Lemma pow2_53 : 2 ^ 53 == 9007199254740992.
Proof. reflexivity. Qed.

Lemma pow2_succ (e : Z) : 2 ^ (e + 1) == 2 * 2 ^ e.
Proof. rewrite pow2_plus. change (2 ^ 1) with 2. ring. Qed.

Lemma binade_le (x y : Q) (e e' : Z) :
  in_binade x e -> in_binade y e' -> x <= y -> (e <= e')%Z.
Proof.
  unfold in_binade. rewrite pow2_52, pow2_53. intros [Hx _] [_ Hy] Hxy.
  destruct (Z_le_gt_dec e e') as [H|H]; [exact H|exfalso].
  assert (Hp : 2 ^ (e' + 1) <= 2 ^ e) by (apply pow2_le; lia).
  rewrite pow2_succ in Hp.
  set (t := 2 ^ e) in *. set (t' := 2 ^ e') in *. lra.
Qed.

Lemma nearest_le (r r' : Q) (m m' : Z) :
  nearest_integer_even r m -> nearest_integer_even r' m' -> r <= r' ->
  (m <= m')%Z.
Proof.
  intros (Hlo & Hhi & Hev) (Hlo' & Hhi' & Hev') Hr.
  destruct (Z_le_gt_dec m m') as [H|H]; [exact H|exfalso].
  assert (H1 : inject_Z m' + 1 <= inject_Z m).
  { change 1 with (inject_Z 1). rewrite <- inject_Z_plus, <- Zle_Qle. lia. }
  assert (E : inject_Z m == inject_Z (m' + 1)).
  { rewrite inject_Z_plus. change (inject_Z 1) with 1. lra. }
  assert (E' : m = (m' + 1)%Z) by (apply inject_Z_injective; exact E).
  clear E. rename E' into E.
  assert (Em : Z.even m = true) by (apply Hev; left; lra).
  assert (Em' : Z.even m' = true) by (apply Hev'; right; lra).
  rewrite E, Z.even_add, Em' in Em. discriminate.
Qed.

Lemma quotient_bounds (x : Q) (e : Z) :
  in_binade x e -> 2 ^ 52 <= x / 2 ^ e /\ x / 2 ^ e < 2 ^ 53.
Proof.
  intros [Hlo Hhi]. split.
  - apply Qle_shift_div_l; [apply pow2_pos | exact Hlo].
  - apply Qlt_shift_div_r; [apply pow2_pos | exact Hhi].
Qed.

Lemma significand_bounds (r : Q) (m : Z) :
  nearest_integer_even r m -> 2 ^ 52 <= r -> r < 2 ^ 53 ->
  2 ^ 52 <= inject_Z m /\ inject_Z m <= 2 ^ 53.
Proof.
  rewrite pow2_52, pow2_53. intros (Hlo & Hhi & _) H1 H2. split.
  - assert (H : inject_Z 4503599627370495 < inject_Z m).
    { change (inject_Z 4503599627370495) with 4503599627370495. lra. }
    rewrite <- Zlt_Qlt in H.
    change 4503599627370496 with (inject_Z 4503599627370496).
    rewrite <- Zle_Qle. lia.
  - assert (H : inject_Z m < inject_Z 9007199254740993).
    { change (inject_Z 9007199254740993) with 9007199254740993. lra. }
    rewrite <- Zlt_Qlt in H.
    change 9007199254740992 with (inject_Z 9007199254740992).
    rewrite <- Zle_Qle. lia.
Qed.

Lemma rounds_pos_bounds (x p : Q) :
  rounds_pos_to x p ->
  exists e, in_binade x e /\ 2 ^ 52 * 2 ^ e <= p /\ p <= 2 ^ 53 * 2 ^ e.
Proof.
  intros (e & m & Hb & Hn & Hp). exists e. split; [exact Hb|].
  destruct (quotient_bounds x e Hb) as [H1 H2].
  destruct (significand_bounds _ _ Hn H1 H2) as [H3 H4].
  rewrite Hp. split; apply Qmult_le_compat_r; auto using Qlt_le_weak, pow2_pos.
Qed.

Lemma rounds_pos_positive (x p : Q) : rounds_pos_to x p -> 0 < p.
Proof.
  intros H. apply rounds_pos_bounds in H as (e & _ & H & _).
  rewrite pow2_52 in H. pose proof (pow2_pos e) as Ht.
  set (t := 2 ^ e) in *. lra.
Qed.

Lemma rounds_pos_le (x y p q : Q) :
  rounds_pos_to x p -> rounds_pos_to y q -> x <= y -> p <= q.
Proof.
  intros Hx Hy Hxy.
  destruct (Hx) as (e & m & Hb & Hn & Hp), (Hy) as (e' & m' & Hb' & Hn' & Hq).
  pose proof (binade_le _ _ _ _ Hb Hb' Hxy) as He.
  destruct (Z.eq_dec e e') as [<-|Hne].
  - rewrite Hp, Hq. apply Qmult_le_compat_r; [|apply Qlt_le_weak, pow2_pos].
    rewrite <- Zle_Qle. apply (nearest_le _ _ _ _ Hn Hn').
    apply Qmult_le_compat_r; [exact Hxy|].
    apply Qlt_le_weak, Qinv_lt_0_compat, pow2_pos.
  - destruct (quotient_bounds x e Hb) as [H1 H2].
    destruct (significand_bounds _ _ Hn H1 H2) as [_ H4].
    destruct (quotient_bounds y e' Hb') as [H1' H2'].
    destruct (significand_bounds _ _ Hn' H1' H2') as [H3' _].
    assert (Hup : p <= 2 ^ 53 * 2 ^ e).
    { rewrite Hp. apply Qmult_le_compat_r; [exact H4|apply Qlt_le_weak, pow2_pos]. }
    assert (Hdn : 2 ^ 52 * 2 ^ e' <= q).
    { rewrite Hq. apply Qmult_le_compat_r; [exact H3'|apply Qlt_le_weak, pow2_pos]. }
    assert (Hee : 2 ^ (e + 1) <= 2 ^ e') by (apply pow2_le; lia).
    rewrite pow2_succ in Hee. rewrite pow2_52 in Hdn. rewrite pow2_53 in Hup.
    set (t := 2 ^ e) in *. set (t' := 2 ^ e') in *. lra.
Qed.

(** Rounding is monotone, so the float a number rounds to is unique. *)
Lemma rounds_to_le (x y p q : Q) :
  rounds_to x p -> rounds_to y q -> x <= y -> p <= q.
Proof.
  intros [[Hx Hp]|[[Hx Hp]|[Hx (p' & Hp' & Hp)]]]
         [[Hy Hq]|[[Hy Hq]|[Hy (q' & Hq' & Hq)]]] Hxy; try lra.
  - apply rounds_pos_positive in Hq. lra.
  - now apply (rounds_pos_le x y).
  - apply rounds_pos_positive in Hp'. lra.
  - apply rounds_pos_positive in Hp'. apply rounds_pos_positive in Hq. lra.
  - assert (H : q' <= p') by (apply (rounds_pos_le (- y) (- x)); auto; lra). lra.
Qed.

Lemma rounds_to_unique (x p q : Q) : rounds_to x p -> rounds_to x q -> p == q.
Proof.
  intros Hp Hq. apply Qle_antisym.
  - apply (rounds_to_le x x); auto. apply Qle_refl.
  - apply (rounds_to_le x x); auto. apply Qle_refl.
Qed.

Lemma round_le (x y : Q) : x <= y -> Float.round x <= Float.round y.
Proof. apply rounds_to_le; apply round_spec. Qed.

(** The relative error of rounding is at most [2^-53]. *)
Lemma rounds_pos_near (x p : Q) :
  rounds_pos_to x p -> x - x * (1 # 9007199254740992) <= p.
Proof.
  intros (e & m & [Hlo _] & (_ & Hn & _) & Hp).
  assert (Ht : 0 < 2 ^ e) by apply pow2_pos.
  assert (Hx : x / 2 ^ e * 2 ^ e == x).
  { rewrite Qmult_comm. apply Qmult_div_r. intros H. rewrite H in Ht. discriminate. }
  assert (H : x / 2 ^ e * 2 ^ e <= (inject_Z m + (1 # 2)) * 2 ^ e).
  { apply Qmult_le_compat_r; [exact Hn | now apply Qlt_le_weak]. }
  rewrite Hx in H. rewrite pow2_52 in Hlo.
  assert (H' : x <= inject_Z m * 2 ^ e + (1 # 2) * 2 ^ e).
  { apply Qle_trans with (1 := H). apply Qle_lteq. right. ring. }
  rewrite Hp. set (t := 2 ^ e) in *. set (u := inject_Z m * t) in *. lra.
Qed.

Lemma mul_one_point_one_ge (a : Q) :
  0 < a -> a <= Float.mul a Float.one_point_one.
Proof.
  intros Ha. unfold Float.mul.
  assert (Hx : 0 < a * Float.one_point_one).
  { unfold Float.one_point_one. lra. }
  destruct (round_spec (a * Float.one_point_one)) as [[H _]|[[_ H]|[H _]]]; try lra.
  apply rounds_pos_near in H. unfold Float.one_point_one in *.
  set (p := Float.round _) in *. lra.
Qed.

Lemma one_point_one_spec : rounds_to (11 # 10) Float.one_point_one.
Proof.
  right. left. split; [reflexivity|].
  exists (-52)%Z, 4953959590107546%Z. split; [|split].
  - split; [discriminate | reflexivity].
  - split; [discriminate|]. split; [discriminate|].
    intros [H|H]; discriminate H.
  - reflexivity.
Qed.

Lemma rounds_to_eq (x y p q : Q) :
  rounds_to x p -> rounds_to y q -> x == y -> p == q.
Proof.
  intros Hp Hq E. apply Qle_antisym.
  - apply (rounds_to_le x y); auto. rewrite E. apply Qle_refl.
  - apply (rounds_to_le y x); auto. rewrite E. apply Qle_refl.
Qed.

(** The test [font_size > avg_font_size * 1.1] of the code. *)
Lemma size_rule_spec (s a : Q) :
  Qlt_bool (Float.mul a Float.one_point_one) s = true <->
  Larger_than_average s a.
Proof.
  rewrite Qlt_bool_iff. unfold Larger_than_average, Float.mul. split.
  - intros H. exists Float.one_point_one, (Float.round (a * Float.one_point_one)).
    split; [apply one_point_one_spec|]. split; [apply round_spec | exact H].
  - intros (c & p & Hc & Hp & H).
    assert (Ec : c == Float.one_point_one)
      by (apply (rounds_to_eq (11 # 10) (11 # 10)); auto using one_point_one_spec;
          reflexivity).
    assert (Ep : Float.round (a * Float.one_point_one) == p).
    { apply (rounds_to_eq (a * Float.one_point_one) (a * c));
        auto using round_spec. now rewrite Ec. }
    now rewrite Ep.
Qed.

(** [12.0 * 1.1] is the float [13.200000000000001], which is above
    132/10: a size equal to that float is not above it. *)
Example product_is_rounded :
  Float.mul 12 Float.one_point_one == 7430939385161319 # 562949953421312 /\
  12 * (11 # 10) < 7430939385161319 # 562949953421312 /\
  Qlt_bool (Float.mul 12 Float.one_point_one)
           (7430939385161319 # 562949953421312) = false.
Proof. vm_compute. repeat split; discriminate. Qed.

(** ** Heading Classifier *)

Lemma heading_patterns_spec (t : str) :
  existsb (fun pattern => Re.re_match pattern t) heading_patterns = true <->
  Re.Matches pat_numbered t \/ Re.Matches pat_title_case t \/
  Re.Matches pat_all_caps t \/ Re.Matches pat_dotted t.
Proof.
  unfold heading_patterns. simpl.
  rewrite !orb_true_iff, !re_match_spec. intuition discriminate.
Qed.

Lemma one_inv (p : ascii -> bool) (w : str) :
  Re.piece_lang (Re.One p) w -> exists c, w = [c] /\ p c = true.
Proof. inversion 1; subst. eauto. Qed.

Lemma opt_inv (p : ascii -> bool) (w : str) :
  Re.piece_lang (Re.Opt p) w -> w = [] \/ exists c, w = [c] /\ p c = true.
Proof. inversion 1; subst; eauto. Qed.

Lemma plus_inv (p : ascii -> bool) (w : str) :
  Re.piece_lang (Re.Plus p) w ->
  exists c w', w = c :: w' /\ forallb p (c :: w') = true.
Proof.
  inversion 1 as [| | |? c w' Hc Hw|]; subst. exists c, w'. simpl.
  now rewrite Hc, Hw.
Qed.

Lemma star_inv (p : ascii -> bool) (w : str) :
  Re.piece_lang (Re.Star p) w -> forallb p w = true.
Proof. now inversion 1. Qed.

Lemma plus_intro (p : ascii -> bool) (c : ascii) (w : str) :
  forallb p (c :: w) = true -> Re.piece_lang (Re.Plus p) (c :: w).
Proof.
  simpl. intros H. apply andb_true_iff in H as [Hc Hw]. now constructor.
Qed.

Lemma words_inv (ps : list Re.piece) (words : list str) :
  Forall2 Re.piece_lang ps words ->
  match ps with
  | [] => words = []
  | p :: ps' =>
      exists w words', words = w :: words' /\ Re.piece_lang p w /\
                       Forall2 Re.piece_lang ps' words'
  end.
Proof. intros H. destruct H as [|p w ps' words' Hw H]; eauto. Qed.

Ltac flatten_words :=
  cbn [concat];
  repeat (rewrite <- app_assoc || rewrite app_nil_r || cbn [app]);
  reflexivity.

(** The four patterns in words: digits, possibly a dot, white space. *)
Lemma pat_numbered_spec (t : str) :
  Re.Matches pat_numbered t <->
  exists d digits dot s spaces rest,
    t = (d :: digits) ++ dot ++ (s :: spaces) ++ rest /\
    forallb is_digit (d :: digits) = true /\
    (dot = [] \/ dot = ["."%char]) /\
    forallb is_space (s :: spaces) = true.
Proof.
  unfold Re.Matches, pat_numbered. cbn [Re.pieces Re.dollar]. split.
  - intros (words & rest & HF & -> & _).
    apply words_inv in HF as (w1 & ws1 & -> & H1 & HF).
    apply words_inv in HF as (w2 & ws2 & -> & H2 & HF).
    apply words_inv in HF as (w3 & ws3 & -> & H3 & HF).
    apply words_inv in HF as ->.
    apply plus_inv in H1 as (d & digits & -> & Hd).
    apply plus_inv in H3 as (s0 & spaces & -> & Hs).
    exists d, digits, w2, s0, spaces, rest. repeat split; auto.
    + flatten_words.
    + apply opt_inv in H2 as [->|(c & -> & Hc)]; [now left|].
      apply Ascii.eqb_eq in Hc. subst c. now right.
  - intros (d & digits & dot & s0 & spaces & rest & -> & Hd & Hdot & Hs).
    exists [d :: digits; dot; s0 :: spaces], rest. split; [|split].
    + constructor; [now apply plus_intro|].
      constructor; [destruct Hdot as [->| ->]; constructor; apply Ascii.eqb_refl|].
      constructor; [now apply plus_intro | constructor].
    + flatten_words.
    + discriminate.
Qed.

(** A capital, small letters, white space, a capital. *)
Lemma pat_title_case_spec (t : str) :
  Re.Matches pat_title_case t <->
  exists a small s spaces b rest,
    t = a :: small ++ (s :: spaces) ++ b :: rest /\
    is_upper a = true /\ forallb is_lower small = true /\
    forallb is_space (s :: spaces) = true /\ is_upper b = true.
Proof.
  unfold Re.Matches, pat_title_case. cbn [Re.pieces Re.dollar]. split.
  - intros (words & rest & HF & -> & _).
    apply words_inv in HF as (w1 & ws1 & -> & H1 & HF).
    apply words_inv in HF as (w2 & ws2 & -> & H2 & HF).
    apply words_inv in HF as (w3 & ws3 & -> & H3 & HF).
    apply words_inv in HF as (w4 & ws4 & -> & H4 & HF).
    apply words_inv in HF as ->.
    apply one_inv in H1 as (a & -> & Ha).
    apply star_inv in H2.
    apply plus_inv in H3 as (s0 & spaces & -> & Hs).
    apply one_inv in H4 as (b & -> & Hb).
    exists a, w2, s0, spaces, b, rest. repeat split; auto.
    flatten_words.
  - intros (a & small & s0 & spaces & b & rest & -> & Ha & Hsm & Hs & Hb).
    exists [[a]; small; s0 :: spaces; [b]], rest. split; [|split].
    + constructor; [now constructor|].
      constructor; [now constructor|].
      constructor; [now apply plus_intro|].
      constructor; [now constructor | constructor].
    + flatten_words.
    + discriminate.
Qed.

(** Capitals and white space only, at least one character. *)
Lemma pat_all_caps_spec (t : str) :
  Re.Matches pat_all_caps t <->
  t <> [] /\ forallb is_upper_or_space t = true.
Proof.
  unfold Re.Matches, pat_all_caps. cbn [Re.pieces Re.dollar]. split.
  - intros (words & rest & HF & -> & Hrest).
    apply words_inv in HF as (w1 & ws1 & -> & H1 & HF).
    apply words_inv in HF as ->.
    apply plus_inv in H1 as (c & w & -> & Hc).
    split; [discriminate|]. cbn [concat]. rewrite app_nil_r, forallb_app, Hc.
    destruct (Hrest eq_refl) as [->| ->]; reflexivity.
  - intros [Hne Hall]. destruct t as [|c w]; [congruence|].
    exists [c :: w], []. split; [|split].
    + constructor; [now apply plus_intro | constructor].
    + flatten_words.
    + now left.
Qed.

(** Word characters, a dot, digits. *)
Lemma pat_dotted_spec (t : str) :
  Re.Matches pat_dotted t <->
  exists c word d digits rest,
    t = (c :: word) ++ "."%char :: (d :: digits) ++ rest /\
    forallb is_word (c :: word) = true /\
    forallb is_digit (d :: digits) = true.
Proof.
  unfold Re.Matches, pat_dotted. cbn [Re.pieces Re.dollar]. split.
  - intros (words & rest & HF & -> & _).
    apply words_inv in HF as (w1 & ws1 & -> & H1 & HF).
    apply words_inv in HF as (w2 & ws2 & -> & H2 & HF).
    apply words_inv in HF as (w3 & ws3 & -> & H3 & HF).
    apply words_inv in HF as ->.
    apply plus_inv in H1 as (c & word & -> & Hw).
    apply one_inv in H2 as (dot & -> & Hdot).
    apply Ascii.eqb_eq in Hdot. subst dot.
    apply plus_inv in H3 as (d & digits & -> & Hd).
    exists c, word, d, digits, rest. repeat split; auto.
    flatten_words.
  - intros (c & word & d & digits & rest & -> & Hw & Hd).
    exists [c :: word; ["."%char]; d :: digits], rest. split; [|split].
    + constructor; [now apply plus_intro|].
      constructor; [constructor; apply Ascii.eqb_refl|].
      constructor; [now apply plus_intro | constructor].
    + flatten_words.
    + discriminate.
Qed.

Example numbered_heading :
  is_potential_heading (lit "1. Introduction") 10 10 612 = true.
Proof. reflexivity. Qed.

Example dotted_heading :
  is_potential_heading (lit "2.1") 10 10 612 = true.
Proof. reflexivity. Qed.

Example body_text_is_no_heading :
  is_potential_heading (lit "the quick brown fox") 10 10 612 = false.
Proof. reflexivity. Qed.

Example large_font_heading :
  is_potential_heading (lit "the quick brown fox") 12 10 612 = true.
Proof. vm_compute. reflexivity. Qed.

Example rounded_product_heading :
  is_potential_heading (lit "the quick brown fox")
    (7430939385161319 # 562949953421312) 12 612 = false.
Proof. vm_compute. reflexivity. Qed.

Example no_break_space_is_white_space :
  is_potential_heading (ascii_of_nat 160 :: lit "AB") 10 10 612 = false /\
  is_potential_heading (lit "AB" ++ ascii_of_nat 160 :: lit "C") 10 10 612 = true.
Proof. vm_compute. split; reflexivity. Qed.

Lemma heading_by_pattern_or_size (text : str) (s a page_width : Q) :
  is_potential_heading text s a page_width = true ->
  existsb (fun pattern => Re.re_match pattern (strip text)) heading_patterns = true \/
  Qlt_bool (Float.mul a Float.one_point_one) s = true.
Proof.
  unfold is_potential_heading. cbv zeta.
  destruct (_ || _); [discriminate|].
  destruct (_ && _); [discriminate|].
  destruct (existsb _ heading_patterns); [now left|].
  destruct (Qlt_bool _ _); [now right | discriminate].
Qed.

(** The tests of [is_potential_heading] in the order of the code. *)
Lemma classifier_tests (text : str) (s a page_width : Q) :
  is_potential_heading text s a page_width = true <->
  (3 <= List.length (strip text) <= 150)%nat /\
  ((List.length (strip text) <= 100)%nat \/ endswith ":" (strip text) = true) /\
  (existsb (fun pattern => Re.re_match pattern (strip text)) heading_patterns = true \/
   Qlt_bool (Float.mul a Float.one_point_one) s = true).
Proof.
  unfold is_potential_heading. cbv zeta.
  set (t := strip text).
  destruct (List.length t <? 3)%nat eqn:E3.
  { apply Nat.ltb_lt in E3. simpl. split; [discriminate | lia]. }
  apply Nat.ltb_ge in E3.
  destruct (150 <? List.length t)%nat eqn:E150.
  { apply Nat.ltb_lt in E150. simpl. split; [discriminate | lia]. }
  apply Nat.ltb_ge in E150. simpl orb. cbv iota.
  destruct (100 <? List.length t)%nat eqn:E100;
    [apply Nat.ltb_lt in E100 | apply Nat.ltb_ge in E100];
    destruct (endswith ":" t) eqn:Eend; simpl andb; cbv iota;
    try (split; [discriminate | intros (_ & [H|H] & _); [lia | discriminate]]);
    (destruct (existsb _ heading_patterns) eqn:Ex;
     [ split; [intros _ | reflexivity]; repeat split; auto
     | destruct (Qlt_bool _ s) eqn:Eq;
       [ split; [intros _ | reflexivity]; repeat split; auto
       | split; [discriminate | intros (_ & _ & [H|H]); discriminate H] ] ]).
Qed.

(** *** The character classes by code points *)

Lemma between_spec (lo hi : nat) (c : ascii) :
  between lo hi c = true <-> (lo <= code c <= hi)%nat.
Proof. unfold between. rewrite andb_true_iff, !Nat.leb_le. tauto. Qed.

Lemma is_space_spec (c : ascii) : is_space c = true <-> White_space c.
Proof.
  unfold is_space, White_space.
  rewrite !orb_true_iff, !between_spec, !Nat.eqb_eq. simpl. lia.
Qed.

Lemma is_digit_spec (c : ascii) : is_digit c = true <-> Decimal_digit c.
Proof. apply between_spec. Qed.

Lemma is_upper_spec (c : ascii) : is_upper c = true <-> Capital c.
Proof. apply between_spec. Qed.

Lemma is_lower_spec (c : ascii) : is_lower c = true <-> Small c.
Proof. apply between_spec. Qed.

Lemma is_upper_or_space_spec (c : ascii) :
  is_upper_or_space c = true <-> Capital c \/ White_space c.
Proof.
  unfold is_upper_or_space. now rewrite orb_true_iff, is_upper_spec, is_space_spec.
Qed.

Lemma is_word_spec (c : ascii) : is_word c = true <-> Word_character c.
Proof.
  unfold is_word, Word_character, is_upper, is_lower, is_digit,
    Decimal_digit, Capital, Small.
  rewrite !orb_true_iff, !between_spec, !Nat.eqb_eq. simpl. lia.
Qed.

Lemma forallb_Forall (p : ascii -> bool) (P : ascii -> Prop) (l : str) :
  (forall c, p c = true <-> P c) -> forallb p l = true <-> Forall P l.
Proof.
  intros H. rewrite forallb_forall, Forall_forall.
  split; intros Hl c Hc; apply H, Hl, Hc.
Qed.

Lemma not_space (c : ascii) : is_space c = false <-> ~ White_space c.
Proof.
  rewrite <- is_space_spec. destruct (is_space c); split; congruence.
Qed.

(** *** Trimmed text *)

(** [strip] gives the trimmed text, and nothing else is. *)
Lemma strip_trimmed (text : str) : Trimmed_of text (strip text).
Proof.
  destruct (strip_spec text) as (pre & post & E & Hpre & Hpost & Hhead & Hlast).
  exists pre, post. split; [exact E|].
  split; [now apply (forallb_Forall is_space), Hpre; apply is_space_spec|].
  split; [now apply (forallb_Forall is_space), Hpost; apply is_space_spec|].
  split.
  - intros c t' Et. rewrite Et in Hhead. now apply not_space.
  - intros c t' Et. rewrite Et, rev_app_distr in Hlast. now apply not_space.
Qed.

Lemma trimmed_strip (text t : str) : Trimmed_of text t -> t = strip text.
Proof.
  intros (pre & post & -> & Hpre & Hpost & Hhead & Hlast).
  apply (forallb_Forall is_space) in Hpre, Hpost; try apply is_space_spec.
  rewrite strip_padding by assumption.
  unfold strip. rewrite lstrip_fixed.
  - symmetry. apply rstrip_fixed.
    destruct (rev t) as [|c r] eqn:E; [exact I|].
    apply not_space, (Hlast c (rev r)).
    now rewrite <- (rev_involutive t), E.
  - destruct t as [|c t']; [exact I|]. now apply not_space, (Hhead c t').
Qed.

(** *** The patterns in words *)

Lemma numbered_spec (t : str) : Re.Matches pat_numbered t <-> Numbered_section t.
Proof.
  rewrite pat_numbered_spec. unfold Numbered_section. split.
  - intros (d & digits & dot & s0 & spaces & rest & E & Hd & Hdot & Hs).
    exists (d :: digits), dot, (s0 :: spaces), rest.
    split; [exact E|]. split; [discriminate|].
    split; [now apply (forallb_Forall is_digit), Hd; apply is_digit_spec|].
    split; [exact Hdot|]. split; [discriminate|].
    now apply (forallb_Forall is_space), Hs; apply is_space_spec.
  - intros (digits & dot & spaces & rest & E & Hne & Hd & Hdot & Hns & Hs).
    destruct digits as [|d digits]; [congruence|].
    destruct spaces as [|s0 spaces]; [congruence|].
    exists d, digits, dot, s0, spaces, rest.
    split; [exact E|].
    split; [now apply (forallb_Forall is_digit _ _ is_digit_spec)|].
    split; [exact Hdot|].
    now apply (forallb_Forall is_space _ _ is_space_spec).
Qed.

Lemma title_case_spec (t : str) :
  Re.Matches pat_title_case t <-> Title_case_start t.
Proof.
  rewrite pat_title_case_spec. unfold Title_case_start. split.
  - intros (a & small & s0 & spaces & b & rest & E & Ha & Hsm & Hs & Hb).
    exists a, small, (s0 :: spaces), b, rest.
    split; [exact E|]. split; [now apply is_upper_spec|].
    split; [now apply (forallb_Forall is_lower), Hsm; apply is_lower_spec|].
    split; [discriminate|].
    split; [now apply (forallb_Forall is_space), Hs; apply is_space_spec|].
    now apply is_upper_spec.
  - intros (a & small & spaces & b & rest & E & Ha & Hsm & Hns & Hs & Hb).
    destruct spaces as [|s0 spaces]; [congruence|].
    exists a, small, s0, spaces, b, rest.
    split; [exact E|]. split; [now apply is_upper_spec|].
    split; [now apply (forallb_Forall is_lower _ _ is_lower_spec)|].
    split; [now apply (forallb_Forall is_space _ _ is_space_spec)|].
    now apply is_upper_spec.
Qed.

Lemma all_capitals_spec (t : str) :
  Re.Matches pat_all_caps t <-> All_capitals t.
Proof.
  rewrite pat_all_caps_spec. unfold All_capitals.
  now rewrite (forallb_Forall is_upper_or_space _ t is_upper_or_space_spec).
Qed.

Lemma dotted_spec (t : str) : Re.Matches pat_dotted t <-> Dotted_section t.
Proof.
  rewrite pat_dotted_spec. unfold Dotted_section. split.
  - intros (c & word & d & digits & rest & E & Hw & Hd).
    exists (c :: word), (d :: digits), rest.
    split; [exact E|]. split; [discriminate|].
    split; [now apply (forallb_Forall is_word), Hw; apply is_word_spec|].
    split; [discriminate|].
    now apply (forallb_Forall is_digit), Hd; apply is_digit_spec.
  - intros (word & digits & rest & E & Hnw & Hw & Hnd & Hd).
    destruct word as [|c word]; [congruence|].
    destruct digits as [|d digits]; [congruence|].
    exists c, word, d, digits, rest.
    split; [exact E|].
    split; [now apply (forallb_Forall is_word _ _ is_word_spec)|].
    now apply (forallb_Forall is_digit _ _ is_digit_spec).
Qed.

(** C2.  A line is classified as a heading exactly when its trimmed text
    (the text without the white space at its two ends) has between 3 and
    150 characters, has at most 100 characters or ends with a colon, and
    matches one of the four patterns (numbered section, Title Case start,
    capitals and white space only, dotted sub-section) or has a dominant
    font size above 1.1 times the average, the product being the float
    product of Python. *)
Theorem C2_is_potential_heading_iff (text : str) (s a page_width : Q) :
  is_potential_heading text s a page_width = true <->
  exists t,
    Trimmed_of text t /\
    (3 <= List.length t <= 150)%nat /\
    ((List.length t <= 100)%nat \/ exists t', t = t' ++ [":"%char]) /\
    (Numbered_section t \/ Title_case_start t \/ All_capitals t \/
     Dotted_section t \/ Larger_than_average s a).
Proof.
  rewrite classifier_tests, heading_patterns_spec, endswith_spec,
    size_rule_spec, numbered_spec, title_case_spec, all_capitals_spec,
    dotted_spec.
  split.
  - intros (Hlen & Hlong & Hrule). exists (strip text).
    split; [apply strip_trimmed|]. split; [exact Hlen|].
    split; [exact Hlong | tauto].
  - intros (t & Ht & Hlen & Hlong & Hrule).
    apply trimmed_strip in Ht. subst t.
    split; [exact Hlen|]. split; [exact Hlong | tauto].
Qed.

(** ** Bookmark Tree Flattener *)

Lemma bookmark_nested_ind (P : bookmark -> Prop) :
  (forall items, Forall P items -> P (Items items)) ->
  (forall title page, P (Destination title page None)) ->
  (forall title page, P (Destination title page (Some Bound_method))) ->
  (forall title page children,
      Forall P children -> P (Destination title page (Some (Sequence children)))) ->
  forall b, P b.
Proof.
  intros HI HN HM HS. fix IH 1. intros [items | title page [[|children]|]].
  - apply HI. induction items as [|b items IHl]; constructor; [apply IH | exact IHl].
  - apply HM.
  - apply HS. induction children as [|b l IHl]; constructor; [apply IH | exact IHl].
  - apply HN.
Qed.

Lemma flat_map_flat_map {A B C : Type} (f : A -> list B) (g : B -> list C)
    (l : list A) :
  flat_map g (flat_map f l) = flat_map (fun a => flat_map g (f a)) l.
Proof.
  induction l as [|a l IH]; simpl; [reflexivity|].
  now rewrite flat_map_app, IH.
Qed.

Lemma flat_map_nil {A B : Type} (f : A -> list B) (l : list A) :
  (forall a, In a l -> f a = []) -> flat_map f l = [].
Proof.
  induction l as [|a l IH]; intros H; simpl; [reflexivity|].
  rewrite (H a (or_introl eq_refl)), IH; [reflexivity|].
  intros b Hb. apply H. now right.
Qed.

Lemma flat_map_same {A B : Type} (f g : A -> list B) (l : list A) :
  (forall a, In a l -> f a = g a) -> flat_map f l = flat_map g l.
Proof.
  induction l as [|a l IH]; intros H; simpl; [reflexivity|].
  rewrite (H a (or_introl eq_refl)), IH; [reflexivity|].
  intros b Hb. apply H. now right.
Qed.

Lemma for_each_app {A S : Type} (body : A -> S -> outcome S) (l1 l2 : list A)
    (s : S) :
  for_each body (l1 ++ l2) s = (s' <- for_each body l1 s ;; for_each body l2 s').
Proof.
  revert s. induction l1 as [|x l1 IH]; intros s; simpl; [reflexivity|].
  destruct (body x s) as [s'|]; simpl; [apply IH | reflexivity].
Qed.

(** A loop over bookmarks each of which raises, or appends its entries. *)
Lemma for_each_visits (f : bookmark -> list entry -> outcome (list entry))
    (m : bookmark -> bool) (g : bookmark -> list entry) (l : list bookmark) :
  Forall (fun b => forall acc,
              f b acc = if m b then Raised else Ok (acc ++ g b)) l ->
  forall acc,
    for_each f l acc =
    if existsb m l then Raised else Ok (acc ++ flat_map g l).
Proof.
  induction 1 as [|b items Hb _ IH]; intros acc; simpl.
  - now rewrite app_nil_r.
  - rewrite Hb. destruct (m b); simpl; [reflexivity|].
    rewrite IH. destruct (existsb m items); [reflexivity|].
    now rewrite app_assoc.
Qed.

Lemma visited_entry_step (level : nat) (title : str) (page : option page_number)
    (children : option (children_attr bookmark)) (outline : list entry) :
  (if negb (List.length (strip title) =? 0)%nat &&
      (2 <? List.length (strip title))%nat
   then outline ++ [{| Entry.level := H (Nat.min level 3);
                       Entry.text := strip title;
                       Entry.page := bookmark_page page |}]
   else outline) =
  outline ++ visited_entry (level, Destination title page children).
Proof.
  unfold visited_entry. simpl.
  destruct (List.length (strip title)) as [|[|[|n]]]; simpl;
    rewrite ?app_nil_r; reflexivity.
Qed.

(** What [process_bookmark] does: it raises when it comes to a
    [children] that is a method, which it does exactly when there is one
    in the bookmark; else it appends the entries of the nodes in
    pre-order. *)
Lemma process_bookmark_spec (b : bookmark) :
  forall level outline,
    process_bookmark b level outline =
    if iterates_method b then Raised
    else Ok (outline ++ flat_map visited_entry (preorder level b)).
Proof.
  induction b as [items IH | title page | title page | title page children IH]
    using bookmark_nested_ind; intros level outline.
  - cbn [process_bookmark preorder iterates_method].
    rewrite (for_each_visits _ iterates_method
               (fun b => flat_map visited_entry (preorder level b))).
    + now rewrite flat_map_flat_map.
    + eapply Forall_impl; [|exact IH]. intros b Hb acc. apply Hb.
  - cbn [process_bookmark preorder iterates_method flat_map].
    rewrite (visited_entry_step level title page None). now rewrite app_nil_r.
  - reflexivity.
  - cbn [process_bookmark preorder iterates_method flat_map].
    rewrite (visited_entry_step level title page (Some (Sequence children))).
    destruct children as [|c cs].
    + simpl. now rewrite !app_nil_r.
    + rewrite (for_each_visits _ iterates_method
                 (fun b => flat_map visited_entry (preorder (level + 1) b))).
      * rewrite flat_map_flat_map.
        destruct (existsb iterates_method (c :: cs)); [reflexivity|].
        now rewrite <- app_assoc.
      * eapply Forall_impl; [|exact IH]. intros b Hb acc. apply Hb.
Qed.

Lemma preorder_depth (b : bookmark) :
  forall depth v, In v (preorder depth b) -> (depth <= fst v)%nat.
Proof.
  induction b as [items IH | title page | title page | title page children IH]
    using bookmark_nested_ind; intros depth v; cbn [preorder].
  - rewrite in_flat_map. intros (b & Hb & Hv).
    rewrite Forall_forall in IH. exact (IH b Hb depth v Hv).
  - intros [<-|[]]. simpl. lia.
  - intros [<-|[]]. simpl. lia.
  - intros [<-|Hv]; [simpl; lia|].
    apply in_flat_map in Hv as (b & Hb & Hv).
    rewrite Forall_forall in IH. specialize (IH b Hb _ v Hv). lia.
Qed.

Lemma existsb_false {A : Type} (f : A -> bool) (l : list A) (x : A) :
  existsb f l = false -> In x l -> f x = false.
Proof.
  intros H Hx. destruct (f x) eqn:E; [|reflexivity].
  rewrite <- H. symmetry. apply existsb_exists. now exists x.
Qed.

(** Where every page is found, the entry of the code is the entry of
    the specification. *)
Lemma visited_entry_node_entry (b : bookmark) :
  misses_page b = false ->
  forall depth v, In v (preorder depth b) -> visited_entry v = node_entry v.
Proof.
  induction b as [items IH | title page | title page | title page children IH]
    using bookmark_nested_ind; cbn [misses_page preorder]; intros Hm depth v.
  - rewrite in_flat_map. intros (b & Hb & Hv).
    rewrite Forall_forall in IH.
    exact (IH b Hb (existsb_false _ _ b Hm Hb) depth v Hv).
  - intros [<-|[]]. unfold visited_entry, node_entry. simpl.
    destruct page as [[n| |]|]; try discriminate; simpl;
      rewrite ?Nat.add_1_r; reflexivity.
  - intros [<-|[]]. unfold visited_entry, node_entry. simpl.
    destruct page as [[n| |]|]; try discriminate; simpl;
      rewrite ?Nat.add_1_r; reflexivity.
  - apply orb_false_iff in Hm as [Hp Hc]. intros [<-|Hv].
    + unfold visited_entry, node_entry. simpl.
      destruct page as [[n| |]|]; try discriminate; simpl;
        rewrite ?Nat.add_1_r; reflexivity.
    + apply in_flat_map in Hv as (b & Hb & Hv).
      rewrite Forall_forall in IH.
      exact (IH b Hb (existsb_false _ _ b Hc Hb) _ v Hv).
Qed.

(** On bookmarks whose [children] are sequences and whose pages are
    found, the function lists the entries of the nodes in pre-order. *)
Lemma process_bookmark_preorder (b : bookmark) (level : nat)
    (outline : list entry) :
  iterates_method b = false -> misses_page b = false ->
  process_bookmark b level outline =
  Ok (outline ++ flat_map node_entry (preorder level b)).
Proof.
  intros Hi Hm. rewrite process_bookmark_spec, Hi. do 2 f_equal.
  apply flat_map_same. intros v Hv.
  exact (visited_entry_node_entry b Hm level v Hv).
Qed.

(** On the bookmarks of pypdf the function raises at the first
    [Destination], and makes no entry when there is none. *)
Lemma pypdf_preorder (b : bookmark) :
  from_pypdf b = true -> iterates_method b = false ->
  forall level, preorder level b = [].
Proof.
  induction b as [items IH | title page | title page | title page children IH]
    using bookmark_nested_ind; cbn [from_pypdf iterates_method preorder].
  - intros Hp Hi level. apply flat_map_nil. intros b Hb.
    rewrite Forall_forall in IH. apply (IH b Hb).
    + rewrite forallb_forall in Hp. now apply Hp.
    + exact (existsb_false _ _ b Hi Hb).
  - destruct page; discriminate.
  - discriminate.
  - destruct page; discriminate.
Qed.

Lemma process_pypdf_bookmark (b : bookmark) (level : nat) (outline : list entry) :
  from_pypdf b = true ->
  process_bookmark b level outline = Raised \/
  process_bookmark b level outline = Ok outline.
Proof.
  intros Hp. rewrite process_bookmark_spec.
  destruct (iterates_method b) eqn:Hi; [now left | right].
  now rewrite (pypdf_preorder b Hp Hi), app_nil_r.
Qed.

(** No outline comes from the bookmarks of a document whose outline is
    one of pypdf. *)
Lemma pypdf_outline_dropped (d : pdf) :
  read_by_pypdf d = true -> extract_outline_from_bookmarks d = [].
Proof.
  unfold read_by_pypdf, extract_outline_from_bookmarks.
  destruct (outline d) as [[|b forest]|]; try reflexivity.
  intros Hp.
  destruct (process_pypdf_bookmark (Items (b :: forest)) 1 [] Hp) as [-> | ->];
    reflexivity.
Qed.

(** Bookmark objects whose [children] are lists are listed in
    pre-order. *)
Example flatten_example :
  let leaf (t : string) := Destination (lit t) (Some (Page_index 4)) None in
  process_bookmark
    (Items [Destination (lit " Part one ") (Some (Page_index 0))
              (Some (Sequence
                 [Destination (lit "ab") None
                    (Some (Sequence
                       [Destination (lit "Deep") (Some Lookup_raised)
                          (Some (Sequence [leaf "Deeper"%string]))]))]));
            leaf "Part two"%string]) 1%nat [] =
  Ok [ {| Entry.level := lit "H1"; Entry.text := lit "Part one"; Entry.page := 1%nat |};
       {| Entry.level := lit "H3"; Entry.text := lit "Deep"; Entry.page := 1%nat |};
       {| Entry.level := lit "H3"; Entry.text := lit "Deeper"; Entry.page := 5%nat |};
       {| Entry.level := lit "H1"; Entry.text := lit "Part two"; Entry.page := 5%nat |} ].
Proof. reflexivity. Qed.

(** A look-up that returns [-1] gives the page number 0. *)
Example page_not_found :
  process_bookmark (Destination (lit "Annex") (Some Not_found) None) 1%nat [] =
  Ok [ {| Entry.level := lit "H1"; Entry.text := lit "Annex"; Entry.page := 0%nat |} ].
Proof. reflexivity. Qed.

(** C1.  The claim fails on the outline that pypdf delivers.  The
    bookmark forest of one bookmark, "Introduction" on the first page, has
    the pre-order flattening of one entry (H1, Introduction, page 1).  In
    the code the bookmark is a [Destination] of pypdf, whose attribute
    [children] is a method: [process_bookmark] raises when it iterates
    over it, after the entry has been appended, the [except] of
    [extract_outline_from_bookmarks] gives [[]], and the outline of the
    document is that of the content pipeline. *)
Theorem C1_pypdf_bookmarks_dropped :
  let forest :=
    [Destination (lit "Introduction") (Some (Page_index 0)) (Some Bound_method)] in
  let d := {| metadata := Ok None; outline := Ok forest;
              pages := Ok [{| Page.width := 612;
                              Page.chars := typeset "plain words" 10 700 |}] |} in
  read_by_pypdf d = true /\
  flatten_forest forest =
    [ {| Entry.level := lit "H1"; Entry.text := lit "Introduction";
         Entry.page := 1%nat |} ] /\
  process_bookmark (Items forest) 1 [] = Raised /\
  extract_outline_from_bookmarks d = [] /\
  extract_outline CPython.set_iter d = [].
Proof.
  intros forest d. split; [reflexivity|]. split; [reflexivity|].
  split; [reflexivity|]. split; [reflexivity|]. vm_compute. reflexivity.
Qed.

(** ** Sorting *)

Section Sorting.

Context {A : Type} (before : A -> A -> bool).

Lemma insert_perm (x : A) (l : list A) :
  Permutation (Py.insert before x l) (x :: l).
Proof.
  induction l as [|y l IH]; simpl; [reflexivity|].
  destruct (before y x); [|reflexivity].
  rewrite IH. apply perm_swap.
Qed.

Lemma sorted_perm (l : list A) : Permutation (Py.sorted before l) l.
Proof.
  induction l as [|x l IH]; simpl; [reflexivity|].
  rewrite insert_perm. now constructor.
Qed.

Lemma sorted_In (l : list A) (x : A) : In x (Py.sorted before l) <-> In x l.
Proof.
  split; apply Permutation_in; [|symmetry]; apply sorted_perm.
Qed.

Lemma sorted_length (l : list A) :
  List.length (Py.sorted before l) = List.length l.
Proof. apply Permutation_length, sorted_perm. Qed.

(** The order [R] that the sort establishes: [before a b] implies [R a b],
    and when [a] is not before [b] then [R b a]. *)
Variable R : A -> A -> Prop.
Hypothesis before_R : forall a b, before a b = true -> R a b.
Hypothesis not_before_R : forall a b, before a b = false -> R b a.
Hypothesis R_trans : forall a b c, R a b -> R b c -> R a c.

Lemma insert_sorted (x : A) (l : list A) :
  StronglySorted R l -> StronglySorted R (Py.insert before x l).
Proof.
  induction 1 as [|y l Hl IH Hy]; simpl.
  - repeat constructor.
  - destruct (before y x) eqn:E.
    + constructor; [exact IH|].
      apply Forall_forall. intros z Hz.
      apply (Permutation_in _ (insert_perm x l)) in Hz as [<-|Hz].
      * now apply before_R.
      * rewrite Forall_forall in Hy. now apply Hy.
    + apply not_before_R in E.
      constructor; [now constructor|].
      constructor; [exact E|].
      eapply Forall_impl; [|exact Hy]. intros z Hz. now apply R_trans with y.
Qed.

Lemma sorted_sorted (l : list A) : StronglySorted R (Py.sorted before l).
Proof.
  induction l as [|x l IH]; simpl; [constructor | now apply insert_sorted].
Qed.

End Sorting.

(** ** Sets of sizes and the sorted list of distinct sizes *)

Lemma InA_Qeq_In (x : Q) (l : list Q) :
  InA Qeq x l <-> exists y, In y l /\ y == x.
Proof.
  rewrite InA_alt. split; intros (y & H1 & H2); exists y; split; auto;
    now symmetry.
Qed.

Lemma desc_insert_strict (x : Q) (l : list Q) :
  StronglySorted (fun a b => b < a) l -> ~ InA Qeq x l ->
  StronglySorted (fun a b => b < a) (Py.insert (fun a b => Qlt_bool b a) x l).
Proof.
  induction 1 as [|y l Hl IH Hy]; intros Hx; simpl.
  - repeat constructor.
  - destruct (Qlt_bool x y) eqn:E.
    + apply Qlt_bool_iff in E.
      constructor; [apply IH; intros Hin; apply Hx; now right|].
      apply Forall_forall. intros z Hz.
      apply (Permutation_in _ (insert_perm _ x l)) in Hz as [<-|Hz].
      * exact E.
      * rewrite Forall_forall in Hy. now apply Hy.
    + assert (Hyx : y < x).
      { destruct (Q_dec x y) as [[Hlt|Hgt]|Heq].
        - apply Qlt_bool_iff in Hlt. congruence.
        - exact Hgt.
        - exfalso. apply Hx. left. exact Heq. }
      constructor; [now constructor|].
      constructor; [exact Hyx|].
      eapply Forall_impl; [|exact Hy]. intros z Hz. now apply Qlt_trans with y.
Qed.

Lemma InA_sorted (before : Q -> Q -> bool) (x : Q) (l : list Q) :
  InA Qeq x (Py.sorted before l) <-> InA Qeq x l.
Proof.
  rewrite !InA_Qeq_In. split; intros (y & Hy & E); exists y; split; auto;
    now apply (sorted_In before).
Qed.

Lemma desc_sorted_strict (l : list Q) :
  NoDupA Qeq l ->
  StronglySorted (fun a b => b < a) (Py.sorted (fun a b => Qlt_bool b a) l).
Proof.
  induction 1 as [|x l Hx Hl IH]; simpl; [constructor|].
  apply desc_insert_strict; [exact IH|].
  now rewrite InA_sorted.
Qed.

Lemma strict_desc_head_max (a : Q) (l : list Q) (x : Q) :
  StronglySorted (fun a b => b < a) (a :: l) -> InA Qeq x (a :: l) -> x <= a.
Proof.
  intros HS Hx. apply StronglySorted_inv in HS as [_ Ha].
  inversion Hx as [? ? E|? ? Hin]; subst.
  - rewrite E. apply Qle_refl.
  - apply InA_Qeq_In in Hin as (y & Hy & E). rewrite Forall_forall in Ha.
    rewrite <- E. apply Qlt_le_weak. now apply Ha.
Qed.

Lemma strict_desc_unique (l1 : list Q) :
  forall l2,
    StronglySorted (fun a b => b < a) l1 ->
    StronglySorted (fun a b => b < a) l2 ->
    (forall x, InA Qeq x l1 <-> InA Qeq x l2) ->
    Forall2 Qeq l1 l2.
Proof.
  induction l1 as [|a1 l1 IH]; intros [|a2 l2] H1 H2 Hin.
  - constructor.
  - assert (HA : InA Qeq a2 []) by (apply Hin; now left). inversion HA.
  - assert (HA : InA Qeq a1 []) by (apply Hin; now left). inversion HA.
  - assert (E : a1 == a2).
    { apply Qle_antisym.
      - apply (strict_desc_head_max a2 l2); [exact H2|]. apply Hin. now left.
      - apply (strict_desc_head_max a1 l1); [exact H1|]. apply Hin. now left. }
    constructor; [exact E|].
    pose proof (StronglySorted_inv H1) as [H1' Ha1].
    pose proof (StronglySorted_inv H2) as [H2' Ha2].
    rewrite Forall_forall in Ha1, Ha2.
    apply IH; auto. intros x. split; intros Hx.
    + assert (Hx' : InA Qeq x (a2 :: l2)) by (apply Hin; now right).
      inversion Hx' as [? ? E'|]; subst; [|assumption].
      exfalso. apply InA_Qeq_In in Hx as (y & Hy & Ey).
      specialize (Ha1 y Hy). rewrite Ey, E', <- E in Ha1.
      exact (Qlt_irrefl _ Ha1).
    + assert (Hx' : InA Qeq x (a1 :: l1)) by (apply Hin; now right).
      inversion Hx' as [? ? E'|]; subst; [|assumption].
      exfalso. apply InA_Qeq_In in Hx as (y & Hy & Ey).
      specialize (Ha2 y Hy). rewrite Ey, E', E in Ha2.
      exact (Qlt_irrefl _ Ha2).
Qed.

Lemma index_found (x : Q) (l : list Q) :
  forall i,
    at_index l i x ->
    (forall j y, (j < i)%nat -> nth_error l j = Some y -> ~ y == x) ->
    Py.index x l = Some i.
Proof.
  induction l as [|a l IH]; intros i (y & Hn & E) Hbefore.
  - destruct i; discriminate.
  - destruct i as [|i]; simpl in *.
    + inversion Hn; subst. apply Qeq_bool_iff in E. now rewrite E.
    + destruct (Qeq_bool a x) eqn:Ea.
      * exfalso. apply Qeq_bool_iff in Ea.
        apply (Hbefore 0%nat a); [lia | reflexivity | exact Ea].
      * rewrite (IH i); [reflexivity | now exists y |].
        intros j z Hj Hz. apply (Hbefore (S j) z); [lia | exact Hz].
Qed.

Lemma index_some_at (x : Q) (l : list Q) :
  forall i, Py.index x l = Some i -> at_index l i x.
Proof.
  induction l as [|a l IH]; intros i; simpl; [discriminate|].
  destruct (Qeq_bool a x) eqn:Ea.
  - intros [= <-]. exists a. split; [reflexivity | now apply Qeq_bool_iff].
  - destruct (Py.index x l) as [j|]; simpl; [|discriminate].
    intros [= <-]. destruct (IH j eq_refl) as (y & Hy & E). now exists y.
Qed.

Lemma InA_at_index (x : Q) (l : list Q) :
  InA Qeq x l -> exists i, at_index l i x.
Proof.
  induction 1 as [a l E | a l _ (i & y & Hy & E)].
  - exists 0%nat, a. split; [reflexivity | now symmetry].
  - exists (S i), y. now split.
Qed.

Lemma strict_desc_nth (l : list Q) :
  StronglySorted (fun a b => b < a) l ->
  forall i j a b,
    (j < i)%nat -> nth_error l j = Some a -> nth_error l i = Some b -> b < a.
Proof.
  induction 1 as [|c l Hl IH Hc]; intros i j a b Hji Ha Hb.
  - destruct j; discriminate.
  - destruct i as [|i]; [lia|]. simpl in Hb. destruct j as [|j]; simpl in Ha.
    + inversion Ha; subst. rewrite Forall_forall in Hc.
      apply Hc. eapply nth_error_In; eauto.
    + apply (IH i j); auto. lia.
Qed.

Lemma strict_desc_index (l : list Q) (i : nat) (x : Q) :
  StronglySorted (fun a b => b < a) l -> at_index l i x ->
  Py.index x l = Some i.
Proof.
  intros HS Hat. apply index_found; [exact Hat|].
  destruct Hat as (y & Hy & E). intros j z Hj Hz Ez.
  pose proof (strict_desc_nth l HS i j z y Hj Hz Hy) as Hlt.
  rewrite E, Ez in Hlt. exact (Qlt_irrefl _ Hlt).
Qed.

Lemma Forall2_Qeq_at_index (l1 l2 : list Q) (i : nat) (x : Q) :
  Forall2 Qeq l1 l2 -> at_index l1 i x -> at_index l2 i x.
Proof.
  intros HF. revert i. induction HF as [|a b l1 l2 E _ IH]; intros i (y & Hy & Ey).
  - destruct i; discriminate.
  - destruct i as [|i]; simpl in Hy.
    + inversion Hy; subst. exists b. split; [reflexivity|]. now rewrite <- E.
    + destruct (IH i) as (z & Hz & Ez); [now exists y|]. now exists z.
Qed.

Section Hierarchy.

Variable set_iter : list Q -> list Q.
Hypothesis set_iter_ok : set_order set_iter.

Lemma set_iter_InA (l : list Q) (x : Q) :
  InA Qeq x (set_iter l) <-> InA Qeq x l.
Proof.
  destruct (set_iter_ok l) as (Hin & Hall & _). split; intros Hx.
  - apply InA_Qeq_In in Hx as (y & Hy & E). apply InA_Qeq_In.
    exists y. split; [now apply Hin | exact E].
  - apply InA_Qeq_In in Hx as (y & Hy & E).
    apply InA_eqA with y; [apply Q_Setoid | exact E | now apply Hall].
Qed.

Lemma sorted_sizes_distinct_descending (l : list Q) :
  distinct_descending l (sorted_sizes set_iter l).
Proof.
  unfold distinct_descending, sorted_sizes. split.
  - apply desc_sorted_strict. apply set_iter_ok.
  - intros x. now rewrite InA_sorted, set_iter_InA.
Qed.

Lemma distinct_descending_unique (l ds : list Q) :
  distinct_descending l ds -> Forall2 Qeq ds (sorted_sizes set_iter l).
Proof.
  intros [HS Hin]. destruct (sorted_sizes_distinct_descending l) as [HS' Hin'].
  apply strict_desc_unique; auto. intros x. now rewrite Hin, Hin'.
Qed.

Lemma heading_level_path_indexed (l : list Q) (x : Q) (i : nat) :
  (1 < List.length (sorted_sizes set_iter l))%nat ->
  at_index (sorted_sizes set_iter l) i x ->
  heading_level_path set_iter x l = Indexed i.
Proof.
  intros Hlen Hat. unfold heading_level_path.
  destruct (Nat.leb_spec (List.length (sorted_sizes set_iter l)) 1); [lia|].
  rewrite (strict_desc_index _ i x); auto.
  apply sorted_sizes_distinct_descending.
Qed.

Lemma get_heading_level_number (x : Q) (l : list Q) :
  get_heading_level set_iter x l = H (level_number set_iter x l).
Proof.
  unfold get_heading_level, level_number.
  now destruct (heading_level_path set_iter x l).
Qed.

Lemma level_number_monotone (l : list Q) (x1 x2 : Q) :
  InA Qeq x1 l -> InA Qeq x2 l -> x2 <= x1 ->
  (level_number set_iter x1 l <= level_number set_iter x2 l)%nat.
Proof.
  intros H1 H2 Hle. unfold level_number.
  destruct (Nat.leb_spec (List.length (sorted_sizes set_iter l)) 1) as [Hlen|Hlen].
  - unfold heading_level_path.
    destruct (Nat.leb_spec (List.length (sorted_sizes set_iter l)) 1); [|lia].
    lia.
  - destruct (sorted_sizes_distinct_descending l) as [HS Hin].
    apply Hin, InA_at_index in H1 as (i1 & Hi1).
    apply Hin, InA_at_index in H2 as (i2 & Hi2).
    rewrite (heading_level_path_indexed l x1 i1), (heading_level_path_indexed l x2 i2);
      auto.
    assert (i1 <= i2)%nat; [|lia].
    destruct (Nat.le_gt_cases i1 i2) as [|Hgt]; [assumption|exfalso].
    destruct Hi1 as (y1 & Hy1 & E1). destruct Hi2 as (y2 & Hy2 & E2).
    pose proof (strict_desc_nth _ HS i1 i2 y2 y1 Hgt Hy2 Hy1) as Hlt.
    rewrite E1, E2 in Hlt. exact (Qlt_not_le _ _ Hlt Hle).
Qed.

(** C3.  Let [ds] be the distinct sizes of the hierarchy list in
    descending order.  With at most one distinct size every level is H1;
    otherwise the level of the size at index [i] of [ds] is
    [H{min(i+1,3)}]; and the level number never decreases as the size gets
    smaller. *)
Theorem C3_heading_level_by_rank (font_size_hierarchy ds : list Q)
    (Hds : distinct_descending font_size_hierarchy ds) :
  ((List.length ds <= 1)%nat ->
   forall font_size,
     get_heading_level set_iter font_size font_size_hierarchy = lit "H1") /\
  ((1 < List.length ds)%nat ->
   forall font_size i,
     at_index ds i font_size ->
     get_heading_level set_iter font_size font_size_hierarchy =
       lit "H" ++ Py.fmt (Nat.min (i + 1) 3)) /\
  (forall larger smaller,
     InA Qeq larger font_size_hierarchy ->
     InA Qeq smaller font_size_hierarchy ->
     smaller <= larger ->
     (level_number set_iter larger font_size_hierarchy <=
      level_number set_iter smaller font_size_hierarchy)%nat) /\
  (forall font_size,
     get_heading_level set_iter font_size font_size_hierarchy =
       lit "H" ++ Py.fmt (level_number set_iter font_size font_size_hierarchy)).
Proof.
  pose proof (distinct_descending_unique _ _ Hds) as HF.
  pose proof (Forall2_length HF) as Hlen.
  repeat split.
  - intros Hle font_size. unfold get_heading_level, heading_level_path.
    destruct (Nat.leb_spec (List.length (sorted_sizes set_iter font_size_hierarchy)) 1);
      [reflexivity | lia].
  - intros Hlt font_size i Hat. unfold get_heading_level.
    rewrite (heading_level_path_indexed _ _ i); [reflexivity | lia |].
    now apply (Forall2_Qeq_at_index ds).
  - intros larger smaller. apply level_number_monotone.
  - intros font_size.
    apply (get_heading_level_number font_size font_size_hierarchy).
Qed.

End Hierarchy.

(** ** The order of first occurrence is a set order *)

Lemma first_seen_In (l : list Q) (x : Q) : In x (first_seen l) -> In x l.
Proof.
  revert x. induction l as [|a l IH]; intros x; simpl; [tauto|].
  intros [->|Hx]; [now left|]. apply filter_In in Hx as [Hx _]. right. now apply IH.
Qed.

Lemma first_seen_all (l : list Q) (x : Q) : In x l -> InA Qeq x (first_seen l).
Proof.
  induction l as [|a l IH]; simpl; [tauto|].
  intros [->|Hx]; [now left|].
  destruct (Qeq_bool x a) eqn:E.
  - left. now apply Qeq_bool_iff.
  - right. apply IH, InA_Qeq_In in Hx as (y & Hy & Ey).
    apply InA_Qeq_In. exists y. split; [|exact Ey].
    apply filter_In. split; [exact Hy|].
    apply negb_true_iff. destruct (Qeq_bool y a) eqn:E'; [|reflexivity].
    apply Qeq_bool_iff in E'. rewrite Ey in E'. apply Qeq_bool_iff in E'. congruence.
Qed.

Lemma NoDupA_filter (f : Q -> bool) (l : list Q) :
  NoDupA Qeq l -> NoDupA Qeq (filter f l).
Proof.
  induction 1 as [|a l Ha Hl IH]; simpl; [constructor|].
  destruct (f a); [|exact IH]. constructor; [|exact IH].
  intros Hin. apply Ha. apply InA_Qeq_In in Hin as (y & Hy & E).
  apply InA_Qeq_In. exists y. split; [|exact E]. now apply filter_In in Hy as [Hy _].
Qed.

Lemma first_seen_NoDupA (l : list Q) : NoDupA Qeq (first_seen l).
Proof.
  induction l as [|a l IH]; simpl; constructor.
  - intros Hin. apply InA_Qeq_In in Hin as (y & Hy & E).
    apply filter_In in Hy as [_ Hy]. apply negb_true_iff in Hy.
    apply Qeq_bool_iff in E. congruence.
  - now apply NoDupA_filter.
Qed.

Lemma first_seen_set_order : set_order first_seen.
Proof.
  intros l. repeat split.
  - apply first_seen_In.
  - apply first_seen_all.
  - apply first_seen_NoDupA.
Qed.

Lemma C3_heading_level_by_rank_witness :
  let hierarchy := [18; 14; 18; 12; 10 # 1; 14] in
  let ds := [18; 14; 12; 10] in
  distinct_descending hierarchy ds /\
  get_heading_level first_seen 12 hierarchy = lit "H3" /\
  get_heading_level first_seen 14 hierarchy = lit "H2" /\
  (level_number first_seen 18 hierarchy <= level_number first_seen 10 hierarchy)%nat.
Proof.
  intros hierarchy ds.
  assert (Hds : distinct_descending hierarchy ds).
  { split.
    - repeat constructor.
    - intros x. rewrite !InA_Qeq_In. subst hierarchy ds. simpl.
      split; intros (y & Hy & E); exists y; split; auto;
        repeat (destruct Hy as [<-|Hy]; [simpl; tauto|]); destruct Hy. }
  split; [exact Hds|].
  destruct (C3_heading_level_by_rank first_seen first_seen_set_order hierarchy ds Hds)
    as (_ & Hrank & Hmono & _).
  split; [|split].
  - apply (Hrank ltac:(simpl; lia) 12 2%nat). exists 12. split; reflexivity.
  - apply (Hrank ltac:(simpl; lia) 14 1%nat). exists 14. split; reflexivity.
  - apply Hmono.
    + apply InA_Qeq_In. exists 18. split; [simpl; tauto | reflexivity].
    + apply InA_Qeq_In. exists 10. split; [simpl; tauto | reflexivity].
    + unfold Qle. simpl. lia.
Defined.

(** ** Levels in the content pipeline *)

Lemma index_InA (x : Q) (l : list Q) :
  InA Qeq x l -> exists i, Py.index x l = Some i.
Proof.
  induction l as [|a l IH]; intros Hx; [inversion Hx|]. simpl.
  destruct (Qeq_bool a x) eqn:E; [now exists 0%nat|].
  inversion Hx as [? ? E'|? ? Hin]; subst.
  - symmetry in E'. apply Qeq_bool_iff in E'. congruence.
  - destruct (IH Hin) as (i & ->). now exists (S i).
Qed.

Section Levels.

Variable set_iter : list Q -> list Q.
Hypothesis set_iter_ok : set_order set_iter.

Lemma member_has_index (hierarchy : list Q) (x : Q) :
  In x hierarchy ->
  heading_level_path set_iter x hierarchy <> Value_error.
Proof.
  intros Hx. unfold heading_level_path.
  destruct (List.length (sorted_sizes set_iter hierarchy) <=? 1)%nat; [discriminate|].
  destruct (index_InA x (sorted_sizes set_iter hierarchy)) as (i & ->);
    [|discriminate].
  apply (sorted_sizes_distinct_descending set_iter set_iter_ok).
  apply InA_Qeq_In. exists x. split; [exact Hx | reflexivity].
Qed.

(** C9.  The last loop of the content pipeline asks [get_heading_level]
    for the font size of a heading together with the list of the font
    sizes of all headings, so the size is in the list, [index] finds it
    and the [ValueError] branch is not taken. *)
Theorem C9_value_error_unreachable (unique_headings : list heading) (e : entry)
    (He : In e (final_outline set_iter unique_headings)) :
  exists h,
    In h unique_headings /\
    let font_size_hierarchy := map Heading.font_size unique_headings in
    Entry.level e =
      get_heading_level set_iter (Heading.font_size h) font_size_hierarchy /\
    In (Heading.font_size h) font_size_hierarchy /\
    heading_level_path set_iter (Heading.font_size h) font_size_hierarchy
      <> Value_error.
Proof.
  unfold final_outline in He. apply in_map_iff in He as (h & <- & Hh).
  exists h. split; [exact Hh|]. cbv zeta. split; [reflexivity|].
  assert (Hin : In (Heading.font_size h) (map Heading.font_size unique_headings))
    by now apply in_map.
  split; [exact Hin | now apply member_has_index].
Qed.

End Levels.

Lemma C9_value_error_unreachable_witness :
  let h1 := {| Heading.text := lit "Overview"; Heading.page := 1%nat;
               Heading.font_size := 18 |} in
  let h2 := {| Heading.text := lit "Details"; Heading.page := 2%nat;
               Heading.font_size := 14 |} in
  let e := {| Entry.level := lit "H2"; Entry.text := lit "Details";
              Entry.page := 2%nat |} in
  In e (final_outline first_seen [h1; h2]) /\
  exists h,
    In h [h1; h2] /\
    Entry.level e = get_heading_level first_seen (Heading.font_size h) [18; 14] /\
    In (Heading.font_size h) [18; 14] /\
    heading_level_path first_seen (Heading.font_size h) [18; 14] <> Value_error.
Proof.
  intros h1 h2 e.
  assert (He : In e (final_outline first_seen [h1; h2])) by (right; left; reflexivity).
  split; [exact He|].
  exact (C9_value_error_unreachable first_seen first_seen_set_order [h1; h2] e He).
Defined.

(** ** Dominant font size *)

Lemma count_Qeq (x y : Q) (l : list Q) : x == y -> Py.count x l = Py.count y l.
Proof.
  intros E. unfold Py.count. f_equal. apply filter_ext. intros z.
  destruct (Qeq_bool z x) eqn:Ex, (Qeq_bool z y) eqn:Ey; try reflexivity.
  - apply Qeq_bool_iff in Ex. rewrite E in Ex. apply Qeq_bool_iff in Ex. congruence.
  - apply Qeq_bool_iff in Ey. rewrite <- E in Ey. apply Qeq_bool_iff in Ey. congruence.
Qed.

Lemma max_key_fold {A : Type} (key : A -> nat) (rest : list A) :
  forall done best,
    (exists before after,
        done = before ++ best :: after /\
        (forall y, In y done -> (key y <= key best)%nat) /\
        (forall y, In y before -> (key y < key best)%nat)) ->
    let d := fold_left (fun best y => if (key best <? key y)%nat then y else best)
                       rest best in
    exists before after,
      done ++ rest = before ++ d :: after /\
      (forall y, In y (done ++ rest) -> (key y <= key d)%nat) /\
      (forall y, In y before -> (key y < key d)%nat).
Proof.
  induction rest as [|x rest IH]; intros done best (before & after & Hd & Hall & Hbef).
  - simpl. rewrite app_nil_r. now exists before, after.
  - simpl. replace (done ++ x :: rest) with ((done ++ [x]) ++ rest)
      by now rewrite <- app_assoc.
    apply IH. destruct (Nat.ltb_spec (key best) (key x)) as [Hlt|Hge].
    + exists done, []. repeat split.
      * intros y Hy. apply in_app_or in Hy as [Hy|[<-|[]]]; [|lia].
        specialize (Hall y Hy). lia.
      * intros y Hy. specialize (Hall y Hy). lia.
    + exists before, (after ++ [x]). repeat split.
      * rewrite Hd, <- app_assoc. reflexivity.
      * intros y Hy. apply in_app_or in Hy as [Hy|[<-|[]]]; [now apply Hall | lia].
      * exact Hbef.
Qed.

Lemma max_key_spec {A : Type} (key : A -> nat) (l : list A) :
  l <> [] ->
  exists d before after,
    Py.max_key key l = Some d /\
    l = before ++ d :: after /\
    (forall y, In y l -> (key y <= key d)%nat) /\
    (forall y, In y before -> (key y < key d)%nat).
Proof.
  destruct l as [|x rest]; [congruence|]. intros _.
  destruct (max_key_fold key rest [x] x) as (before & after & H1 & H2 & H3).
  { exists [], []. repeat split.
    - intros y [<-|[]]. lia.
    - intros y []. }
  eexists _, before, after. split; [reflexivity|]. repeat split; assumption.
Qed.

Section Dominant.

Variable set_iter : list Q -> list Q.
Hypothesis set_iter_ok : set_order set_iter.

(** C8, as the code has it.  The dominant font size of a line is a size
    of the line that no other size of the line outnumbers; among the sizes
    that occur equally often it is the one that comes first when Python
    iterates over the set of the sizes, an order that follows the hash
    table of the set and is in general not the order in which the sizes
    are seen.  A size that occurs more often than every other one is the
    dominant size. *)
Theorem C8_dominant_most_frequent (avg_font_size : Q) (line_chars : list char)
    (Hline : line_chars <> []) :
  let font_sizes :=
    map (fun char => Py.get (Char.size char) avg_font_size) line_chars in
  exists d,
    dominant_font_size set_iter avg_font_size line_chars = Some d /\
    most_frequent_in_order (set_iter font_sizes) font_sizes d /\
    (forall x,
        In x font_sizes ->
        (forall y, In y font_sizes -> ~ y == x ->
                   (Py.count y font_sizes < Py.count x font_sizes)%nat) ->
        d == x).
Proof.
  intros font_sizes. unfold dominant_font_size. fold font_sizes.
  destruct (set_iter_ok font_sizes) as (Hin & Hall & _).
  assert (Hne : set_iter font_sizes <> []).
  { destruct line_chars as [|c cs]; [congruence|].
    assert (HA : InA Qeq (Py.get (Char.size c) avg_font_size) (set_iter font_sizes))
      by (apply Hall; now left).
    intros E. rewrite E in HA. inversion HA. }
  destruct (max_key_spec (fun s => Py.count s font_sizes) _ Hne)
    as (d & before & after & Hmax & Hsplit & Hle & Hlt).
  assert (Hd : In d font_sizes).
  { apply Hin. rewrite Hsplit. apply in_or_app. right. now left. }
  assert (Hmost : forall y, In y font_sizes ->
                            (Py.count y font_sizes <= Py.count d font_sizes)%nat).
  { intros y Hy. apply Hall, InA_Qeq_In in Hy as (y' & Hy' & E).
    rewrite <- (count_Qeq y' y font_sizes E). now apply Hle. }
  exists d. split; [exact Hmax|]. split.
  - exists before, after. repeat split; assumption.
  - intros x Hx Hstrict. destruct (Qeq_dec d x) as [E|NE]; [exact E|].
    specialize (Hstrict d Hd NE). specialize (Hmost x Hx). lia.
Qed.

End Dominant.

Lemma C8_dominant_most_frequent_witness :
  let line_chars := [sized "A" 12; sized "b" 10; sized "c" 10] in
  let sizes : list Q := [12; 10; 10] in
  line_chars <> [] /\
  exists d,
    dominant_font_size first_seen 11 line_chars = Some d /\
    most_frequent_in_order (first_seen sizes) sizes d /\
    (forall x,
        In x sizes ->
        (forall y, In y sizes -> ~ y == x ->
                   (Py.count y sizes < Py.count x sizes)%nat) ->
        d == x).
Proof.
  intros line_chars sizes.
  assert (Hline : line_chars <> []) by discriminate.
  split; [exact Hline|].
  exact (C8_dominant_most_frequent first_seen first_seen_set_order 11 line_chars Hline).
Defined.

(** C8, as the claim has it: with the sizes 12 and 10 once each, the
    size seen first is 12, and the dominant size that the code computes on
    CPython is 10. *)
Lemma C8_tie_is_not_first_seen :
  let line_chars := [sized "A" 12; sized "b" 10] in
  CPython.set_iter [12; 10] = [10; 12] /\
  dominant_font_size CPython.set_iter 11 line_chars = Some 10 /\
  most_frequent_first_seen [12; 10] 12 /\
  ~ most_frequent_first_seen [12; 10] 10.
Proof.
  intros line_chars. split; [vm_compute; reflexivity|].
  split; [vm_compute; reflexivity|]. split.
  - exists [], [10]. repeat split.
    + intros y [<-|[<-|[]]]; vm_compute; lia.
    + intros y [].
  - intros (before & after & Hsplit & _ & Hbefore).
    destruct before as [|b before]; [discriminate|].
    inversion Hsplit; subst.
    specialize (Hbefore 12 (or_introl eq_refl)). vm_compute in Hbefore. lia.
Qed.

(** ** Average font size *)

Lemma all_font_sizes_positive_sizes (pages : list page) :
  all_font_sizes pages = positive_sizes pages.
Proof.
  unfold all_font_sizes, positive_sizes, glyph_sizes.
  induction pages as [|p pages IH]; simpl; [reflexivity|].
  rewrite IH, !flat_map_app, filter_app. f_equal.
  induction (Page.chars p) as [|c cs IHc]; simpl; [reflexivity|].
  rewrite filter_app, IHc. f_equal.
  destruct (Char.size c) as [s|]; simpl.
  - now destruct (Qlt_bool 0 s).
  - reflexivity.
Qed.

Lemma positive_sizes_pos (pages : list page) :
  Forall (fun s => 0 < s) (positive_sizes pages).
Proof.
  apply Forall_forall. intros s Hs. apply filter_In in Hs as [_ Hs].
  now apply Qlt_bool_iff.
Qed.

Lemma sum_from (l : list Q) : forall a, fold_left Qplus l a == a + total l.
Proof.
  induction l as [|x l IH]; intros a; simpl.
  - now rewrite Qplus_0_r.
  - rewrite IH. now rewrite Qplus_assoc.
Qed.

Lemma sum_total (l : list Q) : Py.sum l == total l.
Proof. unfold Py.sum. rewrite sum_from. apply Qplus_0_l. Qed.

Lemma total_pos (l : list Q) :
  l <> [] -> Forall (fun s => 0 < s) l -> 0 < total l.
Proof.
  intros Hne HF. destruct l as [|x l]; [congruence|]. clear Hne.
  revert x HF. induction l as [|y l IH]; intros x HF; simpl.
  - inversion HF; subst. now rewrite Qplus_0_r.
  - inversion HF as [|? ? Hx HF']; subst.
    specialize (IH y HF'). simpl in IH.
    rewrite <- (Qplus_0_l 0). apply Qplus_lt_le_compat; [exact Hx|].
    now apply Qlt_le_weak.
Qed.

Lemma length_pos (l : list Q) :
  l <> [] -> 0 < inject_Z (Z.of_nat (List.length l)).
Proof.
  intros Hne. destruct l as [|x l]; [congruence|].
  unfold Qlt. simpl. lia.
Qed.

Lemma avg_font_size_mean (l : list Q) : l <> [] -> mean_of l (avg_font_size l).
Proof.
  intros Hne. split; [exact Hne|]. unfold avg_font_size.
  rewrite <- sum_total, Qmult_comm. apply Qmult_div_r.
  intros E. pose proof (length_pos l Hne) as Hpos. rewrite E in Hpos.
  exact (Qlt_irrefl _ Hpos).
Qed.

Lemma avg_font_size_pos (l : list Q) :
  l <> [] -> Forall (fun s => 0 < s) l -> 0 < avg_font_size l.
Proof.
  intros Hne HF. unfold avg_font_size. apply Qlt_shift_div_l.
  - now apply length_pos.
  - rewrite Qmult_0_l, sum_total. now apply total_pos.
Qed.

Section Average.

Variable set_iter : list Q -> list Q.


End Average.


(** ** Lines without font sizes *)

Section Sizeless.

Variable set_iter : list Q -> list Q.
Hypothesis set_iter_ok : set_order set_iter.

Lemma sizeless_font_sizes (avg : Q) (line_chars : list char) :
  Forall (fun c => Char.size c = None) line_chars ->
  forall s, In s (map (fun c => Py.get (Char.size c) avg) line_chars) -> s = avg.
Proof.
  intros HF s Hs. apply in_map_iff in Hs as (c & <- & Hc).
  rewrite Forall_forall in HF. now rewrite (HF c Hc).
Qed.

(** C10.  On a line none of whose glyphs has a size, every size read
    is the average, so the dominant size is the average, the test
    [font_size > avg_font_size * 1.1] fails because the average is
    positive (with the exact product, and with the float product that the
    code computes, which is not below the average), and the line is a
    heading only when one of the four patterns matches its text. *)
Theorem C10_sizeless_line_needs_pattern (pages : list page)
    (line_chars : list char) (text : str) (page_width : Q)
    (Hglyphs : all_font_sizes pages <> [])
    (Hline : line_chars <> [])
    (Hsizeless : Forall (fun c => Char.size c = None) line_chars) :
  let avg := avg_font_size (all_font_sizes pages) in
  exists d,
    dominant_font_size set_iter avg line_chars = Some d /\
    d = avg /\
    Qlt_bool (avg * (11 # 10)) d = false /\
    Qlt_bool (Float.mul avg Float.one_point_one) d = false /\
    (is_potential_heading text d avg page_width = true ->
     Re.Matches pat_numbered (strip text) \/
     Re.Matches pat_title_case (strip text) \/
     Re.Matches pat_all_caps (strip text) \/
     Re.Matches pat_dotted (strip text)).
Proof.
  intros avg.
  set (font_sizes := map (fun c => Py.get (Char.size c) avg) line_chars).
  destruct (set_iter_ok font_sizes) as (Hin & Hall & _).
  assert (Hne : set_iter font_sizes <> []).
  { destruct line_chars as [|c cs]; [congruence|].
    assert (HA : InA Qeq (Py.get (Char.size c) avg) (set_iter font_sizes))
      by (apply Hall; now left).
    intros E. rewrite E in HA. inversion HA. }
  destruct (max_key_spec (fun s => Py.count s font_sizes) _ Hne)
    as (d & before & after & Hmax & Hsplit & _).
  assert (Hd : d = avg).
  { apply (sizeless_font_sizes avg line_chars Hsizeless).
    apply Hin. rewrite Hsplit. apply in_or_app. right. now left. }
  assert (Hpos : 0 < avg).
  { subst avg. apply avg_font_size_pos; [exact Hglyphs|].
    rewrite all_font_sizes_positive_sizes. apply positive_sizes_pos. }
  assert (Hrule : Qlt_bool (avg * (11 # 10)) d = false).
  { rewrite Hd. destruct (Qlt_bool (avg * (11 # 10)) avg) eqn:E; [|reflexivity].
    apply Qlt_bool_iff in E. exfalso.
    assert (Hle : avg * 1 <= avg * (11 # 10)).
    { apply Qmult_le_l; [exact Hpos|]. unfold Qle. simpl. lia. }
    rewrite Qmult_1_r in Hle. exact (Qlt_not_le _ _ E Hle). }
  assert (Hfloat : Qlt_bool (Float.mul avg Float.one_point_one) d = false).
  { rewrite Hd.
    destruct (Qlt_bool (Float.mul avg Float.one_point_one) avg) eqn:E;
      [|reflexivity].
    apply Qlt_bool_iff in E. exfalso.
    exact (Qlt_not_le _ _ E (mul_one_point_one_ge avg Hpos)). }
  exists d. split; [exact Hmax|]. split; [exact Hd|]. split; [exact Hrule|].
  split; [exact Hfloat|].
  intros Hhead. apply heading_by_pattern_or_size in Hhead as [Hpat|Hsize].
  - now apply heading_patterns_spec.
  - congruence.
Qed.

End Sizeless.

Lemma C10_sizeless_line_needs_pattern_witness :
  let pages :=
    [{| Page.width := 612;
        Page.chars := [sized "T" 12; sizeless "a" 72 700; sizeless "b" 80 700] |}] in
  let line_chars := [sizeless "a" 72 700; sizeless "b" 80 700] in
  let avg := avg_font_size (all_font_sizes pages) in
  all_font_sizes pages <> [] /\
  line_chars <> [] /\
  Forall (fun c => Char.size c = None) line_chars /\
  exists d,
    dominant_font_size first_seen avg line_chars = Some d /\
    d = avg /\
    Qlt_bool (avg * (11 # 10)) d = false /\
    Qlt_bool (Float.mul avg Float.one_point_one) d = false /\
    (is_potential_heading (lit "ab") d avg 612 = true ->
     Re.Matches pat_numbered (strip (lit "ab")) \/
     Re.Matches pat_title_case (strip (lit "ab")) \/
     Re.Matches pat_all_caps (strip (lit "ab")) \/
     Re.Matches pat_dotted (strip (lit "ab"))).
Proof.
  intros pages line_chars avg.
  assert (H1 : all_font_sizes pages <> []) by discriminate.
  assert (H2 : line_chars <> []) by discriminate.
  assert (H3 : Forall (fun c => Char.size c = None) line_chars)
    by (repeat constructor).
  split; [exact H1|]. split; [exact H2|]. split; [exact H3|].
  exact (C10_sizeless_line_needs_pattern first_seen first_seen_set_order pages
           line_chars (lit "ab") 612 H1 H2 H3).
Defined.

(** ** Order of the outline *)

Lemma tuple_lt_order (a b : heading) :
  tuple_lt (sort_key a) (sort_key b) = true -> outline_order a b.
Proof.
  unfold tuple_lt, sort_key, outline_order. simpl.
  destruct (Nat.eqb_spec (Heading.page a) (Heading.page b)) as [E|NE].
  - intros Hlt. apply Qlt_bool_iff in Hlt. right. split; [exact E|].
    apply Qlt_le_weak. apply Qopp_lt_compat in Hlt.
    now rewrite !Qopp_involutive in Hlt.
  - intros Hlt. apply Nat.ltb_lt in Hlt. now left.
Qed.

Lemma not_tuple_lt_order (a b : heading) :
  tuple_lt (sort_key a) (sort_key b) = false -> outline_order b a.
Proof.
  unfold tuple_lt, sort_key, outline_order. simpl.
  destruct (Nat.eqb_spec (Heading.page a) (Heading.page b)) as [E|NE].
  - intros Hlt. right. split; [now symmetry|].
    destruct (Qlt_le_dec (- Heading.font_size a) (- Heading.font_size b)) as [H|H].
    + apply Qlt_bool_iff in H. congruence.
    + apply Qopp_le_compat in H. now rewrite !Qopp_involutive in H.
  - intros Hlt. apply Nat.ltb_ge in Hlt. left. lia.
Qed.

Lemma outline_order_trans (a b c : heading) :
  outline_order a b -> outline_order b c -> outline_order a c.
Proof.
  unfold outline_order. intros [H1|[H1 H1']] [H2|[H2 H2']].
  - left. lia.
  - left. lia.
  - left. lia.
  - right. split; [congruence|]. now apply Qle_trans with (Heading.font_size b).
Qed.

Lemma sort_headings_sorted (l : list heading) :
  StronglySorted outline_order (sort_headings l).
Proof.
  apply sorted_sorted.
  - apply tuple_lt_order.
  - apply not_tuple_lt_order.
  - apply outline_order_trans.
Qed.

Lemma outline_order_page (l : list heading) :
  StronglySorted outline_order l -> StronglySorted le (map Heading.page l).
Proof.
  induction 1 as [|h l Hl IH Hh]; simpl; constructor; [exact IH|].
  apply Forall_forall. intros p Hp. apply in_map_iff in Hp as (h' & <- & Hh').
  rewrite Forall_forall in Hh. destruct (Hh h' Hh') as [H|[H _]]; lia.
Qed.

Lemma final_outline_pages (set_iter : list Q -> list Q) (l : list heading) :
  map Entry.page (final_outline set_iter l) = map Heading.page l.
Proof. unfold final_outline. rewrite map_map. reflexivity. Qed.

Lemma final_outline_texts (set_iter : list Q -> list Q) (l : list heading) :
  map Entry.text (final_outline set_iter l) = map Heading.text l.
Proof. unfold final_outline. rewrite map_map. reflexivity. Qed.

Example ordering_example :
  let h (p : nat) (s : Q) :=
    {| Heading.text := lit "Section"; Heading.page := p; Heading.font_size := s |} in
  sort_headings [h 2%nat 20; h 1%nat 14; h 1%nat 18] =
  [h 1%nat 18; h 1%nat 14; h 2%nat 20].
Proof. reflexivity. Qed.


(** ** Deduplication *)

Lemma str_eqb_eq (s t : str) : str_eqb s t = true <-> s = t.
Proof.
  revert t. induction s as [|c s IH]; intros [|d t]; simpl;
    try (split; [discriminate | congruence]); [tauto|].
  rewrite andb_true_iff, Ascii.eqb_eq, IH. split.
  - intros [-> ->]. reflexivity.
  - intros [= -> ->]. now split.
Qed.

Lemma seen_In (k : str) (seen_texts : list str) :
  seen k seen_texts = true <-> In k seen_texts.
Proof.
  unfold seen. rewrite existsb_exists. split.
  - intros (x & Hx & E). apply str_eqb_eq in E. now subst.
  - intros Hk. exists k. split; [exact Hk | now apply str_eqb_eq].
Qed.

Lemma keeps_spec (h : heading) (seen_texts : list str) :
  negb (seen (text_key h) seen_texts) && (2 <? List.length (text_key h))%nat = true
  <-> ~ In (text_key h) seen_texts /\ (2 < List.length (text_key h))%nat.
Proof.
  rewrite andb_true_iff, negb_true_iff, Nat.ltb_lt, <- seen_In.
  destruct (seen (text_key h) seen_texts); intuition congruence.
Qed.

Lemma dedup_loop_kept (l : list heading) :
  forall seen_texts unique,
    snd (fold_left dedup_step l (seen_texts, unique)) =
    unique ++ kept seen_texts l.
Proof.
  induction l as [|h l IH]; intros seen_texts unique; simpl.
  - now rewrite app_nil_r.
  - destruct (negb (seen (text_key h) seen_texts) &&
              (2 <? List.length (text_key h))%nat).
    + rewrite IH, <- app_assoc. reflexivity.
    + apply IH.
Qed.

Lemma unique_headings_kept (l : list heading) : unique_headings l = kept [] l.
Proof. unfold unique_headings. now rewrite dedup_loop_kept. Qed.

Lemma kept_subseq (l : list heading) :
  forall seen_texts, subseq (kept seen_texts l) l.
Proof.
  induction l as [|h l IH]; intros seen_texts; simpl; [constructor|].
  destruct (negb _ && _); constructor; apply IH.
Qed.

Lemma kept_first (l : list heading) :
  forall seen_texts h,
    In h (kept seen_texts l) ->
    ~ In (text_key h) seen_texts /\ (2 < List.length (text_key h))%nat /\
    first_occurrence h l.
Proof.
  induction l as [|h0 l IH]; intros seen_texts h; simpl; [tauto|].
  destruct (negb _ && _) eqn:E.
  - apply keeps_spec in E as [Hnew Hlen]. intros [<-|Hin].
    + repeat split; auto. exists [], l. split; [reflexivity | intros h' []].
    + apply IH in Hin as (Hns & Hl & before & after & -> & Hb).
      repeat split; auto.
      * intros Hs. apply Hns. now right.
      * exists (h0 :: before), after. split; [reflexivity|].
        intros h' [<-|Hh']; [|now apply Hb].
        intros Ek. apply Hns. now left.
  - intros Hin. apply IH in Hin as (Hns & Hl & before & after & -> & Hb).
    repeat split; auto.
    exists (h0 :: before), after. split; [reflexivity|].
    intros h' [<-|Hh']; [|now apply Hb].
    intros Ek. rewrite <- Ek in Hns, Hl.
    assert (Hk : negb (seen (text_key h0) seen_texts) &&
                 (2 <? List.length (text_key h0))%nat = true)
      by now apply keeps_spec.
    congruence.
Qed.

Lemma first_kept (before : list heading) :
  forall seen_texts h after,
    (forall h', In h' before -> text_key h' <> text_key h) ->
    ~ In (text_key h) seen_texts -> (2 < List.length (text_key h))%nat ->
    In h (kept seen_texts (before ++ h :: after)).
Proof.
  induction before as [|b before IH]; intros seen_texts h after Hb Hns Hl; simpl.
  - assert (Hk : negb (seen (text_key h) seen_texts) &&
                 (2 <? List.length (text_key h))%nat = true)
      by now apply keeps_spec.
    rewrite Hk. now left.
  - assert (Hbk : text_key b <> text_key h) by (apply Hb; now left).
    destruct (negb _ && _).
    + right. apply IH; auto.
      * intros h' Hh'. apply Hb. now right.
      * intros [E|Hs]; [now apply Hbk | now apply Hns].
    + apply IH; auto. intros h' Hh'. apply Hb. now right.
Qed.

Lemma kept_NoDup (l : list heading) :
  forall seen_texts, NoDup (map text_key (kept seen_texts l)).
Proof.
  induction l as [|h l IH]; intros seen_texts; simpl; [constructor|].
  destruct (negb _ && _); [|apply IH].
  simpl. constructor; [|apply IH].
  intros Hin. apply in_map_iff in Hin as (h' & Ek & Hh').
  apply kept_first in Hh' as (Hns & _). apply Hns. left. now symmetry.
Qed.

Example dedup_example :
  let first := {| Heading.text := lit "Introduction"; Heading.page := 2%nat;
                  Heading.font_size := 14 |} in
  let second := {| Heading.text := lit "introduction "; Heading.page := 5%nat;
                   Heading.font_size := 14 |} in
  unique_headings [first; second] = [first].
Proof. reflexivity. Qed.

(** ** Document order of the candidates *)

Section Candidates.

Variable set_iter : list Q -> list Q.

Lemma process_line_page (avg : Q) (page_num : nat) (w : Q) (cs : list char)
    (acc res : list heading) :
  process_line set_iter avg page_num w cs acc = Ok res ->
  exists new, res = acc ++ new /\
              Forall (fun h => Heading.page h = (page_num + 1)%nat) new.
Proof.
  unfold process_line.
  destruct (is_empty _).
  { intros [= <-]. exists []. now rewrite app_nil_r. }
  destruct (dominant_font_size _ _ _) as [d|]; [|discriminate].
  destruct (is_potential_heading _ _ _ _); intros [= <-].
  - eexists. split; [reflexivity|]. now repeat constructor.
  - exists []. now rewrite app_nil_r.
Qed.

Lemma for_each_page (page_num : nat)
    (body : Q -> list heading -> outcome (list heading)) (ys : list Q) :
  (forall y acc res, body y acc = Ok res ->
     exists new, res = acc ++ new /\
                 Forall (fun h => Heading.page h = (page_num + 1)%nat) new) ->
  forall acc res,
    for_each body ys acc = Ok res ->
    exists new, res = acc ++ new /\
                Forall (fun h => Heading.page h = (page_num + 1)%nat) new.
Proof.
  intros Hbody. induction ys as [|y ys IH]; intros acc res; simpl.
  - intros [= <-]. exists []. now rewrite app_nil_r.
  - destruct (body y acc) as [acc'|] eqn:E; simpl; [|discriminate].
    intros Hres. apply Hbody in E as (new1 & -> & H1).
    apply IH in Hres as (new2 & -> & H2).
    exists (new1 ++ new2). rewrite app_assoc. split; [reflexivity|].
    now apply Forall_app.
Qed.

Lemma process_page_page (avg : Q) (page_num : nat) (p : page)
    (acc res : list heading) :
  process_page set_iter avg page_num p acc = Ok res ->
  exists new, res = acc ++ new /\
              Forall (fun h => Heading.page h = (page_num + 1)%nat) new.
Proof.
  unfold process_page. destruct (is_empty (Page.chars p)).
  { intros [= <-]. exists []. now rewrite app_nil_r. }
  apply for_each_page. intros y acc' res'.
  destruct (Dict.item _ _) as [cs|]; [|discriminate].
  apply process_line_page.
Qed.

Lemma pages_sorted_app (n : nat) (l1 l2 : list heading) :
  Forall (fun h => Heading.page h = n) l1 ->
  Forall (fun h => (n <= Heading.page h)%nat) l2 ->
  StronglySorted le (map Heading.page l2) ->
  StronglySorted le (map Heading.page (l1 ++ l2)).
Proof.
  intros H1 H2 Hs. induction H1 as [|h l1 Hh H1 IH]; simpl; [exact Hs|].
  constructor; [exact IH|]. rewrite map_app. apply Forall_app. split.
  - apply Forall_forall. intros q Hq. apply in_map_iff in Hq as (h' & <- & Hh').
    rewrite Forall_forall in H1. rewrite (H1 h' Hh'). lia.
  - apply Forall_forall. intros q Hq. apply in_map_iff in Hq as (h' & <- & Hh').
    rewrite Forall_forall in H2. specialize (H2 h' Hh'). lia.
Qed.

Lemma second_pass_pages (avg : Q) (pages : list page) :
  forall page_num acc res,
    second_pass set_iter avg page_num pages acc = Ok res ->
    exists new, res = acc ++ new /\
                Forall (fun h => (page_num + 1 <= Heading.page h)%nat) new /\
                StronglySorted le (map Heading.page new).
Proof.
  induction pages as [|p pages IH]; intros page_num acc res; simpl.
  - intros [= <-]. exists []. rewrite app_nil_r. repeat constructor.
  - destruct (process_page set_iter avg page_num p acc) as [acc'|] eqn:E; simpl;
      [|discriminate].
    intros Hres. apply process_page_page in E as (new1 & -> & H1).
    apply IH in Hres as (new2 & -> & H2 & Hs2).
    exists (new1 ++ new2). rewrite app_assoc. split; [reflexivity|]. split.
    + apply Forall_app. split.
      * eapply Forall_impl; [|exact H1]. simpl. intros h ->. lia.
      * eapply Forall_impl; [|exact H2]. simpl. intros h Hh. lia.
    + apply (pages_sorted_app (page_num + 1)); auto.
      eapply Forall_impl; [|exact H2]. simpl. intros h Hh. lia.
Qed.

End Candidates.

(** ** The lines of a page *)

Lemma keys_append_InA {A : Type} (k : Q) (v : A) (d : Dict.dict A) (x : Q) :
  InA Qeq x (Dict.keys (Dict.append k v d)) <->
  InA Qeq x (Dict.keys d) \/ x == k.
Proof.
  induction d as [|[k' vs] d IH]; simpl.
  - split.
    + intros H. inversion H as [? ? E|? ? H']; subst; [now right | inversion H'].
    + intros [H|E]; [inversion H | now left].
  - destruct (Qeq_bool k' k) eqn:E; simpl.
    + apply Qeq_bool_iff in E. split; [now left|].
      intros [H|Ex]; [exact H|]. left. now rewrite Ex, E.
    + split.
      * intros H. inversion H as [? ? Ex|? ? H']; subst.
        -- left. now left.
        -- apply IH in H' as [H'|Ex]; [left; now right | now right].
      * intros [H|Ex].
        -- inversion H as [? ? Ex|? ? H']; subst; [now left|].
           right. apply IH. now left.
        -- right. apply IH. now right.
Qed.

Lemma keys_append_NoDupA {A : Type} (k : Q) (v : A) (d : Dict.dict A) :
  NoDupA Qeq (Dict.keys d) -> NoDupA Qeq (Dict.keys (Dict.append k v d)).
Proof.
  induction d as [|[k' vs] d IH]; simpl; intros Hd.
  - constructor; [intros H; inversion H | constructor].
  - destruct (Qeq_bool k' k) eqn:E; simpl; [exact Hd|].
    inversion Hd as [|? ? Hk' Hd']; subst. constructor; [|now apply IH].
    intros H. apply keys_append_InA in H as [H|Ex]; [now apply Hk'|].
    apply Qeq_bool_iff in Ex. congruence.
Qed.

Lemma keys_group_NoDupA {A : Type} (key : A -> Q) (l : list A) :
  NoDupA Qeq (Dict.keys (Dict.group key l)).
Proof.
  induction l as [|c l IH] using rev_ind; [constructor|].
  unfold Dict.group. rewrite fold_left_app. simpl.
  now apply keys_append_NoDupA.
Qed.

(** ** The outline of the content pipeline *)

Lemma outline_from_pages_shape (set_iter : list Q -> list Q) (pages : list page) :
  exists potential_headings,
    outline_from_pages set_iter pages =
      final_outline set_iter (sort_headings (unique_headings potential_headings)) /\
    StronglySorted le (map Heading.page potential_headings).
Proof.
  unfold outline_from_pages. destruct (is_empty (all_font_sizes pages)).
  { exists []. split; [reflexivity | constructor]. }
  destruct (second_pass _ _ _ _ _) as [potential|] eqn:E.
  - exists potential. split; [reflexivity|].
    apply second_pass_pages in E as (new & -> & _ & Hs). exact Hs.
  - exists []. split; [reflexivity | constructor].
Qed.

Lemma final_outline_keys (set_iter : list Q -> list Q) (l : list heading) :
  map (fun e => strip (lower (Entry.text e))) (final_outline set_iter l) =
  map text_key l.
Proof. unfold final_outline. rewrite map_map. reflexivity. Qed.

Lemma outline_keys_NoDup (set_iter : list Q -> list Q) (l : list heading) :
  NoDup (map (fun e => strip (lower (Entry.text e)))
             (final_outline set_iter (sort_headings (unique_headings l)))).
Proof.
  rewrite final_outline_keys.
  apply (Permutation_NoDup (l := map text_key (unique_headings l))).
  - apply Permutation_map. symmetry. apply sorted_perm.
  - rewrite unique_headings_kept. apply kept_NoDup.
Qed.

(** C5.  The sorted list of headings is a rearrangement of the
    deduplicated list in which pages ascend and, on one page, font sizes
    descend; the final outline has one entry per heading of that list, in
    that order, so its pages ascend; so do the pages of the outline that
    the content pipeline returns. *)
Theorem C5_outline_sorted (set_iter : list Q -> list Q)
    (unique_headings : list heading) :
  let sorted := sort_headings unique_headings in
  let outline := final_outline set_iter sorted in
  Permutation sorted unique_headings /\
  StronglySorted outline_order sorted /\
  map Entry.page outline = map Heading.page sorted /\
  map Entry.text outline = map Heading.text sorted /\
  StronglySorted le (map Entry.page outline) /\
  (forall pages,
      StronglySorted le (map Entry.page (outline_from_pages set_iter pages))).
Proof.
  intros sorted outline. split; [apply sorted_perm|].
  split; [apply sort_headings_sorted|].
  split; [apply final_outline_pages|].
  split; [apply final_outline_texts|].
  split.
  - subst outline. rewrite final_outline_pages.
    apply outline_order_page, sort_headings_sorted.
  - intros pages.
    destruct (outline_from_pages_shape set_iter pages) as (potential & -> & _).
    rewrite final_outline_pages.
    apply outline_order_page, sort_headings_sorted.
Qed.

(** ** Dictionaries of lists *)

Lemma Qeq_bool_trans_l (a b c : Q) :
  Qeq_bool a b = true -> Qeq_bool c a = Qeq_bool c b.
Proof.
  intros E. apply Qeq_bool_iff in E.
  destruct (Qeq_bool c a) eqn:Ea, (Qeq_bool c b) eqn:Eb; try reflexivity.
  - apply Qeq_bool_iff in Ea. rewrite E in Ea. apply Qeq_bool_iff in Ea. congruence.
  - apply Qeq_bool_iff in Eb. rewrite <- E in Eb. apply Qeq_bool_iff in Eb. congruence.
Qed.

Section DictFacts.

Context {A : Type}.

Lemma item_append (k k0 : Q) (v : A) (d : Dict.dict A) :
  Dict.item k (Dict.append k0 v d) =
  if Qeq_bool k0 k
  then Some (match Dict.item k d with Some vs => vs ++ [v] | None => [v] end)
  else Dict.item k d.
Proof.
  induction d as [|[k' vs] d IH]; simpl; [reflexivity|].
  destruct (Qeq_bool k' k0) eqn:E0; simpl;
    destruct (Qeq_bool k' k) eqn:Ek; destruct (Qeq_bool k0 k) eqn:E;
    try reflexivity; try exact IH; exfalso.
  - apply Qeq_bool_iff in E0, Ek. apply Qeq_bool_neq in E.
    apply E. now rewrite <- E0.
  - apply Qeq_bool_iff in E0, E. apply Qeq_bool_neq in Ek.
    apply Ek. now rewrite E0.
  - apply Qeq_bool_iff in Ek, E. apply Qeq_bool_neq in E0.
    apply E0. now rewrite Ek, E.
Qed.

Lemma group_snoc (key : A -> Q) (l : list A) (c : A) :
  Dict.group key (l ++ [c]) = Dict.append (key c) c (Dict.group key l).
Proof. unfold Dict.group. now rewrite fold_left_app. Qed.

Lemma item_group (key : A -> Q) (k : Q) (l : list A) :
  Dict.item k (Dict.group key l) =
  if existsb (fun c => Qeq_bool (key c) k) l
  then Some (filter (fun c => Qeq_bool (key c) k) l)
  else None.
Proof.
  induction l as [|c l IH] using rev_ind; [reflexivity|].
  rewrite group_snoc, item_append, IH, existsb_app, filter_app. simpl.
  destruct (Qeq_bool (key c) k); simpl.
  - rewrite orb_true_r.
    destruct (existsb _ l) eqn:E; [reflexivity|].
    assert (Hnil : filter (fun c0 => Qeq_bool (key c0) k) l = []).
    { clear IH. induction l as [|x l IHl]; [reflexivity|].
      simpl in E. apply orb_false_iff in E as [Ex El].
      simpl. rewrite Ex. now apply IHl. }
    now rewrite Hnil.
  - rewrite orb_false_r, app_nil_r. reflexivity.
Qed.

Lemma item_keys (k : Q) (d : Dict.dict A) :
  Dict.item k d <> None <-> InA Qeq k (Dict.keys d).
Proof.
  induction d as [|[k' vs] d IH]; simpl.
  - split; [congruence | intros H; inversion H].
  - destruct (Qeq_bool k' k) eqn:E.
    + split; [|discriminate]. intros _. left. symmetry. now apply Qeq_bool_iff.
    + rewrite IH. split; [now right|].
      intros H. inversion H as [? ? E'|]; subst; [|assumption].
      symmetry in E'. apply Qeq_bool_iff in E'. congruence.
Qed.

Lemma keys_group (key : A -> Q) (k : Q) (l : list A) :
  InA Qeq k (Dict.keys (Dict.group key l)) <-> InA Qeq k (map key l).
Proof.
  rewrite <- item_keys, item_group, InA_Qeq_In.
  destruct (existsb _ l) eqn:E.
  - split; [|discriminate]. intros _.
    apply existsb_exists in E as (c & Hc & Ec).
    exists (key c). split; [now apply in_map | now apply Qeq_bool_iff].
  - split; [congruence|]. intros (y & Hy & Ey).
    apply in_map_iff in Hy as (c & <- & Hc).
    assert (existsb (fun c => Qeq_bool (key c) k) l = true); [|congruence].
    apply existsb_exists. exists c. split; [exact Hc | now apply Qeq_bool_iff].
Qed.

End DictFacts.

(** ** Largest size *)

Lemma max_fold (rest : list Q) :
  forall best,
    let m := fold_left (fun best y => if Qlt_bool best y then y else best)
                       rest best in
    In m (best :: rest) /\ best <= m /\ forall y, In y rest -> y <= m.
Proof.
  induction rest as [|x rest IH]; intros best; simpl.
  - split; [now left|]. split; [apply Qle_refl | tauto].
  - destruct (Qlt_bool best x) eqn:E.
    + apply Qlt_bool_iff in E. destruct (IH x) as (Hin & Hle & Hall).
      split; [now right|]. split.
      * apply Qle_trans with x; [now apply Qlt_le_weak | exact Hle].
      * intros y [<-|Hy]; [exact Hle | now apply Hall].
    + assert (Hx : x <= best).
      { destruct (Qlt_le_dec best x) as [H|H]; [|exact H].
        apply Qlt_bool_iff in H. congruence. }
      destruct (IH best) as (Hin & Hle & Hall).
      split; [destruct Hin as [<-|Hin]; [now left | right; now right]|].
      split; [exact Hle|].
      intros y [<-|Hy]; [now apply Qle_trans with best | now apply Hall].
Qed.

Lemma max_spec (l : list Q) :
  l <> [] ->
  exists m, Py.max l = Some m /\ In m l /\ forall y, In y l -> y <= m.
Proof.
  destruct l as [|x rest]; [congruence|]. intros _.
  destruct (max_fold rest x) as (Hin & Hle & Hall).
  eexists. split; [reflexivity|]. split; [exact Hin|].
  intros y [<-|Hy]; [exact Hle | now apply Hall].
Qed.

Lemma Qmax_fold_spec (l : list Q) (x0 : Q) :
  let M := fold_right Qmax x0 l in
  InA Qeq M (x0 :: l) /\ x0 <= M /\ forall y, In y l -> y <= M.
Proof.
  induction l as [|x l IH]; simpl.
  - split; [now left|]. split; [apply Qle_refl | tauto].
  - destruct IH as (Hin & Hle & Hall).
    destruct (Q.max_spec x (fold_right Qmax x0 l)) as [[Hlt E]|[Hge E]].
    + split.
      * rewrite E. inversion Hin; subst; [now left | right; now right].
      * split; [now rewrite E|].
        intros y Hy. rewrite E.
        destruct Hy as [<-|Hy]; [now apply Qlt_le_weak | now apply Hall].
    + split.
      * right. left. exact E.
      * split; [rewrite E; now apply Qle_trans with (fold_right Qmax x0 l)|].
        intros y Hy. rewrite E. destruct Hy as [<-|Hy]; [apply Qle_refl|].
        apply Qle_trans with (fold_right Qmax x0 l); [now apply Hall | exact Hge].
Qed.

(** ** Title Resolver *)

Lemma first_title_line_ok (lines : list str) :
  first_title_line lines = first_line_ok lines.
Proof.
  unfold first_line_ok. induction lines as [|line lines IH]; simpl; [reflexivity|].
  unfold trimmed_length_ok at 1. rewrite IH.
  destruct (Nat.ltb_spec 5 (List.length (strip line)));
    destruct (Nat.ltb_spec (List.length (strip line)) 150);
    destruct (Nat.leb_spec 6 (List.length (strip line)));
    destruct (Nat.leb_spec (List.length (strip line)) 149);
    simpl; try reflexivity; lia.
Qed.

Lemma first_line_ok_length (lines : list str) (t : str) :
  first_line_ok lines = Some t -> (6 <= List.length t <= 149)%nat.
Proof.
  unfold first_line_ok. destruct (find trimmed_length_ok lines) as [line|] eqn:E;
    [|discriminate].
  intros [= <-]. apply find_some in E as [_ E]. unfold trimmed_length_ok in E.
  apply andb_true_iff in E as [E1 E2].
  apply Nat.leb_le in E1, E2. lia.
Qed.

Lemma largest_group (c : char) (cs : list char) :
  title_from_largest_font (c :: cs) =
  Ok (first_line_ok
        (split_lines
           (strip
              (join
                 (map Char.text
                    (filter
                       (fun x =>
                          Qeq_bool (size_or_zero x)
                            (fold_right Qmax (size_or_zero c)
                               (map size_or_zero (c :: cs))))
                       (c :: cs))))))).
Proof.
  unfold title_from_largest_font.
  set (chars := c :: cs).
  set (key := fun char : char => Py.get (Char.size char) 0).
  set (font_sizes := Dict.group key chars).
  change (map size_or_zero chars) with (map key chars).
  change (size_or_zero c) with (key c).
  change (fun x : char => Qeq_bool (size_or_zero x) (fold_right Qmax (key c) (map key chars)))
    with (fun x : char => Qeq_bool (key x) (fold_right Qmax (key c) (map key chars))).
  set (M := fold_right Qmax (key c) (map key chars)).
  assert (Hc : InA Qeq (key c) (Dict.keys font_sizes)).
  { apply keys_group. left. reflexivity. }
  assert (Hne : Dict.keys font_sizes <> []).
  { intros E. rewrite E in Hc. inversion Hc. }
  assert (Hdict : is_empty font_sizes = false).
  { destruct font_sizes; [now elim Hne | reflexivity]. }
  rewrite Hdict.
  destruct (max_spec _ Hne) as (m & -> & Hm & Hmax).
  assert (HmA : InA Qeq m (map key chars)).
  { apply keys_group. apply InA_Qeq_In. exists m. split; [exact Hm | reflexivity]. }
  destruct (Qmax_fold_spec (map key chars) (key c)) as (HM & _ & HMall). fold M in HM, HMall.
  assert (E : m == M).
  { apply Qle_antisym.
    - apply InA_Qeq_In in HmA as (y & Hy & <-). now apply HMall.
    - assert (HM' : InA Qeq M (map key chars)).
      { inversion HM as [? ? E'|]; subst; [|assumption]. left. exact E'. }
      apply (keys_group key M chars), InA_Qeq_In in HM' as (k & Hk & <-).
      now apply Hmax. }
  unfold font_sizes. rewrite item_group.
  assert (Hex : existsb (fun c0 => Qeq_bool (key c0) m) chars = true).
  { apply InA_Qeq_In in HmA as (y & Hy & Ey).
    apply in_map_iff in Hy as (c0 & <- & Hc0).
    apply existsb_exists. exists c0. split; [exact Hc0 | now apply Qeq_bool_iff]. }
  rewrite Hex, first_title_line_ok.
  do 6 f_equal. apply filter_ext. intros x.
  apply Qeq_bool_trans_l. now apply Qeq_bool_iff.
Qed.

Section Title.

Variable extract_text : list char -> str.
Hypothesis extract_text_nil : extract_text [] = [].

Lemma metadata_step (d : pdf) :
  extract_title_from_metadata d = title_step_metadata d.
Proof.
  unfold extract_title_from_metadata, title_step_metadata.
  destruct (metadata d) as [[[t|]|]|]; reflexivity.
Qed.

Lemma metadata_step_nonempty (d : pdf) (t : str) :
  title_step_metadata d = Some t -> t <> [].
Proof.
  unfold title_step_metadata. destruct (metadata d) as [[[t'|]|]|]; try discriminate.
  destruct (strip t') eqn:E; simpl; [discriminate|]. now intros [= <-].
Qed.

Lemma content_steps (d : pdf) :
  extract_title_from_content extract_text d =
  match title_step_largest_font d with
  | Some t => Some t
  | None => title_step_text extract_text d
  end.
Proof.
  unfold extract_title_from_content, title_step_largest_font, title_step_text.
  destruct (pages d) as [[|first_page rest]|]; try reflexivity.
  destruct (Page.chars first_page) as [|c cs] eqn:Echars.
  - simpl. now rewrite extract_text_nil.
  - cbn [is_empty]. rewrite largest_group.
    destruct (first_line_ok _) as [line|]; [reflexivity|].
    unfold title_from_text. rewrite Echars.
    destruct (extract_text (c :: cs)) as [|a text]; [reflexivity|].
    cbn [is_empty]. apply first_title_line_ok.
Qed.

Lemma content_steps_nonempty (d : pdf) (t : str) :
  extract_title_from_content extract_text d = Some t -> t <> [].
Proof.
  rewrite content_steps. intros Ht.
  assert (Hlen : (6 <= List.length t <= 149)%nat).
  { destruct (title_step_largest_font d) as [t'|] eqn:E2.
    - inversion Ht; subst. unfold title_step_largest_font in E2.
      destruct (pages d) as [[|p ps]|]; try discriminate.
      destruct (Page.chars p); [discriminate|].
      now apply first_line_ok_length in E2.
    - unfold title_step_text in Ht.
      destruct (pages d) as [[|p ps]|]; try discriminate.
      now apply first_line_ok_length in Ht. }
  destruct t; [simpl in Hlen; lia | discriminate].
Qed.

(** C6.  The title is the first success of the chain: the title of the
    metadata, trimmed, if it is not empty; else, on the first page, the
    first line of the text of the glyphs of the largest size whose trimmed
    length is between 6 and 149; else the first such line of the text of
    the first page; else ["Untitled Document"].  A step that fails counts
    as no result, and the title is never empty.  The lines of a text are
    the pieces between its line feeds, and trimming takes the white space
    off the two ends. *)
Theorem C6_title_chain (d : pdf) :
  extract_title extract_text d = title_chain extract_text d /\
  extract_title extract_text d <> [] /\
  (forall text lines, Lines_of text lines <-> lines = split_lines text) /\
  (forall text t, Trimmed_of text t <-> t = strip text).
Proof.
  assert (Hfacts :
      (forall text lines, Lines_of text lines <-> lines = split_lines text) /\
      (forall text t, Trimmed_of text t <-> t = strip text)).
  { split.
    - intros text lines. split; [apply lines_of_split|].
      intros ->. apply split_lines_spec.
    - intros text t. split; [apply trimmed_strip|].
      intros ->. apply strip_trimmed. }
  rewrite <- and_assoc. split; [|exact Hfacts].
  assert (Heq : extract_title extract_text d = title_chain extract_text d).
  { unfold extract_title, title_chain. cbv zeta.
    rewrite metadata_step.
    destruct (title_step_metadata d) as [t|] eqn:E1.
    - apply metadata_step_nonempty in E1. destruct t; [congruence | reflexivity].
    - cbn [truthy first_success].
      pose proof (content_steps_nonempty d) as Hne.
      rewrite content_steps in *.
      destruct (title_step_largest_font d) as [t|].
      + specialize (Hne t eq_refl). destruct t; [congruence | reflexivity].
      + cbn [first_success].
        destruct (title_step_text extract_text d) as [t|]; [|reflexivity].
        specialize (Hne t eq_refl). destruct t; [congruence | reflexivity]. }
  split; [exact Heq|]. rewrite Heq. unfold title_chain. cbn [first_success].
  destruct (title_step_metadata d) as [t|] eqn:E1;
    [now apply metadata_step_nonempty in E1|].
  pose proof (content_steps_nonempty d) as Hne. rewrite content_steps in Hne.
  destruct (title_step_largest_font d) as [t|]; [now apply Hne|].
  destruct (title_step_text extract_text d) as [t|]; [now apply Hne|].
  discriminate.
Qed.

End Title.

Example metadata_title_example :
  extract_title plain_text
    {| metadata := Ok (Some (Some (lit "  Annual Report 2024 ")));
       outline := Ok [];
       pages := Ok [{| Page.width := 612; Page.chars := glyphs "Body text" 10 |}] |}
  = lit "Annual Report 2024".
Proof. reflexivity. Qed.

Example largest_font_title_example :
  extract_title plain_text
    {| metadata := Ok None;
       outline := Ok [];
       pages := Ok [{| Page.width := 612;
                       Page.chars := glyphs "small print " 8 ++
                                     glyphs "Quarterly Review" 24 ++
                                     glyphs " more small print" 8 |}] |}
  = lit "Quarterly Review".
Proof. reflexivity. Qed.

Example untitled_example :
  extract_title plain_text
    {| metadata := Raised; outline := Raised; pages := Ok [] |}
  = lit "Untitled Document".
Proof. reflexivity. Qed.

Lemma C6_title_chain_witness :
  let d := {| metadata := Ok (Some None);
              outline := Ok [];
              pages := Ok [{| Page.width := 612;
                              Page.chars := glyphs "Big" 24 ++
                                            glyphs "A line of body text" 10 |}] |} in
  plain_text [] = [] /\
  extract_title plain_text d = title_chain plain_text d /\
  extract_title plain_text d <> [] /\
  (forall text lines, Lines_of text lines <-> lines = split_lines text) /\
  (forall text t, Trimmed_of text t <-> t = strip text).
Proof.
  intros d. split; [reflexivity|].
  exact (C6_title_chain plain_text eq_refl d).
Defined.

(** ** The content pipeline on a document of two pages *)

Example content_outline_example :
  let page1 :=
    {| Page.width := 612;
       Page.chars :=
         rev (typeset "the body of the first section is here" 10 650) ++
         typeset "1. Introduction" 14 700 ++
         typeset "Annual Report" 24 750 ++
         typeset "   " 10 600 |} in
  let page2 :=
    {| Page.width := 612;
       Page.chars :=
         typeset "more body text follows on this page" 10 720 ++
         typeset "introduction" 18 700 ++
         typeset "2.1 Details" 12 650 ++
         typeset "SUMMARY" 10 500 |} in
  outline_from_pages CPython.set_iter [page1; page2] =
  [ {| Entry.level := lit "H1"; Entry.text := lit "Annual Report";
       Entry.page := 1%nat |};
    {| Entry.level := lit "H3"; Entry.text := lit "1. Introduction";
       Entry.page := 1%nat |};
    {| Entry.level := lit "H2"; Entry.text := lit "introduction";
       Entry.page := 2%nat |};
    {| Entry.level := lit "H3"; Entry.text := lit "2.1 Details";
       Entry.page := 2%nat |};
    {| Entry.level := lit "H3"; Entry.text := lit "SUMMARY";
       Entry.page := 2%nat |} ].
Proof. vm_compute. reflexivity. Qed.

(** * Further properties of the code *)

(** ** Heading Classifier *)

(** X1.  White space around the text of a line and the width of the
    page have no influence on the classification of the line. *)
Theorem X1_classifier_ignores_padding (pre text post : str)
    (size avg width width' : Q)
    (Hpre : forallb is_space pre = true)
    (Hpost : forallb is_space post = true) :
  is_potential_heading (pre ++ text ++ post) size avg width =
  is_potential_heading text size avg width'.
Proof.
  unfold is_potential_heading. cbv zeta.
  now rewrite (strip_padding pre text post Hpre Hpost).
Qed.

Lemma X1_classifier_ignores_padding_witness :
  forallb is_space (lit "  ") = true /\
  forallb is_space (lit " ") = true /\
  is_potential_heading (lit "  " ++ lit "1. Scope" ++ lit " ") 10 10 612 =
  is_potential_heading (lit "1. Scope") 10 10 595.
Proof.
  assert (H1 : forallb is_space (lit "  ") = true) by reflexivity.
  assert (H2 : forallb is_space (lit " ") = true) by reflexivity.
  split; [exact H1|]. split; [exact H2|].
  exact (X1_classifier_ignores_padding (lit "  ") (lit "1. Scope") (lit " ")
           10 10 612 595 H1 H2).
Defined.

(** X2.  A line that is a heading stays one when its font size grows or
    when the average font size shrinks. *)
Theorem X2_classifier_monotone (text : str) (size size' avg avg' width : Q)
    (Hsize : size <= size') (Havg : avg' <= avg)
    (Hheading : is_potential_heading text size avg width = true) :
  is_potential_heading text size' avg' width = true.
Proof.
  revert Hheading. unfold is_potential_heading. cbv zeta.
  destruct (_ || _); [discriminate|].
  destruct (_ && _); [discriminate|].
  destruct (existsb _ heading_patterns); [reflexivity|].
  destruct (Qlt_bool (Float.mul avg Float.one_point_one) size) eqn:E;
    [|discriminate].
  intros _. apply Qlt_bool_iff in E.
  assert (E' : Float.mul avg' Float.one_point_one < size').
  { apply Qle_lt_trans with (Float.mul avg Float.one_point_one).
    - apply round_le, Qmult_le_compat_r; [exact Havg | discriminate].
    - now apply Qlt_le_trans with size. }
  apply Qlt_bool_iff in E'. now rewrite E'.
Qed.

Lemma X2_classifier_monotone_witness :
  12 <= 14 /\ 9 <= 10 /\
  is_potential_heading (lit "the quick brown fox") 12 10 612 = true /\
  is_potential_heading (lit "the quick brown fox") 14 9 612 = true.
Proof.
  assert (H1 : 12 <= 14) by (unfold Qle; simpl; lia).
  assert (H2 : 9 <= 10) by (unfold Qle; simpl; lia).
  assert (H3 : is_potential_heading (lit "the quick brown fox") 12 10 612 = true)
    by (vm_compute; reflexivity).
  split; [exact H1|]. split; [exact H2|]. split; [exact H3|].
  exact (X2_classifier_monotone (lit "the quick brown fox") 12 14 10 9 612 H1 H2 H3).
Defined.

(** ** Font-Size Hierarchy Mapper *)

Lemma index_Forall2 (x : Q) (l1 l2 : list Q) :
  Forall2 Qeq l1 l2 -> Py.index x l1 = Py.index x l2.
Proof.
  induction 1 as [|a b l1 l2 E _ IH]; simpl; [reflexivity|].
  rewrite IH. destruct (Qeq_bool a x) eqn:Ea, (Qeq_bool b x) eqn:Eb; try reflexivity.
  - apply Qeq_bool_iff in Ea. apply Qeq_bool_neq in Eb. elim Eb. now rewrite <- E.
  - apply Qeq_bool_iff in Eb. apply Qeq_bool_neq in Ea. elim Ea. now rewrite E.
Qed.

Lemma index_absent (x : Q) (l : list Q) : ~ InA Qeq x l -> Py.index x l = None.
Proof.
  induction l as [|a l IH]; intros Hx; simpl; [reflexivity|].
  destruct (Qeq_bool a x) eqn:E.
  - elim Hx. left. symmetry. now apply Qeq_bool_iff.
  - rewrite IH; [reflexivity|]. intros H. apply Hx. now right.
Qed.

Lemma short_list_equal (l : list Q) (a b : Q) :
  (List.length l <= 1)%nat -> InA Qeq a l -> InA Qeq b l -> a == b.
Proof.
  destruct l as [|x [|y l]]; simpl; intros Hlen Ha Hb; try lia.
  - inversion Ha.
  - inversion Ha as [? ? Ea|? ? Ha']; subst; [|inversion Ha'].
    inversion Hb as [? ? Eb|? ? Hb']; subst; [|inversion Hb'].
    now rewrite Ea, Eb.
Qed.

Section MapperFacts.

Variable set_iter : list Q -> list Q.
Hypothesis set_iter_ok : set_order set_iter.

Lemma sorted_sizes_InA (l : list Q) (x : Q) :
  InA Qeq x (sorted_sizes set_iter l) <-> InA Qeq x l.
Proof. apply (sorted_sizes_distinct_descending set_iter set_iter_ok). Qed.

Lemma one_size_short (l : list Q) :
  (forall a b, In a l -> In b l -> a == b) ->
  (List.length (sorted_sizes set_iter l) <= 1)%nat.
Proof.
  intros Hone.
  destruct (sorted_sizes_distinct_descending set_iter set_iter_ok l) as [HS Hin].
  destruct (sorted_sizes set_iter l) as [|x [|y r]] eqn:E; simpl; try lia.
  exfalso.
  assert (Hx : InA Qeq x l) by (apply Hin; now left).
  assert (Hy : InA Qeq y l) by (apply Hin; right; now left).
  apply InA_Qeq_In in Hx as (a & Ha & Ea). apply InA_Qeq_In in Hy as (b & Hb & Eb).
  apply StronglySorted_inv in HS as [_ HS]. inversion HS as [|? ? Hlt _]; subst.
  rewrite <- Ea, <- Eb, (Hone a b Ha Hb) in Hlt. exact (Qlt_irrefl _ Hlt).
Qed.

Lemma two_sizes_long (l : list Q) (a b : Q) :
  In a l -> In b l -> ~ a == b ->
  (1 < List.length (sorted_sizes set_iter l))%nat.
Proof.
  intros Ha Hb Hab.
  destruct (Nat.le_gt_cases (List.length (sorted_sizes set_iter l)) 1) as [Hle|];
    [exfalso | assumption].
  apply Hab. apply (short_list_equal _ a b Hle); apply sorted_sizes_InA;
    apply InA_Qeq_In; [exists a | exists b]; split; auto; reflexivity.
Qed.

(** X4.  The edges of [get_heading_level].  When the list holds at most
    one distinct size the answer is H1 for every size asked, in the list or
    not.  When it holds two different sizes, a size that is not in the list
    gets H3. *)
Theorem X4_heading_level_edges (font_size_hierarchy : list Q) :
  ((forall a b, In a font_size_hierarchy -> In b font_size_hierarchy -> a == b) ->
   forall font_size,
     get_heading_level set_iter font_size font_size_hierarchy = lit "H1") /\
  (forall a b font_size,
      In a font_size_hierarchy -> In b font_size_hierarchy -> ~ a == b ->
      ~ InA Qeq font_size font_size_hierarchy ->
      heading_level_path set_iter font_size font_size_hierarchy = Value_error /\
      get_heading_level set_iter font_size font_size_hierarchy = lit "H3").
Proof.
  split.
  - intros Hone font_size. apply one_size_short in Hone.
    unfold get_heading_level, heading_level_path.
    destruct (Nat.leb_spec (List.length (sorted_sizes set_iter font_size_hierarchy)) 1);
      [reflexivity | lia].
  - intros a b font_size Ha Hb Hab Habsent.
    pose proof (two_sizes_long _ a b Ha Hb Hab) as Hlen.
    assert (Hpath : heading_level_path set_iter font_size font_size_hierarchy
                    = Value_error).
    { unfold heading_level_path.
      destruct (Nat.leb_spec (List.length (sorted_sizes set_iter font_size_hierarchy)) 1);
        [lia|].
      rewrite index_absent; [reflexivity|]. now rewrite sorted_sizes_InA. }
    split; [exact Hpath|]. unfold get_heading_level. now rewrite Hpath.
Qed.

End MapperFacts.

Lemma X4_heading_level_edges_witness :
  set_order first_seen /\
  get_heading_level first_seen 99 [12; 12 # 1; 24 # 2] = lit "H1" /\
  get_heading_level first_seen 13 [18; 12] = lit "H3".
Proof.
  split; [exact first_seen_set_order|].
  destruct (X4_heading_level_edges first_seen first_seen_set_order [12; 12 # 1; 24 # 2])
    as [Hone _].
  destruct (X4_heading_level_edges first_seen first_seen_set_order [18; 12])
    as [_ Htwo].
  split.
  - apply Hone. intros a b Ha Hb. simpl in Ha, Hb.
    repeat (destruct Ha as [<-|Ha]); try contradiction;
      repeat (destruct Hb as [<-|Hb]); try contradiction; reflexivity.
  - apply (Htwo 18 12 13); simpl; auto.
    + intros E. discriminate E.
    + intros H. apply InA_Qeq_In in H as (y & Hy & E). simpl in Hy.
      destruct Hy as [<-|[<-|[]]]; discriminate E.
Defined.

(** X3.  The level of a size depends on the hierarchy list only through
    the set of its sizes: neither the order of the list, nor repetitions
    in it, nor the order in which the set of sizes is iterated change
    it. *)
Theorem X3_heading_level_of_set (set_iter1 set_iter2 : list Q -> list Q)
    (l1 l2 : list Q) (font_size : Q)
    (H1 : set_order set_iter1) (H2 : set_order set_iter2)
    (Hsame : forall x, InA Qeq x l1 <-> InA Qeq x l2) :
  get_heading_level set_iter1 font_size l1 =
  get_heading_level set_iter2 font_size l2.
Proof.
  destruct (sorted_sizes_distinct_descending set_iter1 H1 l1) as [HS1 Hin1].
  destruct (sorted_sizes_distinct_descending set_iter2 H2 l2) as [HS2 Hin2].
  assert (HF : Forall2 Qeq (sorted_sizes set_iter1 l1) (sorted_sizes set_iter2 l2)).
  { apply strict_desc_unique; auto. intros x. now rewrite Hin1, Hin2. }
  unfold get_heading_level, heading_level_path.
  rewrite (Forall2_length HF), (index_Forall2 font_size _ _ HF). reflexivity.
Qed.

Lemma last_seen_set_order : set_order (fun l => first_seen (rev l)).
Proof.
  intros l. repeat split.
  - intros x Hx. apply in_rev. now apply first_seen_In.
  - intros x Hx. apply first_seen_all. now apply -> in_rev.
  - apply first_seen_NoDupA.
Qed.

Lemma X3_heading_level_of_set_witness :
  let l1 : list Q := [18; 12; 18; 14] in
  let l2 : list Q := [14; 12; 18] in
  set_order first_seen /\
  set_order (fun l => first_seen (rev l)) /\
  (forall x, InA Qeq x l1 <-> InA Qeq x l2) /\
  get_heading_level first_seen 14 l1 =
  get_heading_level (fun l => first_seen (rev l)) 14 l2.
Proof.
  intros l1 l2.
  assert (Hsame : forall x, InA Qeq x l1 <-> InA Qeq x l2).
  { intros x. rewrite !InA_Qeq_In. subst l1 l2. simpl.
    split; intros (y & Hy & E); exists y; split; auto;
      repeat (destruct Hy as [<-|Hy]; [tauto|]); destruct Hy. }
  split; [exact first_seen_set_order|].
  split; [exact last_seen_set_order|].
  split; [exact Hsame|].
  exact (X3_heading_level_of_set first_seen (fun l => first_seen (rev l)) l1 l2 14
           first_seen_set_order last_seen_set_order Hsame).
Defined.

(** ** Deduplication and sorting *)

Lemma kept_fixed (l : list heading) :
  forall seen_texts,
    NoDup (map text_key l) ->
    (forall h, In h l ->
               ~ In (text_key h) seen_texts /\ (2 < List.length (text_key h))%nat) ->
    kept seen_texts l = l.
Proof.
  induction l as [|h l IH]; intros seen_texts Hnd Hall; simpl; [reflexivity|].
  inversion Hnd as [|? ? Hh Hnd']; subst.
  assert (Hk : negb (seen (text_key h) seen_texts) &&
               (2 <? List.length (text_key h))%nat = true)
    by (apply keeps_spec, Hall; now left).
  rewrite Hk. f_equal. apply IH; [exact Hnd'|].
  intros h' Hh'. destruct (Hall h' (or_intror Hh')) as [Hns Hl]. split; [|exact Hl].
  intros [E|Hs]; [|now apply Hns].
  apply Hh. rewrite E. now apply in_map.
Qed.

Lemma unique_headings_fixed (l : list heading) :
  NoDup (map text_key l) ->
  (forall h, In h l -> (2 < List.length (text_key h))%nat) ->
  unique_headings l = l.
Proof.
  intros Hnd Hlen. rewrite unique_headings_kept. apply kept_fixed; [exact Hnd|].
  intros h Hh. split; [intros [] | now apply Hlen].
Qed.

Lemma order_not_before (a b : heading) :
  outline_order a b -> tuple_lt (sort_key b) (sort_key a) = false.
Proof.
  unfold outline_order, tuple_lt, sort_key. simpl. intros [Hlt|[E Hle]].
  - destruct (Nat.eqb_spec (Heading.page b) (Heading.page a)); [lia|].
    apply Nat.ltb_ge. lia.
  - rewrite E, Nat.eqb_refl.
    destruct (Qlt_bool (- Heading.font_size b) (- Heading.font_size a)) eqn:El;
      [|reflexivity].
    apply Qlt_bool_iff, Qopp_lt_compat in El. rewrite !Qopp_involutive in El.
    exfalso. exact (Qlt_not_le _ _ El Hle).
Qed.

Lemma sort_headings_fixed (l : list heading) :
  StronglySorted outline_order l -> sort_headings l = l.
Proof.
  unfold sort_headings. induction 1 as [|x l Hl IH Hx]; simpl; [reflexivity|].
  rewrite IH. destruct l as [|y l']; [reflexivity|]. simpl.
  inversion Hx as [|? ? Hxy _]; subst. now rewrite (order_not_before x y Hxy).
Qed.

(** X5.  Removing the duplicates a second time changes nothing, and
    neither does running the whole post-processing -- removing the
    duplicates, then sorting -- on its own result. *)
Theorem X5_postprocessing_idempotent (potential_headings : list heading) :
  unique_headings (unique_headings potential_headings) =
    unique_headings potential_headings /\
  sort_headings
    (unique_headings (sort_headings (unique_headings potential_headings))) =
    sort_headings (unique_headings potential_headings).
Proof.
  assert (Hlen : forall h, In h (unique_headings potential_headings) ->
                           (2 < List.length (text_key h))%nat).
  { intros h Hh. rewrite unique_headings_kept in Hh.
    now apply kept_first in Hh as (_ & Hl & _). }
  assert (Hnd : NoDup (map text_key (unique_headings potential_headings))).
  { rewrite unique_headings_kept. apply kept_NoDup. }
  split.
  - now apply unique_headings_fixed.
  - rewrite (unique_headings_fixed (sort_headings _)).
    + apply sort_headings_fixed, sort_headings_sorted.
    + apply (Permutation_NoDup (l := map text_key (unique_headings potential_headings)));
        [|exact Hnd].
      apply Permutation_map. symmetry. apply sorted_perm.
    + intros h Hh. apply Hlen. unfold sort_headings in Hh.
      now apply sorted_In in Hh.
Qed.

Lemma insert_filter_stable {A : Type} (before : A -> A -> bool) (P : A -> bool)
    (x : A) (l : list A) :
  (forall a b, P a = true -> P b = true -> before a b = false) ->
  filter P (Py.insert before x l) = filter P (x :: l).
Proof.
  intros Hclass. induction l as [|y l IH]; simpl; [reflexivity|].
  destruct (before y x) eqn:E; [|reflexivity].
  simpl. rewrite IH. simpl.
  destruct (P x) eqn:Px, (P y) eqn:Py; try reflexivity.
  rewrite (Hclass y x Py Px) in E. discriminate.
Qed.

Lemma sorted_filter_stable {A : Type} (before : A -> A -> bool) (P : A -> bool)
    (l : list A) :
  (forall a b, P a = true -> P b = true -> before a b = false) ->
  filter P (Py.sorted before l) = filter P l.
Proof.
  intros Hclass. induction l as [|x l IH]; simpl; [reflexivity|].
  rewrite (insert_filter_stable before P x _ Hclass). simpl. now rewrite IH.
Qed.

(** X6.  The sort is stable: the headings of one page that have the
    same font size stay in the order in which they were found. *)
Theorem X6_sort_stable (unique_headings : list heading) (p : nat) (s : Q) :
  filter (same_page_and_size p s) (sort_headings unique_headings) =
  filter (same_page_and_size p s) unique_headings.
Proof.
  apply sorted_filter_stable. intros a b Ha Hb.
  unfold same_page_and_size in Ha, Hb.
  apply andb_true_iff in Ha as [Pa Sa]. apply andb_true_iff in Hb as [Pb Sb].
  apply Nat.eqb_eq in Pa, Pb. apply Qeq_bool_iff in Sa, Sb.
  unfold tuple_lt, sort_key. simpl. rewrite Pa, Pb, Nat.eqb_refl.
  destruct (Qlt_bool (- Heading.font_size a) (- Heading.font_size b)) eqn:E;
    [|reflexivity].
  apply Qlt_bool_iff in E. rewrite Sa, Sb in E. exfalso. exact (Qlt_irrefl _ E).
Qed.

(** ** Where the entries of the content outline come from *)

Section Provenance.

Variable set_iter : list Q -> list Q.

Lemma for_each_new {A : Type} (P : heading -> Prop)
    (body : A -> list heading -> outcome (list heading)) (ys : list A) :
  (forall y acc res, In y ys -> body y acc = Ok res ->
     exists new, res = acc ++ new /\ Forall P new) ->
  forall acc res,
    for_each body ys acc = Ok res ->
    exists new, res = acc ++ new /\ Forall P new.
Proof.
  induction ys as [|y ys IH]; intros Hbody acc res; simpl.
  - intros [= <-]. exists []. now rewrite app_nil_r.
  - destruct (body y acc) as [acc'|] eqn:E; simpl; [|discriminate].
    intros Hres. apply Hbody in E as (new1 & -> & H1); [|now left].
    apply IH in Hres as (new2 & -> & H2).
    + exists (new1 ++ new2). rewrite app_assoc. split; [reflexivity|].
      now apply Forall_app.
    + intros y' acc' res' Hy'. apply Hbody. now right.
Qed.

Lemma process_line_new (avg : Q) (page_num : nat) (p : page) (y_pos : Q)
    (acc res : list heading) :
  process_line set_iter avg page_num (Page.width p)
    (filter (fun c => Qeq_bool (Py.get (Char.y0 c) 0) y_pos) (Page.chars p))
    acc = Ok res ->
  exists new, res = acc ++ new /\
              Forall (heading_of_line set_iter avg p (S page_num)) new.
Proof.
  unfold process_line. fold (line_chars_at p y_pos).
  destruct (is_empty _) eqn:Eempty.
  { intros [= <-]. exists []. now rewrite app_nil_r. }
  destruct (dominant_font_size _ _ _) as [d|] eqn:Ed; [|discriminate].
  destruct (is_potential_heading _ _ _ _) eqn:Eh; intros [= <-].
  - eexists. split; [reflexivity|]. constructor; [|constructor].
    exists y_pos. simpl. repeat split; auto.
    + lia.
    + intros E. rewrite E in Eempty. discriminate Eempty.
  - exists []. now rewrite app_nil_r.
Qed.

Lemma process_page_new (avg : Q) (page_num : nat) (p : page)
    (acc res : list heading) :
  process_page set_iter avg page_num p acc = Ok res ->
  exists new, res = acc ++ new /\
              Forall (heading_of_line set_iter avg p (S page_num)) new.
Proof.
  unfold process_page. destruct (is_empty (Page.chars p)).
  { intros [= <-]. exists []. now rewrite app_nil_r. }
  apply for_each_new. intros y acc' res' _.
  rewrite item_group. destruct (existsb _ _); [|discriminate].
  apply process_line_new.
Qed.

Lemma second_pass_new (avg : Q) (pages : list page) :
  forall page_num acc res,
    second_pass set_iter avg page_num pages acc = Ok res ->
    exists new,
      res = acc ++ new /\
      Forall (fun h => exists n p,
                  nth_error pages n = Some p /\
                  heading_of_line set_iter avg p (S (page_num + n)) h) new.
Proof.
  induction pages as [|p pages IH]; intros page_num acc res; simpl.
  - intros [= <-]. exists []. now rewrite app_nil_r.
  - destruct (process_page set_iter avg page_num p acc) as [acc'|] eqn:E; simpl;
      [|discriminate].
    intros Hres. apply process_page_new in E as (new1 & -> & H1).
    apply IH in Hres as (new2 & -> & H2).
    exists (new1 ++ new2). rewrite app_assoc. split; [reflexivity|].
    apply Forall_app. split.
    + eapply Forall_impl; [|exact H1]. intros h Hh. exists 0%nat, p.
      split; [reflexivity|]. now rewrite Nat.add_0_r.
    + eapply Forall_impl; [|exact H2]. intros h (n & p' & Hn & Hh).
      exists (S n), p'. split; [exact Hn|].
      now replace (page_num + S n)%nat with (S page_num + n)%nat by lia.
Qed.

Lemma heading_of_line_candidate (avg : Q) (pages : list page) (h : heading) :
  (exists n p, nth_error pages n = Some p /\
               heading_of_line set_iter avg p (S (0 + n)) h) ->
  line_candidate set_iter avg pages h.
Proof.
  intros (n & p & Hn & y_pos & Hpage & Hne & Htext & Hdom & Hhead).
  exists n, p, y_pos. repeat split; auto.
Qed.

Lemma outline_entry_heading (pages : list page) (e : entry) :
  In e (outline_from_pages set_iter pages) ->
  exists potential_headings h,
    second_pass set_iter (avg_font_size (all_font_sizes pages)) 0 pages [] =
      Ok potential_headings /\
    In h potential_headings /\
    Entry.text e = Heading.text h /\
    Entry.page e = Heading.page h /\
    Entry.level e =
      get_heading_level set_iter (Heading.font_size h)
        (map Heading.font_size
             (sort_headings (unique_headings potential_headings))).
Proof.
  unfold outline_from_pages. destruct (is_empty (all_font_sizes pages)); [intros []|].
  destruct (second_pass _ _ _ _ _) as [potential|] eqn:E; [|intros []].
  unfold final_outline. intros He. apply in_map_iff in He as (h & <- & Hh).
  exists potential, h. split; [reflexivity|]. split; [|now repeat split].
  unfold sort_headings in Hh. apply sorted_In in Hh.
  rewrite unique_headings_kept in Hh. now apply kept_first in Hh as (_ & _ & b & a & -> & _); apply in_elt.
Qed.

Lemma outline_entry_candidate (pages : list page) (e : entry) :
  In e (outline_from_pages set_iter pages) ->
  exists h,
    Entry.text e = Heading.text h /\
    Entry.page e = Heading.page h /\
    line_candidate set_iter (avg_font_size (all_font_sizes pages)) pages h.
Proof.
  intros He. apply outline_entry_heading in He
    as (potential & h & Hpass & Hh & Htext & Hpage & _).
  apply second_pass_new in Hpass as (new & -> & Hnew). simpl in Hh.
  rewrite Forall_forall in Hnew. exists h. repeat split; auto.
  now apply heading_of_line_candidate, Hnew.
Qed.

(** X7.  The content pipeline invents nothing: every entry of its
    outline carries the trimmed text of the glyphs of one baseline of the
    page whose number it carries, read from left to right, and the
    classifier accepted that line at its dominant font size and the
    average of the document. *)
Theorem X7_content_entries_are_lines (pages : list page) (e : entry)
    (He : In e (outline_from_pages set_iter pages)) :
  exists n p y_pos size,
    nth_error pages n = Some p /\
    Entry.page e = S n /\
    line_chars_at p y_pos <> [] /\
    Entry.text e = strip (join (map Char.text (line_chars_at p y_pos))) /\
    dominant_font_size set_iter (avg_font_size (all_font_sizes pages))
                       (line_chars_at p y_pos) = Some size /\
    is_potential_heading (Entry.text e) size
      (avg_font_size (all_font_sizes pages)) (Page.width p) = true.
Proof.
  apply outline_entry_candidate in He
    as (h & Htext & Hpage & n & p & y_pos & Hn & Hp & Hne & Ht & Hd & Hh).
  exists n, p, y_pos, (Heading.font_size h).
  rewrite Htext, Hpage. repeat split; auto.
Qed.

End Provenance.

Lemma X7_content_entries_are_lines_witness :
  let pages := [{| Page.width := 612;
                   Page.chars := typeset "plain words" 10 650 ++
                                 typeset "1. Scope" 12 700 |}] in
  let e := {| Entry.level := lit "H1"; Entry.text := lit "1. Scope";
              Entry.page := 1%nat |} in
  In e (outline_from_pages CPython.set_iter pages) /\
  exists n p y_pos size,
    nth_error pages n = Some p /\
    Entry.page e = S n /\
    line_chars_at p y_pos <> [] /\
    Entry.text e = strip (join (map Char.text (line_chars_at p y_pos))) /\
    dominant_font_size CPython.set_iter (avg_font_size (all_font_sizes pages))
                       (line_chars_at p y_pos) = Some size /\
    is_potential_heading (Entry.text e) size
      (avg_font_size (all_font_sizes pages)) (Page.width p) = true.
Proof.
  intros pages e.
  assert (He : In e (outline_from_pages CPython.set_iter pages))
    by (vm_compute; left; reflexivity).
  split; [exact He|].
  exact (X7_content_entries_are_lines CPython.set_iter pages e He).
Defined.

(** ** The record of a document *)

Lemma heading_level_in_range (set_iter : list Q -> list Q) (font_size : Q)
    (font_size_hierarchy : list Q) :
  In (get_heading_level set_iter font_size font_size_hierarchy)
     [lit "H1"; lit "H2"; lit "H3"].
Proof.
  unfold get_heading_level.
  destruct (heading_level_path set_iter font_size font_size_hierarchy) as [|i|].
  - now left.
  - assert (Hm : Nat.min (i + 1) 3 = 1%nat \/ Nat.min (i + 1) 3 = 2%nat \/
                 Nat.min (i + 1) 3 = 3%nat) by lia.
    destruct Hm as [-> | [-> | ->]]; simpl; auto.
  - right. right. now left.
Qed.

Lemma heading_text_length (text : str) (size avg width : Q) :
  is_potential_heading text size avg width = true ->
  (3 <= List.length (strip text) <= 150)%nat.
Proof.
  unfold is_potential_heading. cbv zeta.
  destruct (Nat.ltb_spec (List.length (strip text)) 3);
    destruct (Nat.ltb_spec 150 (List.length (strip text))); simpl;
    try discriminate.
  intros _. lia.
Qed.

Lemma content_entry_well_formed (set_iter : list Q -> list Q)
    (pages : list page) (e : entry) :
  In e (outline_from_pages set_iter pages) -> well_formed_entry e.
Proof.
  intros He. pose proof (outline_entry_heading set_iter pages e He)
    as (potential & h0 & _ & _ & _ & _ & Hlevel).
  apply outline_entry_candidate in He
    as (h & Htext & Hpage & n & p & y_pos & Hn & Hp & Hne & Ht & Hd & Hh).
  assert (Htrim : strip (Heading.text h) = Heading.text h)
    by (rewrite Ht; apply strip_idem).
  apply heading_text_length in Hh. rewrite Htrim in Hh.
  unfold well_formed_entry. rewrite Hlevel, Htext, Hpage, Hp.
  split; [apply heading_level_in_range|]. repeat split; auto; lia.
Qed.

Lemma bookmark_entry_labelled (d : pdf) (e : entry) :
  In e (extract_outline_from_bookmarks d) -> labelled_entry e.
Proof.
  unfold extract_outline_from_bookmarks.
  destruct (outline d) as [[|b forest]|]; try (intros []).
  rewrite process_bookmark_spec.
  destruct (iterates_method (Items (b :: forest))); [intros []|].
  rewrite app_nil_l. cbn [preorder]. intros He.
  apply in_flat_map in He as ([depth node] & Hv & He).
  apply in_flat_map in Hv as (root & _ & Hv).
  apply preorder_depth in Hv. simpl in Hv.
  unfold visited_entry in He. simpl in He.
  destruct node as [items | title page children]; [destruct He|].
  destruct (2 <? List.length (strip title))%nat eqn:E; [|destruct He].
  destruct He as [<-|[]]. apply Nat.ltb_lt in E.
  unfold labelled_entry. simpl. split; [|split].
  - assert (Hm : Nat.min depth 3 = 1%nat \/ Nat.min depth 3 = 2%nat \/
                 Nat.min depth 3 = 3%nat) by lia.
    destruct Hm as [-> | [-> | ->]]; simpl; auto.
  - exact E.
  - apply strip_idem.
Qed.

Lemma well_formed_labelled (e : entry) : well_formed_entry e -> labelled_entry e.
Proof. intros (Hl & _ & Ht & Hs). now repeat split. Qed.

Lemma first_title_line_some (lines : list str) (t : str) :
  first_title_line lines = Some t ->
  strip t = t /\ (6 <= List.length t <= 149)%nat.
Proof.
  induction lines as [|line lines IH]; simpl; [discriminate|].
  destruct (Nat.ltb_spec 5 (List.length (strip line)));
    destruct (Nat.ltb_spec (List.length (strip line)) 150); simpl; auto.
  intros [= <-]. split; [apply strip_idem | lia].
Qed.

Lemma content_title_some (extract_text : list char -> str) (d : pdf) (t : str) :
  extract_title_from_content extract_text d = Some t ->
  strip t = t /\ (6 <= List.length t <= 149)%nat.
Proof.
  unfold extract_title_from_content.
  destruct (pages d) as [[|first_page rest]|]; try discriminate.
  destruct (is_empty (Page.chars first_page)); [discriminate|].
  destruct (title_from_largest_font (Page.chars first_page)) as [[line|]|] eqn:E;
    try discriminate.
  - intros [= <-]. unfold title_from_largest_font in E.
    destruct (is_empty _); [discriminate|].
    destruct (Py.max _); [|discriminate].
    destruct (Dict.item _ _); [|discriminate].
    injection E as E. now apply first_title_line_some in E.
  - unfold title_from_text. destruct (is_empty _); [discriminate|].
    apply first_title_line_some.
Qed.

Lemma metadata_title_some (d : pdf) (t : str) :
  extract_title_from_metadata d = Some t -> strip t = t /\ t <> [].
Proof.
  unfold extract_title_from_metadata.
  destruct (metadata d) as [[field|]|]; try discriminate.
  destruct (strip _) as [|c s] eqn:E; simpl; [discriminate|].
  intros [= <-]. split; [|discriminate]. rewrite <- E. apply strip_idem.
Qed.

Lemma extract_title_cases (extract_text : list char -> str) (d : pdf) :
  (exists t, extract_title_from_metadata d = Some t /\
             extract_title extract_text d = t) \/
  (extract_title_from_metadata d = None /\
   ((exists t, extract_title_from_content extract_text d = Some t /\
               extract_title extract_text d = t) \/
    (extract_title_from_content extract_text d = None /\
     extract_title extract_text d = lit "Untitled Document"))).
Proof.
  unfold extract_title. cbv zeta.
  destruct (extract_title_from_metadata d) as [t|] eqn:E1.
  - left. exists t. split; [reflexivity|].
    apply metadata_title_some in E1 as [_ Hne]. destruct t; [congruence | reflexivity].
  - right. split; [reflexivity|]. cbn [truthy].
    destruct (extract_title_from_content extract_text d) as [t|] eqn:E2.
    + left. exists t. split; [reflexivity|].
      apply content_title_some in E2 as [_ Hlen].
      destruct t; [simpl in Hlen; lia | reflexivity].
    + right. now split.
Qed.

(** X8.  The record of a document fits the output format: the title is
    not empty and carries no white space at its ends; every entry of the
    outline, from the bookmarks or from the content, has a level among H1,
    H2 and H3 and a text of at least three characters without white space
    at its ends; and when the outline of the document is one of pypdf,
    every entry has a page number of at least 1. *)
Theorem X8_record_well_formed (set_iter : list Q -> list Q)
    (extract_text : list char -> str) (d : pdf) :
  let r := process_single_pdf set_iter extract_text d in
  Result.title r <> [] /\
  strip (Result.title r) = Result.title r /\
  Forall labelled_entry (Result.outline r) /\
  (read_by_pypdf d = true -> Forall well_formed_entry (Result.outline r)).
Proof.
  unfold process_single_pdf. simpl.
  assert (Hcontent : forall e,
             In e (extract_outline_from_content set_iter d) ->
             well_formed_entry e).
  { intros e He. unfold extract_outline_from_content in He.
    destruct (pages d) as [pages|]; [|destruct He].
    now apply content_entry_well_formed in He. }
  split; [|split; [|split]].
  - destruct (extract_title_cases extract_text d)
      as [(t & E & ->) | (_ & [(t & E & ->) | (_ & ->)])].
    + now apply metadata_title_some in E.
    + apply content_title_some in E as [_ Hlen].
      destruct t; [simpl in Hlen; lia | discriminate].
    + discriminate.
  - destruct (extract_title_cases extract_text d)
      as [(t & E & ->) | (_ & [(t & E & ->) | (_ & ->)])].
    + now apply metadata_title_some in E.
    + now apply content_title_some in E.
    + reflexivity.
  - apply Forall_forall. intros e He. unfold extract_outline in He.
    destruct (extract_outline_from_bookmarks d) as [|e0 es] eqn:E.
    + now apply well_formed_labelled, Hcontent.
    + apply (bookmark_entry_labelled d). now rewrite E.
  - intros Hp. apply Forall_forall. intros e He. unfold extract_outline in He.
    rewrite (pypdf_outline_dropped d Hp) in He. now apply Hcontent.
Qed.

(** An entry of page 0: the outline of a document whose bookmark is an
    object without [children] and with a page that the look-up does not
    find. *)
Example page_zero_entry :
  extract_outline CPython.set_iter
    {| metadata := Ok None;
       outline := Ok [Destination (lit "Annex") (Some Not_found) None];
       pages := Ok [] |} =
  [ {| Entry.level := lit "H1"; Entry.text := lit "Annex"; Entry.page := 0%nat |} ].
Proof. reflexivity. Qed.

(** X9.  When the metadata give no title, the title has between 6 and
    149 characters: it is a line of the first page within these bounds
    or the fallback text. *)
Theorem X9_title_length_without_metadata (extract_text : list char -> str)
    (d : pdf) (Hmeta : extract_title_from_metadata d = None) :
  (6 <= List.length (extract_title extract_text d) <= 149)%nat.
Proof.
  destruct (extract_title_cases extract_text d)
    as [(t & E & _) | (_ & [(t & E & ->) | (_ & ->)])].
  - congruence.
  - now apply content_title_some in E.
  - simpl. lia.
Qed.

Lemma X9_title_length_without_metadata_witness :
  let d := {| metadata := Raised; outline := Ok [];
              pages := Ok [{| Page.width := 612;
                              Page.chars := glyphs "Tiny" 30 ++
                                            glyphs "  A longer line  " 10 |}] |} in
  extract_title_from_metadata d = None /\
  (6 <= List.length (extract_title plain_text d) <= 149)%nat.
Proof.
  intros d.
  assert (Hmeta : extract_title_from_metadata d = None) by reflexivity.
  split; [exact Hmeta|].
  exact (X9_title_length_without_metadata plain_text d Hmeta).
Defined.

(** ** Bookmarks with short titles *)

(** X10.  A document whose bookmarks all have a trimmed title of at
    most two characters gets no outline from its bookmarks, and its outline
    is the one of the content pipeline; the bookmarks are those that the
    traversal visits, the members of the lists and of the [children] that
    are sequences. *)
Theorem X10_short_titles_fall_back (set_iter : list Q -> list Q) (d : pdf)
    (forest : list bookmark)
    (Hforest : outline d = Ok forest)
    (Hshort : forall depth title page children,
        In (depth, Destination title page children)
           (flat_map (preorder 1) forest) ->
        (List.length (strip title) <= 2)%nat) :
  extract_outline_from_bookmarks d = [] /\
  extract_outline set_iter d = extract_outline_from_content set_iter d.
Proof.
  assert (Hnone : extract_outline_from_bookmarks d = []).
  { unfold extract_outline_from_bookmarks. rewrite Hforest.
    destruct forest as [|b forest]; [reflexivity|].
    rewrite process_bookmark_spec.
    destruct (iterates_method (Items (b :: forest))); [reflexivity|].
    rewrite app_nil_l. cbn [preorder].
    apply flat_map_nil. intros [depth node] Hv. unfold visited_entry. simpl.
    destruct node as [items | title page children]; [reflexivity|].
    specialize (Hshort depth title page children Hv).
    destruct (Nat.ltb_spec 2 (List.length (strip title))); [lia | reflexivity]. }
  split; [exact Hnone|]. unfold extract_outline. now rewrite Hnone.
Qed.

Lemma X10_short_titles_fall_back_witness :
  let forest :=
    [Destination (lit " A ") (Some (Page_index 0))
       (Some (Sequence [Destination (lit "1") None None]));
     Items [Destination (lit "ii") (Some Lookup_raised) None]] in
  let d := {| metadata := Ok None; outline := Ok forest;
              pages := Ok [{| Page.width := 612;
                              Page.chars := typeset "1. Scope" 12 700 |}] |} in
  outline d = Ok forest /\
  extract_outline_from_bookmarks d = [] /\
  extract_outline CPython.set_iter d =
    extract_outline_from_content CPython.set_iter d.
Proof.
  intros forest d.
  assert (Hforest : outline d = Ok forest) by reflexivity.
  split; [exact Hforest|].
  apply (X10_short_titles_fall_back CPython.set_iter d forest Hforest).
  intros depth title page children Hin. simpl in Hin.
  destruct Hin as [E|[E|[E|[]]]]; inversion E; subst; simpl; lia.
Defined.

(** ** Levels of the content outline *)

Lemma H_injective (m n : nat) :
  (1 <= m <= 3)%nat -> (1 <= n <= 3)%nat -> H m = H n -> m = n.
Proof.
  intros Hm Hn.
  assert (Em : m = 1%nat \/ m = 2%nat \/ m = 3%nat) by lia.
  assert (En : n = 1%nat \/ n = 2%nat \/ n = 3%nat) by lia.
  destruct Em as [-> | [-> | ->]], En as [-> | [-> | ->]];
    try reflexivity; intros E; vm_compute in E; discriminate E.
Qed.

Section Levels2.

Variable set_iter : list Q -> list Q.
Hypothesis set_iter_ok : set_order set_iter.

Lemma level_at_rank (hs : list heading) (i : nat) (y : Q) :
  let hierarchy := map Heading.font_size hs in
  (1 < List.length (sorted_sizes set_iter hierarchy))%nat ->
  nth_error (sorted_sizes set_iter hierarchy) i = Some y ->
  In (H (Nat.min (i + 1) 3)) (map Entry.level (final_outline set_iter hs)).
Proof.
  intros hierarchy Hlen Hy.
  assert (HA : InA Qeq y hierarchy).
  { apply (sorted_sizes_distinct_descending set_iter set_iter_ok).
    apply InA_Qeq_In. exists y. split; [|reflexivity]. eapply nth_error_In; eauto. }
  apply InA_Qeq_In in HA as (x & Hx & E).
  apply in_map_iff in Hx as (h & <- & Hh).
  apply in_map_iff.
  exists {| Entry.level := get_heading_level set_iter (Heading.font_size h) hierarchy;
            Entry.text := Heading.text h; Entry.page := Heading.page h |}.
  split.
  - simpl. unfold get_heading_level.
    rewrite (heading_level_path_indexed set_iter set_iter_ok hierarchy _ i);
      [reflexivity | exact Hlen |].
    exists y. split; [exact Hy | now symmetry].
  - unfold final_outline. apply in_map_iff. now exists h.
Qed.

Lemma final_outline_no_gaps (hs : list heading) :
  let levels := map Entry.level (final_outline set_iter hs) in
  (hs <> [] -> In (lit "H1") levels) /\
  (In (lit "H3") levels -> In (lit "H2") levels).
Proof.
  intros levels. set (hierarchy := map Heading.font_size hs).
  split.
  - intros Hne.
    destruct (Nat.le_gt_cases (List.length (sorted_sizes set_iter hierarchy)) 1)
      as [Hle|Hgt].
    + assert (Hl : forall x, get_heading_level set_iter x hierarchy = lit "H1").
      { intros x. unfold get_heading_level, heading_level_path.
        destruct (Nat.leb_spec (List.length (sorted_sizes set_iter hierarchy)) 1);
          [reflexivity | lia]. }
      subst levels hierarchy. destruct hs as [|h hs']; [congruence|].
      left. apply Hl.
    + destruct (sorted_sizes set_iter hierarchy) as [|y r] eqn:E;
        [simpl in Hgt; lia|].
      apply (level_at_rank hs 0 y); fold hierarchy; rewrite E; [exact Hgt | reflexivity].
  - intros H3. subst levels. apply in_map_iff in H3 as (e & Hlevel & He).
    unfold final_outline in He. apply in_map_iff in He as (h & <- & Hh).
    simpl in Hlevel. fold hierarchy in Hlevel.
    assert (Hin : In (Heading.font_size h) hierarchy) by now apply in_map.
    pose proof (member_has_index set_iter set_iter_ok hierarchy _ Hin) as Hpath.
    unfold get_heading_level in Hlevel.
    destruct (heading_level_path set_iter (Heading.font_size h) hierarchy)
      as [|i|] eqn:Ep; [vm_compute in Hlevel; discriminate Hlevel | | congruence].
    apply (H_injective _ 3) in Hlevel; [|lia|lia].
    unfold heading_level_path in Ep.
    destruct (Nat.leb_spec (List.length (sorted_sizes set_iter hierarchy)) 1)
      as [|Hgt]; [discriminate|].
    destruct (Py.index _ _) as [j|] eqn:Ei; [|discriminate].
    injection Ep as ->. apply index_some_at in Ei as (y & Hy & _).
    assert (Hi : (i < List.length (sorted_sizes set_iter hierarchy))%nat).
    { apply nth_error_Some. congruence. }
    destruct (nth_error (sorted_sizes set_iter hierarchy) 1) as [y1|] eqn:E1.
    + apply (level_at_rank hs 1 y1 Hgt E1).
    + apply nth_error_None in E1. lia.
Qed.

(** X12.  The levels of the content outline have no gaps: an outline
    that is not empty has an H1 entry, and one with an H3 entry has an H2
    entry. *)
Theorem X12_content_levels_without_gaps (pages : list page) :
  let levels := map Entry.level (outline_from_pages set_iter pages) in
  (outline_from_pages set_iter pages <> [] -> In (lit "H1") levels) /\
  (In (lit "H3") levels -> In (lit "H2") levels).
Proof.
  intros levels. subst levels.
  destruct (outline_from_pages_shape set_iter pages) as (potential & -> & _).
  destruct (final_outline_no_gaps (sort_headings (unique_headings potential)))
    as [H1 H32].
  split; [|exact H32]. intros Hne. apply H1. intros E. apply Hne.
  now rewrite E.
Qed.

End Levels2.

Lemma X12_content_levels_without_gaps_witness :
  let pages := [{| Page.width := 612;
                   Page.chars := typeset "Annual Report" 24 750 ++
                                 typeset "1. Scope" 14 700 ++
                                 typeset "1.1 Details" 12 650 |}] in
  set_order first_seen /\
  (outline_from_pages first_seen pages <> [] ->
   In (lit "H1") (map Entry.level (outline_from_pages first_seen pages))) /\
  (In (lit "H3") (map Entry.level (outline_from_pages first_seen pages)) ->
   In (lit "H2") (map Entry.level (outline_from_pages first_seen pages))).
Proof.
  intros pages. split; [exact first_seen_set_order|].
  exact (X12_content_levels_without_gaps first_seen first_seen_set_order pages).
Defined.

(** ** Documents set in one font size *)

Lemma all_font_sizes_In (pages : list page) (x : Q) :
  In x (all_font_sizes pages) ->
  exists p c, In p pages /\ In c (Page.chars p) /\ Char.size c = Some x /\ 0 < x.
Proof.
  rewrite all_font_sizes_positive_sizes. unfold positive_sizes, glyph_sizes.
  intros Hx. apply filter_In in Hx as [Hx Hpos]. apply Qlt_bool_iff in Hpos.
  apply in_flat_map in Hx as (c & Hc & Hx).
  apply in_flat_map in Hc as (p & Hp & Hc).
  exists p, c. repeat split; auto.
  destruct (Char.size c) as [s|]; [|destruct Hx].
  destruct Hx as [<-|[]]. reflexivity.
Qed.

Lemma total_uniform (s : Q) (l : list Q) :
  Forall (fun x => x == s) l ->
  total l == s * inject_Z (Z.of_nat (List.length l)).
Proof.
  induction 1 as [|x l Hx _ IH].
  - simpl. now rewrite Qmult_0_r.
  - cbn [total List.length]. rewrite IH, Hx, Nat2Z.inj_succ.
    unfold Z.succ. rewrite inject_Z_plus. ring.
Qed.

Lemma avg_uniform (s : Q) (l : list Q) :
  l <> [] -> Forall (fun x => x == s) l -> avg_font_size l == s.
Proof.
  intros Hne Hall. destruct (avg_font_size_mean l Hne) as [_ Hmean].
  rewrite (total_uniform s l Hall) in Hmean.
  apply Qmult_inj_r in Hmean; [exact Hmean|].
  intros E. pose proof (length_pos l Hne) as Hpos. rewrite E in Hpos.
  exact (Qlt_irrefl _ Hpos).
Qed.

Section Uniform.

Variable set_iter : list Q -> list Q.
Hypothesis set_iter_ok : set_order set_iter.

Lemma dominant_is_read (avg : Q) (line_chars : list char) (d : Q) :
  dominant_font_size set_iter avg line_chars = Some d ->
  exists c, In c line_chars /\ d = Py.get (Char.size c) avg.
Proof.
  unfold dominant_font_size.
  set (font_sizes := map (fun c => Py.get (Char.size c) avg) line_chars).
  destruct (set_iter_ok font_sizes) as (Hin & _ & _).
  destruct (set_iter font_sizes) as [|x r] eqn:E; [discriminate|].
  assert (Hne : x :: r <> []) by discriminate.
  destruct (max_key_spec (fun s => Py.count s font_sizes) (x :: r) Hne)
    as (d' & before & after & Hmax & Hsplit & _).
  rewrite Hmax. intros [= <-].
  assert (Hd : In d' font_sizes).
  { apply Hin. rewrite Hsplit. apply in_or_app. right. now left. }
  apply in_map_iff in Hd as (c & <- & Hc). now exists c.
Qed.

(** X11.  In a document all of whose glyph sizes are one positive size,
    the font-size rule accepts no line: the text of every entry of the
    content outline matches one of the four patterns. *)
Theorem X11_one_size_needs_patterns (pages : list page) (s : Q) (e : entry)
    (Hpos : 0 < s)
    (Hone : forall p c x,
        In p pages -> In c (Page.chars p) -> Char.size c = Some x -> x == s)
    (He : In e (outline_from_pages set_iter pages)) :
  matches_a_pattern (Entry.text e).
Proof.
  assert (Hglyphs : all_font_sizes pages <> []).
  { intros E. unfold outline_from_pages in He. now rewrite E in He. }
  assert (Havg : avg_font_size (all_font_sizes pages) == s).
  { apply avg_uniform; [exact Hglyphs|]. apply Forall_forall. intros x Hx.
    apply all_font_sizes_In in Hx as (p & c & Hp & Hc & Hsize & _).
    exact (Hone p c x Hp Hc Hsize). }
  apply (outline_entry_candidate set_iter) in He
    as (h & Htext & _ & n & p & y_pos & Hn & _ & _ & Ht & Hd & Hh).
  apply dominant_is_read in Hd as (c & Hc & Hd).
  unfold line_chars_at in Hc. apply sorted_In in Hc. apply filter_In in Hc as [Hc _].
  apply nth_error_In in Hn.
  assert (Hsize : Heading.font_size h == avg_font_size (all_font_sizes pages)).
  { rewrite Hd. destruct (Char.size c) as [x|] eqn:Ex; simpl; [|reflexivity].
    now rewrite Havg, (Hone p c x Hn Hc Ex). }
  apply heading_by_pattern_or_size in Hh as [Hpat|Hrule].
  - rewrite Htext. rewrite Ht, strip_idem, <- Ht in Hpat.
    now apply heading_patterns_spec.
  - exfalso. apply Qlt_bool_iff in Hrule. rewrite Hsize in Hrule.
    assert (Hpos' : 0 < avg_font_size (all_font_sizes pages))
      by now rewrite Havg.
    exact (Qlt_not_le _ _ Hrule (mul_one_point_one_ge _ Hpos')).
Qed.

End Uniform.

Lemma X11_one_size_needs_patterns_witness :
  let pages := [{| Page.width := 612;
                   Page.chars := typeset "1. Scope" 10 700 ++
                                 typeset "plain words" 10 650 |}] in
  let e := {| Entry.level := lit "H1"; Entry.text := lit "1. Scope";
              Entry.page := 1%nat |} in
  set_order first_seen /\ 0 < 10 /\
  In e (outline_from_pages first_seen pages) /\
  matches_a_pattern (Entry.text e).
Proof.
  intros pages e.
  assert (Hpos : 0 < 10) by reflexivity.
  assert (He : In e (outline_from_pages first_seen pages))
    by (vm_compute; left; reflexivity).
  split; [exact first_seen_set_order|]. split; [exact Hpos|]. split; [exact He|].
  apply (X11_one_size_needs_patterns first_seen first_seen_set_order pages 10 e
           Hpos); [|exact He].
  intros p c x [<-|[]] Hc Hx. simpl in Hc.
  repeat (destruct Hc as [<-|Hc]; [injection Hx as <-; reflexivity|]).
  destruct Hc.
Defined.

(** ** The line grouping of a page *)

Lemma append_perm {A : Type} (k : Q) (v : A) (d : Dict.dict A) :
  Permutation (concat (map snd (Dict.append k v d))) (concat (map snd d) ++ [v]).
Proof.
  induction d as [|[k' vs] d IH]; simpl; [reflexivity|].
  destruct (Qeq_bool k' k); simpl.
  - rewrite <- !app_assoc. apply Permutation_app_head, Permutation_app_comm.
  - rewrite IH, app_assoc. reflexivity.
Qed.

Lemma group_perm {A : Type} (key : A -> Q) (l : list A) :
  Permutation (concat (map snd (Dict.group key l))) l.
Proof.
  induction l as [|c l IH] using rev_ind; [reflexivity|].
  rewrite group_snoc, append_perm. now apply Permutation_app_tail.
Qed.

(** X13.  The grouping of the glyphs of a page into lines loses and
    repeats nothing: the lines together hold exactly the glyphs of the
    page; looking up a baseline gives, in their order on the page, the
    glyphs whose [y0] equals it, at least one; and a value that is the [y0]
    of no glyph is no key. *)
Theorem X13_lines_partition_glyphs (p : page) :
  let y0 := fun c : char => Py.get (Char.y0 c) 0 in
  let lines := Dict.group y0 (Page.chars p) in
  Permutation (concat (map snd lines)) (Page.chars p) /\
  NoDupA Qeq (Dict.keys lines) /\
  (forall y_pos chars_at_y,
      Dict.item y_pos lines = Some chars_at_y ->
      chars_at_y = filter (fun c => Qeq_bool (y0 c) y_pos) (Page.chars p) /\
      chars_at_y <> []) /\
  (forall y_pos,
      Dict.item y_pos lines = None <->
      forall c, In c (Page.chars p) -> ~ y0 c == y_pos).
Proof.
  intros y0 lines. split; [apply group_perm|]. split; [apply keys_group_NoDupA|].
  split.
  - intros y_pos cs. unfold lines. rewrite item_group.
    destruct (existsb _ _) eqn:E; [|discriminate]. intros [= <-].
    split; [reflexivity|].
    apply existsb_exists in E as (c & Hc & Ec). intros Hnil.
    assert (Hin : In c (filter (fun c => Qeq_bool (y0 c) y_pos) (Page.chars p)))
      by (apply filter_In; now split).
    now rewrite Hnil in Hin.
  - intros y_pos. unfold lines. rewrite item_group.
    destruct (existsb _ _) eqn:E.
    + split; [discriminate|]. intros Hno.
      apply existsb_exists in E as (c & Hc & Ec). apply Qeq_bool_iff in Ec.
      now elim (Hno c Hc).
    + split; [|reflexivity]. intros _ c Hc Ec.
      assert (existsb (fun c => Qeq_bool (y0 c) y_pos) (Page.chars p) = true);
        [|congruence].
      apply existsb_exists. exists c. split; [exact Hc | now apply Qeq_bool_iff].
Qed.

(** ** The exceptions that cannot happen *)

Lemma for_each_ok {A S : Type} (body : A -> S -> outcome S) (ys : list A) :
  (forall y s, In y ys -> exists s', body y s = Ok s') ->
  forall s, exists s', for_each body ys s = Ok s'.
Proof.
  induction ys as [|y ys IH]; intros Hbody s; simpl; [now exists s|].
  destruct (Hbody y s (or_introl eq_refl)) as (s1 & ->). simpl.
  apply IH. intros y' s' Hy'. apply Hbody. now right.
Qed.

Section NoRaise.

Variable set_iter : list Q -> list Q.
Hypothesis set_iter_ok : set_order set_iter.

Lemma dominant_exists (avg : Q) (line_chars : list char) :
  line_chars <> [] ->
  exists d, dominant_font_size set_iter avg line_chars = Some d.
Proof.
  intros Hne. unfold dominant_font_size.
  set (font_sizes := map (fun c => Py.get (Char.size c) avg) line_chars).
  destruct (set_iter_ok font_sizes) as (_ & Hall & _).
  destruct (set_iter font_sizes) as [|x r] eqn:E; [|simpl; eauto].
  destruct line_chars as [|c cs]; [congruence|].
  assert (HA : InA Qeq (Py.get (Char.size c) avg) []) by (apply Hall; now left).
  inversion HA.
Qed.

Lemma process_line_ok (avg : Q) (page_num : nat) (w : Q) (cs : list char)
    (acc : list heading) :
  exists res, process_line set_iter avg page_num w cs acc = Ok res.
Proof.
  unfold process_line.
  set (line_chars := Py.sorted _ cs).
  destruct (is_empty (strip (join (map Char.text line_chars)))) eqn:E; [eauto|].
  destruct (dominant_exists avg line_chars) as (d & ->).
  - intros Hnil. rewrite Hnil in E. discriminate E.
  - destruct (is_potential_heading _ _ _ _); eauto.
Qed.

Lemma process_page_ok (avg : Q) (page_num : nat) (p : page) (acc : list heading) :
  exists res, process_page set_iter avg page_num p acc = Ok res.
Proof.
  unfold process_page. destruct (is_empty (Page.chars p)); [eauto|].
  apply for_each_ok. intros y s Hy. apply sorted_In in Hy.
  destruct (Dict.item y _) as [cs|] eqn:E; [apply process_line_ok|].
  exfalso. revert E. apply item_keys. apply InA_Qeq_In. exists y.
  split; [exact Hy | reflexivity].
Qed.

(** X14.  The handlers for failures of the code itself are never
    reached: in the second pass neither the lookup of a line by its
    baseline nor [max] over the sizes of a line raises, and in the title
    heuristic neither [max] over the sizes nor the lookup of the largest
    size does. *)
Theorem X14_no_internal_exception (avg : Q) (pages : list page)
    (chars : list char) :
  (forall page_num potential_headings,
      exists result,
        second_pass set_iter avg page_num pages potential_headings = Ok result) /\
  (exists title, title_from_largest_font chars = Ok title).
Proof.
  split.
  - induction pages as [|p pages IH]; intros page_num acc; simpl; [eauto|].
    destruct (process_page_ok avg page_num p acc) as (acc' & ->). simpl.
    apply IH.
  - destruct chars as [|c cs].
    + exists None. reflexivity.
    + rewrite largest_group. eauto.
Qed.

End NoRaise.

Lemma X14_no_internal_exception_witness :
  let pages := [{| Page.width := 612;
                   Page.chars := typeset "1. Scope" 12 700 ++
                                 [sizeless "x" 3 650] |}] in
  set_order first_seen /\
  (forall page_num potential_headings,
      exists result,
        second_pass first_seen 11 page_num pages potential_headings = Ok result) /\
  (exists title, title_from_largest_font (glyphs "Title" 20) = Ok title).
Proof.
  intros pages. split; [exact first_seen_set_order|].
  exact (X14_no_internal_exception first_seen first_seen_set_order 11 pages
           (glyphs "Title" 20)).
Defined.

(** ** Deduplication in the order of the document *)

Lemma has_lower_spec (c : ascii) : has_lower c = true <-> Cased_capital c.
Proof.
  unfold has_lower, Cased_capital.
  rewrite !orb_true_iff, !between_spec. lia.
Qed.

Lemma lower_char_spec (c d : ascii) :
  (Cased_capital c /\ code d = (code c + 32)%nat) \/ (~ Cased_capital c /\ d = c)
  <-> d = lower_char c.
Proof.
  unfold lower_char. rewrite <- has_lower_spec. split.
  - intros [[Hc Hd] | [Hc ->]].
    + rewrite Hc. unfold code in *.
      now rewrite <- Hd, ascii_nat_embedding.
    + destruct (has_lower c); [congruence | reflexivity].
  - intros ->. destruct (has_lower c) eqn:E.
    + left. split; [reflexivity|]. apply has_lower_spec in E.
      unfold code. apply nat_ascii_embedding.
      unfold Cased_capital, code in E. lia.
    + right. split; [discriminate | reflexivity].
Qed.

(** [lower] gives the text in lower case, and nothing else is. *)
Lemma lower_spec (text low : str) : Lower_case_of text low <-> low = lower text.
Proof.
  unfold Lower_case_of, lower. split.
  - induction 1 as [|c d text low Hcd _ IH]; simpl; [reflexivity|].
    apply lower_char_spec in Hcd. now rewrite Hcd, IH.
  - intros ->. induction text as [|c text IH]; simpl; constructor; [|exact IH].
    now apply lower_char_spec.
Qed.

(** The key of the code is the key of the specification. *)
Lemma text_key_spec (h : heading) (key : str) :
  Key_of (Heading.text h) key <-> key = text_key h.
Proof.
  unfold Key_of, text_key. split.
  - intros (low & Hlow & Hkey). apply lower_spec in Hlow. subst low.
    now apply trimmed_strip.
  - intros ->. exists (lower (Heading.text h)).
    split; [now apply lower_spec | apply strip_trimmed].
Qed.

Lemma for_each_appends {A B : Type} (body : A -> list B -> outcome (list B))
    (g : A -> list B) (ys : list A) :
  (forall y acc, In y ys -> body y acc = Ok (acc ++ g y)) ->
  forall acc, for_each body ys acc = Ok (acc ++ flat_map g ys).
Proof.
  induction ys as [|y ys IH]; intros Hbody acc; simpl.
  - now rewrite app_nil_r.
  - rewrite (Hbody y acc (or_introl eq_refl)). simpl.
    rewrite IH by (intros y' acc' Hy'; apply Hbody; now right).
    now rewrite app_assoc.
Qed.

Section DocumentOrder.

Variable set_iter : list Q -> list Q.
Hypothesis set_iter_ok : set_order set_iter.

(** The body of the loop over the lines appends the candidate of the
    line. *)
Lemma process_line_heading (avg : Q) (page_num : nat) (p : page) (y : Q)
    (acc : list heading) :
  process_line set_iter avg page_num (Page.width p)
    (filter (fun c => Qeq_bool (Py.get (Char.y0 c) 0) y) (Page.chars p)) acc =
  Ok (acc ++ line_heading set_iter avg page_num p y).
Proof.
  unfold process_line, line_heading, line_chars_at. cbv zeta.
  set (line_chars := Py.sorted _ _).
  destruct (strip (join (map Char.text line_chars))) as [|c t] eqn:E;
    cbn [is_empty].
  - now rewrite app_nil_r.
  - destruct (dominant_exists set_iter set_iter_ok avg line_chars) as (d & ->).
    + intros Hnil. rewrite Hnil in E. discriminate E.
    + destruct (is_potential_heading _ _ _ _); [reflexivity|].
      now rewrite app_nil_r.
Qed.

(** The lines of a page are visited from the top to the bottom. *)
Lemma process_page_lines (avg : Q) (page_num : nat) (p : page)
    (acc : list heading) :
  exists ys,
    top_to_bottom p ys /\
    process_page set_iter avg page_num p acc =
    Ok (acc ++ flat_map (line_heading set_iter avg page_num p) ys).
Proof.
  unfold process_page. cbv zeta.
  destruct (is_empty (Page.chars p)) eqn:Eempty.
  - exists []. split; [|now rewrite app_nil_r].
    split; [constructor|]. intros y. split; [inversion 1|].
    intros (c & Hc & _). destruct (Page.chars p); [destruct Hc | discriminate].
  - set (key := fun char : char => Py.get (Char.y0 char) 0).
    exists (Py.sorted (fun a b => Qlt_bool b a)
              (Dict.keys (Dict.group key (Page.chars p)))).
    split; [split|].
    + apply desc_sorted_strict, keys_group_NoDupA.
    + intros y. rewrite InA_sorted, keys_group, InA_Qeq_In. split.
      * intros (k & Hk & E). apply in_map_iff in Hk as (c & <- & Hc).
        now exists c.
      * intros (c & Hc & E). exists (key c). split; [now apply in_map | exact E].
    + apply for_each_appends. intros y acc' Hy.
      rewrite item_group.
      destruct (existsb (fun c => Qeq_bool (key c) y) (Page.chars p)) eqn:Ex.
      * apply process_line_heading.
      * exfalso. apply sorted_In in Hy.
        assert (HA : InA Qeq y (Dict.keys (Dict.group key (Page.chars p))))
          by (apply InA_Qeq_In; exists y; split; [exact Hy | reflexivity]).
        apply (keys_group key y (Page.chars p)) in HA.
        apply InA_Qeq_In in HA as (k & Hk & E).
        apply in_map_iff in Hk as (c & <- & Hc).
        assert (Ht : existsb (fun c => Qeq_bool (key c) y) (Page.chars p) = true)
          by (apply existsb_exists; exists c; split;
              [exact Hc | now apply Qeq_bool_iff]).
        congruence.
Qed.

(** The second pass lists the candidates in the order of the document. *)
Lemma second_pass_document_order (avg : Q) (pages : list page) :
  forall page_num acc,
  exists lines,
    Forall2 top_to_bottom pages lines /\
    second_pass set_iter avg page_num pages acc =
    Ok (acc ++ in_document_order set_iter avg page_num pages lines).
Proof.
  induction pages as [|p pages IH]; intros page_num acc.
  - exists []. split; [constructor|]. simpl. now rewrite app_nil_r.
  - destruct (process_page_lines avg page_num p acc) as (ys & Hys & Ep).
    destruct (IH (S page_num)
                 (acc ++ flat_map (line_heading set_iter avg page_num p) ys))
      as (lines & Hlines & El).
    exists (ys :: lines). split; [now constructor|].
    cbn [second_pass in_document_order]. rewrite Ep. cbn [bind].
    rewrite El. now rewrite app_assoc.
Qed.

End DocumentOrder.

(** The candidates of two lines of one page: the upper line comes
    first, whatever the order of the glyphs. *)
Example document_order_example :
  second_pass CPython.set_iter 10 0
    [{| Page.width := 612;
        Page.chars := typeset "2. Lower" 12 100 ++ typeset "1. Upper" 12 700 |}]
    [] =
  Ok [ {| Heading.text := lit "1. Upper"; Heading.page := 1%nat;
          Heading.font_size := 12 |};
       {| Heading.text := lit "2. Lower"; Heading.page := 1%nat;
          Heading.font_size := 12 |} ].
Proof. vm_compute. reflexivity. Qed.

(** C4.  The deduplication keeps, in their order, exactly the candidates
    whose key has more than two characters and does not occur earlier in
    the list, the key of a candidate being its text in lower case,
    trimmed; so no two entries of the final content outline have the same
    key.  The candidates of the content pipeline are in the order of the
    document: page after page, and on every page line after line from the
    top to the bottom. *)
Theorem C4_dedup_first_occurrence (set_iter : list Q -> list Q)
    (potential_headings : list heading) :
  let unique := unique_headings potential_headings in
  subseq unique potential_headings /\
  (forall h,
      In h unique <->
      (2 < List.length (text_key h))%nat /\
      first_occurrence h potential_headings) /\
  (forall h key, Key_of (Heading.text h) key <-> key = text_key h) /\
  NoDup (map text_key unique) /\
  NoDup (map (fun e => strip (lower (Entry.text e)))
             (final_outline set_iter (sort_headings unique))) /\
  (forall avg_font_size pages,
      second_pass set_iter avg_font_size 0 pages [] = Ok potential_headings ->
      StronglySorted le (map Heading.page potential_headings)) /\
  (set_order set_iter ->
   forall avg_font_size pages,
   exists lines,
     Forall2 top_to_bottom pages lines /\
     second_pass set_iter avg_font_size 0 pages [] =
     Ok (in_document_order set_iter avg_font_size 0 pages lines)) /\
  (forall pages,
      NoDup (map (fun e => strip (lower (Entry.text e)))
                 (outline_from_pages set_iter pages))).
Proof.
  intros unique. subst unique.
  split; [|split; [|split; [|split; [|split; [|split; [|split]]]]]].
  - rewrite unique_headings_kept. apply kept_subseq.
  - intros h. rewrite unique_headings_kept. split.
    + intros Hin. apply kept_first in Hin as (_ & Hl & Hf). now split.
    + intros (Hl & before & after & -> & Hb). apply first_kept; auto.
  - apply text_key_spec.
  - rewrite unique_headings_kept. apply kept_NoDup.
  - apply outline_keys_NoDup.
  - intros avg pages E. apply second_pass_pages in E as (new & -> & _ & Hs).
    exact Hs.
  - intros Hset avg pages.
    destruct (second_pass_document_order set_iter Hset avg pages 0%nat [])
      as (lines & Hlines & E).
    exists lines. split; [exact Hlines | exact E].
  - intros pages.
    destruct (outline_from_pages_shape set_iter pages) as (potential & -> & _).
    apply outline_keys_NoDup.
Qed.

(** ** Lists inside lists of bookmarks *)

Lemma process_items (items : list bookmark) (level : nat) (outline : list entry) :
  process_bookmark (Items items) level outline =
  for_each (fun item outline => process_bookmark item level outline)
           items outline.
Proof. reflexivity. Qed.

(** X15.  A list of bookmarks inside a list is read at the level of the
    list around it, as if its members stood in its place, and a list is
    read piece by piece: reading [l1 ++ l2] is reading [l1] and then, if
    that did not raise, [l2]. *)
Theorem X15_bookmark_lists_splice (l1 l2 l3 : list bookmark) (level : nat)
    (outline : list entry) :
  process_bookmark (Items (l1 ++ Items l2 :: l3)) level outline =
    process_bookmark (Items (l1 ++ l2 ++ l3)) level outline /\
  process_bookmark (Items (l1 ++ l2)) level outline =
    (outline' <- process_bookmark (Items l1) level outline ;;
     process_bookmark (Items l2) level outline').
Proof.
  rewrite !process_items. split.
  - rewrite !for_each_app.
    destruct (for_each _ l1 outline) as [outline'|]; [|reflexivity].
    cbn [bind]. rewrite for_each_app. reflexivity.
  - rewrite for_each_app.
    destruct (for_each _ l1 outline) as [outline'|]; reflexivity.
Qed.

(** In the outline of pypdf the bookmarks below a bookmark are in the
    list that follows it: the code reads them at the level of the
    bookmark. *)
Example nested_list_level :
  process_bookmark
    (Items [Destination (lit "Part one") (Some (Page_index 0)) None;
            Items [Destination (lit "Section") (Some (Page_index 1)) None]])
    1%nat [] =
  Ok [ {| Entry.level := lit "H1"; Entry.text := lit "Part one"; Entry.page := 1%nat |};
       {| Entry.level := lit "H1"; Entry.text := lit "Section"; Entry.page := 2%nat |} ].
Proof. reflexivity. Qed.

(** ** The outline of pypdf *)

(** X17.  Whenever the outline of the document is one that pypdf
    delivers (lists and [Destination] objects), no outline comes from the
    bookmarks: the outline of the document is the one of the content
    pipeline, and the record of the document is the same as that of the
    document without bookmarks. *)
Theorem X17_pypdf_outline_unused (set_iter : list Q -> list Q)
    (extract_text : list char -> str) (d : pdf)
    (Hpypdf : read_by_pypdf d = true) :
  extract_outline_from_bookmarks d = [] /\
  extract_outline set_iter d = extract_outline_from_content set_iter d /\
  process_single_pdf set_iter extract_text d =
  process_single_pdf set_iter extract_text
    {| metadata := metadata d; outline := Ok []; pages := pages d |}.
Proof.
  pose proof (pypdf_outline_dropped d Hpypdf) as Hnone.
  split; [exact Hnone|].
  assert (Hout : extract_outline set_iter d =
                 extract_outline_from_content set_iter d)
    by (unfold extract_outline; now rewrite Hnone).
  split; [exact Hout|].
  unfold process_single_pdf. rewrite Hout. reflexivity.
Qed.

Lemma X17_pypdf_outline_unused_witness :
  let forest :=
    [Destination (lit "Part one") (Some (Page_index 0)) (Some Bound_method);
     Items [Destination (lit "Section") (Some (Page_index 1)) (Some Bound_method)];
     Destination (lit "Part two") (Some Not_found) (Some Bound_method)] in
  let d := {| metadata := Ok None; outline := Ok forest;
              pages := Ok [{| Page.width := 612;
                              Page.chars := typeset "1. Scope" 12 700 |}] |} in
  read_by_pypdf d = true /\
  extract_outline_from_bookmarks d = [] /\
  extract_outline CPython.set_iter d =
    extract_outline_from_content CPython.set_iter d /\
  process_single_pdf CPython.set_iter plain_text d =
  process_single_pdf CPython.set_iter plain_text
    {| metadata := metadata d; outline := Ok []; pages := pages d |}.
Proof.
  intros forest d.
  assert (Hpypdf : read_by_pypdf d = true) by reflexivity.
  split; [exact Hpypdf|].
  exact (X17_pypdf_outline_unused CPython.set_iter plain_text d Hpypdf).
Defined.

(** ** A first page without font sizes *)

Lemma filter_all {A : Type} (f : A -> bool) (l : list A) :
  (forall x, In x l -> f x = true) -> filter f l = l.
Proof.
  induction l as [|x l IH]; intros H; simpl; [reflexivity|].
  rewrite (H x (or_introl eq_refl)), IH; [reflexivity|].
  intros y Hy. apply H. now right.
Qed.

(** X16.  When no glyph of the first page has a size, every glyph
    counts as of size 0 and the title heuristic reads the text of all the
    glyphs of the page. *)
Theorem X16_title_without_sizes (chars : list char)
    (Hchars : chars <> [])
    (Hsizeless : Forall (fun c => Char.size c = None) chars) :
  title_from_largest_font chars =
  Ok (first_title_line (split_lines (strip (join (map Char.text chars))))).
Proof.
  destruct chars as [|c cs]; [congruence|].
  rewrite largest_group, first_title_line_ok. do 6 f_equal.
  rewrite Forall_forall in Hsizeless.
  assert (Hzero : forall x, In x (c :: cs) -> size_or_zero x = 0).
  { intros x Hx. unfold size_or_zero. now rewrite (Hsizeless x Hx). }
  apply filter_all. intros x Hx. apply Qeq_bool_iff. rewrite (Hzero x Hx).
  destruct (Qmax_fold_spec (map size_or_zero (c :: cs)) (size_or_zero c))
    as (HM & _ & _).
  apply InA_Qeq_In in HM as (y & Hy & <-).
  destruct Hy as [<-|Hy].
  - now rewrite (Hzero c (or_introl eq_refl)).
  - apply in_map_iff in Hy as (z & <- & Hz). now rewrite (Hzero z Hz).
Qed.

Lemma X16_title_without_sizes_witness :
  let chars := [sizeless "Hello " 0 700; sizeless "World" 40 700] in
  chars <> [] /\
  Forall (fun c => Char.size c = None) chars /\
  title_from_largest_font chars = Ok (Some (lit "Hello World")).
Proof.
  intros chars.
  assert (H1 : chars <> []) by discriminate.
  assert (H2 : Forall (fun c => Char.size c = None) chars) by (repeat constructor).
  split; [exact H1|]. split; [exact H2|].
  exact (X16_title_without_sizes chars H1 H2).
Defined.
